(** * LogTape: category tree, filters, emission pipeline, rotating file sink

    A shallow embedding of the logging core of LogTape
    ([logtape/category.ts], [logtape/filter.ts], [logtape/logger/logger.ts])
    together with the properties its specification states about it.  The
    rotating file sink, whose implementation is not among the sources, is
    modelled from the specification and checked against the expectations
    of [logtape/filesink.test.ts].

    Conventions of the embedding.
    - JavaScript objects with identity (logger nodes, log records, sinks)
      live in explicit stores and are referred to by their index.
    - User code (filters, sinks, property callbacks, lazy message callbacks)
      is represented by small programs over the accessors of the record it
      receives, so that reading a lazily computed field is an observable
      step.
    - Recursion that the source performs through [parent] links or through
      nested meta logging is written with fuel; running out of fuel stands
      for a call that does not return.
    - An object literal that the source indexes with a string of the
      caller ([this.children], [levelAbbreviations], [logLevelStyles]) is a
      finite map of its own entries together with the members it inherits
      from [Object.prototype]. *)

From stdpp Require Import gmap strings list fin_maps pretty.
From Stdlib Require Import ZArith Lia.

Open Scope string_scope.
Open Scope list_scope.

(* ===================================================================== *)
(** * Part I: the program                                                *)
(* ===================================================================== *)

(** ** JavaScript values that occur in records *)

Abbreviation SinkId := nat (only parsing).
Abbreviation RecId := nat (only parsing).
Abbreviation NodeId := nat (only parsing).
Abbreviation CallbackId := nat (only parsing).

(** Thrown values.  [TypeError] is what the library itself raises; any other
    exception raised by user code is an [OtherError]. *)
Inductive JsError : Type :=
| TypeError (msg : string)
| OtherError (tag : nat).

(** The [unknown] values stored in messages and property bags.  Sinks and
    records are held by reference. *)
Inductive Value : Type :=
| VUndefined
| VNull
| VBool (b : bool)
| VNumber (z : Z)
| VString (s : string)
| VSink (s : SinkId)
| VError (e : JsError)
| VRecord (r : RecId).

#[global] Instance JsError_eq_dec : EqDecision JsError.
Proof. solve_decision. Defined.
#[global] Instance Value_eq_dec : EqDecision Value.
Proof. solve_decision. Defined.

(** [Record<string, unknown> | undefined] *)
Abbreviation PropertiesObj := (gmap string Value) (only parsing).
Abbreviation Properties := (option (gmap string Value)) (only parsing).

(** Result of a call: it returns, it throws, or it does not return. *)
Inductive Outcome (A : Type) : Type :=
| Normal (a : A)
| Thrown (e : JsError)
| OutOfFuel.
Arguments Normal {A} a.
Arguments Thrown {A} e.
Arguments OutOfFuel {A}.

(** ** Object literals indexed by a string *)

(** The names of the members that an object literal inherits from
    [Object.prototype], as the language defines them. *)
Definition objectPrototypeNames : list string :=
  ["constructor"; "hasOwnProperty"; "isPrototypeOf"; "propertyIsEnumerable";
   "toLocaleString"; "toString"; "valueOf"; "__proto__";
   "__defineGetter__"; "__defineSetter__"; "__lookupGetter__";
   "__lookupSetter__"].

(** What [table[key]] evaluates to: the entry of the object itself, else
    the member of [Object.prototype] of that name (a function, or
    [Object.prototype] itself for [__proto__]), else [undefined]. *)
Inductive Lookup (A : Type) : Type :=
| Own (a : A)
| Inherited (name : string)
| Undefined.
Arguments Own {A} a.
Arguments Inherited {A} name.
Arguments Undefined {A}.

Definition objectGet {A : Type} (table : gmap string A) (key : string)
  : Lookup A :=
  match table !! key with
  | Some a => Own a
  | None =>
      if bool_decide (key ∈ objectPrototypeNames) then Inherited key
      else Undefined
  end.

(** ** category.ts *)
Module Category.

(** [MaybeCategory = string | null | undefined | readonly MaybeCategory[]] *)
Inductive MaybeCategory : Type :=
| CStr (s : string)
| CNull
| CUndefined
| CArr (items : list MaybeCategory).

(** Truthiness of a [MaybeCategory] value, as [!arr] and [!subcategory]
    test it: the empty string, [null] and [undefined] are falsy, and an
    array is truthy whatever it holds. *)
Definition truthy (c : MaybeCategory) : bool :=
  match c with
  | CStr s => negb (String.eqb s "")
  | CNull | CUndefined => false
  | CArr _ => true
  end.

(** [category.length] of a string or an array. *)
Definition jsLength (c : MaybeCategory) : nat :=
  match c with
  | CStr s => String.length s
  | CArr items => length items
  | CNull | CUndefined => 0
  end.

Fixpoint deepFlatten (arr : MaybeCategory) : list string :=
  match arr with
  | CStr s => [s]
  | CNull | CUndefined => []
  | CArr items =>
      flat_map (fun item =>
                  match item with
                  | CStr s => [s]
                  | _ => deepFlatten item
                  end) items
  end.

Definition getCategoryList (category : MaybeCategory) : list string :=
  deepFlatten category.

(** A flat list of names seen as a category argument again, as in
    [child.getChild(subcategoryList.slice(1))]. *)
Definition ofList (l : list string) : MaybeCategory := CArr (CStr <$> l).

(** The leaves of a category value from left to right, depth first:
    [Some s] for a string, [None] for an absent ([null] or [undefined])
    one.  This follows the wording of the specification and is what
    [getCategoryList] is compared with. *)
Fixpoint leaves (c : MaybeCategory) : list (option string) :=
  match c with
  | CStr s => [Some s]
  | CNull | CUndefined => [None]
  | CArr items => flat_map leaves items
  end.

End Category.

(** ** record.ts, propertiesTransformer.ts *)

(** [rawMessage: string | TemplateStringsArray] *)
Inductive RawMessage : Type :=
| RawString (s : string)
| RawTemplate (tpl : list string).

(** The fields of a record that are plain data in every construction
    protocol. *)
Record RecordHead : Type := mkHead {
  rcategory : list string;
  rlevel : string;
  rtimestamp : Z
}.

(** [RawLogRecord = Pick<LogRecord, "category" | "level" | "rawMessage" |
    "timestamp" | "properties">] *)
Record RawLogRecord : Type := mkRaw {
  raw_category : list string;
  raw_level : string;
  raw_rawMessage : RawMessage;
  raw_timestamp : Z;
  raw_properties : Properties
}.

(** A properties transformer is a function of the application: it returns
    the new properties, or throws. *)
Definition PropertiesTransformer : Type := RawLogRecord -> JsError + Properties.

(** Code that receives a record: it may read the accessors [properties],
    [message] and [rawMessage] any number of times, each time continuing
    with the value read, and finally returns or throws. *)
Inductive Reader (A : Type) : Type :=
| Ret (a : A)
| Throw (e : JsError)
| GetProperties (k : Properties -> Reader A)
| GetMessage (k : list Value -> Reader A)
| GetRawMessage (k : RawMessage -> Reader A).
Arguments Ret {A} a.
Arguments Throw {A} e.
Arguments GetProperties {A} k.
Arguments GetMessage {A} k.
Arguments GetRawMessage {A} k.

(** ** filter.ts *)
Module Filter.

(** [type Filter = (record: LogRecord) => boolean] *)
Definition Filter : Type := RecordHead -> Reader bool.

(** [type FilterLike = Filter | LogLevel | null]; a level is whatever
    string the caller passes, the type annotation being erased. *)
Inductive FilterLike : Type :=
| FLFunction (f : Filter)
| FLLevel (l : string)
| FLNull.

Definition levelsOrder : list string :=
  ["fatal"; "critical"; "error"; "warning"; "info"; "debug"].

(** [new Map(entries)]: a later entry replaces an earlier one. *)
Definition newMap (entries : list (string * nat)) : gmap string nat :=
  foldl (fun m e => <[e.1 := e.2]> m) ∅ entries.

Definition levelsOrderMap : gmap string nat :=
  newMap (imap (fun index level => (level, index)) levelsOrder).

Definition getLevelIndex (level : string) : JsError + nat :=
  match levelsOrderMap !! level with
  | None => inl (TypeError ("Invalid log level: " +:+ level +:+ "."))
  | Some index => inr index
  end.

Definition getLevelFilter (level : option string) : JsError + Filter :=
  match level with
  | None => inr (fun _ => Ret false)
  | Some level =>
      if String.eqb level "debug" then inr (fun _ => Ret true)
      else
        match getLevelIndex level with
        | inl e => inl e
        | inr levelIndex =>
            inr (fun record =>
                   match getLevelIndex (rlevel record) with
                   | inl e => Throw e
                   | inr recordLevelIndex =>
                       Ret (Nat.leb recordLevelIndex levelIndex)
                   end)
        end
  end.

Definition toFilter (filter : FilterLike) : JsError + Filter :=
  match filter with
  | FLFunction f => inr f
  | FLLevel l => getLevelFilter (Some l)
  | FLNull => getLevelFilter None
  end.

(** The severity scale in the order the specification gives it,
    [debug < info < warning < error < critical < fatal]; [None] for a
    string outside the scale. *)
Definition severity (l : string) : option nat :=
  if String.eqb l "debug" then Some 0
  else if String.eqb l "info" then Some 1
  else if String.eqb l "warning" then Some 2
  else if String.eqb l "error" then Some 3
  else if String.eqb l "critical" then Some 4
  else if String.eqb l "fatal" then Some 5
  else None.

End Filter.

(** ** logger/logger.ts: the category tree *)
Module Logger.
Import Category Filter.

Inductive ParentSinks : Type := inherit | override.

(** The fields of a [LoggerImpl] object.  [children] is the name-keyed
    table of the object; an entry is kept as long as its target is alive,
    and reclaiming of weakly held targets is not part of the model, so an
    entry always dereferences to its node. *)
Record LoggerImpl : Type := mkLoggerImpl {
  parent : option NodeId;
  category : list string;
  properties : Properties;
  children : gmap string NodeId;
  sinks : list SinkId;
  parentSinks : ParentSinks;
  filters : list Filter;
  propTransformers : list PropertiesTransformer
}.

(** The logger objects allocated so far, in allocation order, and the slot
    [globalThis[globalRootLoggerSymbol]]. *)
Record Registry : Type := mkRegistry {
  heap : list LoggerImpl;
  globalRootLogger : option NodeId
}.

Definition emptyRegistry : Registry :=
  {| heap := []; globalRootLogger := None |}.

(** [defaultProperties && properties ? { ...defaultProperties, ...properties }
     : (defaultProperties ?? properties)] *)
Definition mergeProperties (defaultProperties properties : Properties)
  : Properties :=
  match defaultProperties, properties with
  | Some d, Some p => Some (p ∪ d)
  | Some d, None => Some d
  | None, p => p
  end.

(** [parent?.properties] *)
Definition parentProperties (g : Registry) (parent : option NodeId)
  : Properties :=
  match parent with
  | None => None
  | Some p =>
      match heap g !! p with
      | Some nd => properties nd
      | None => None
      end
  end.

(** [new LoggerImpl(parent, category, properties)] *)
Definition newLoggerImpl (g : Registry) (parent : option NodeId)
    (category : list string) (properties : Properties) : Registry * NodeId :=
  let node :=
    {| parent := parent;
       category := category;
       properties := mergeProperties (parentProperties g parent) properties;
       children := ∅;
       sinks := [];
       parentSinks := inherit;
       filters := [];
       propTransformers := [] |} in
  ({| heap := heap g ++ [node]; globalRootLogger := globalRootLogger g |},
   length (heap g)).

(** An assignment to the fields of the object [this]. *)
Definition updateNode (f : LoggerImpl -> LoggerImpl) (g : Registry)
    (this : NodeId) : Registry :=
  {| heap := alter f this (heap g); globalRootLogger := globalRootLogger g |}.

(** [this.children[name] = child] (directly or behind a [WeakRef]) *)
Definition setChild (g : Registry) (this : NodeId) (name : string)
    (child : NodeId) : Registry :=
  updateNode (fun nd =>
    {| parent := parent nd; category := category nd;
       properties := properties nd;
       children := <[name := child]> (children nd);
       sinks := sinks nd; parentSinks := parentSinks nd;
       filters := filters nd; propTransformers := propTransformers nd |})
    g this.

(** A method call on a reference that designates no object. *)
Definition danglingReference : JsError :=
  TypeError "Cannot read properties of undefined".

(** What [childRef?.deref()] throws when [childRef] is a member of
    [Object.prototype], which has no [deref]. *)
Definition derefIsNotAFunction : JsError :=
  TypeError "childRef?.deref is not a function".

(** The methods that may change the tree return their result together
    with the tree they leave, also when they throw. *)

(** [with(properties)] *)
Definition with_ (g : Registry) (this : NodeId) (properties : PropertiesObj)
  : Outcome NodeId * Registry :=
  match heap g !! this with
  | None => (Thrown danglingReference, g)
  | Some nd =>
      let '(g', variant) :=
        newLoggerImpl g (Some this) (category nd) (Some properties) in
      (Normal variant, g')
  end.

(** [getChild(subcategory, properties)].  One unit of fuel is spent per
    call of the method.  [this.children] is an object literal: for a name
    that it inherits from [Object.prototype] and does not hold itself,
    [childRef] is that member, which is neither a [LoggerImpl] nor
    nullish, and the call of its [deref] throws. *)
Fixpoint getChild (fuel : nat) (g : Registry) (this : NodeId)
    (subcategory : MaybeCategory) (properties : Properties)
  : Outcome NodeId * Registry :=
  match fuel with
  | 0 => (OutOfFuel, g)
  | S fuel' =>
      match heap g !! this with
      | None => (Thrown danglingReference, g)
      | Some nd =>
          if negb (truthy subcategory) then
            match properties with
            | Some p => with_ g this p
            | None => (Normal this, g)
            end
          else
            let subcategoryList := getCategoryList subcategory in
            let name := head subcategoryList in
            (* [name] is truthy when it is a non-empty string *)
            match name with
            | Some name0 =>
                if String.eqb name0 "" then
                  (* [child = this] *)
                  if Nat.eqb (length subcategoryList) 1 then (Normal this, g)
                  else getChild fuel' g this
                         (ofList (tail subcategoryList)) None
                else
                  match objectGet (children nd) name0 with
                  | Inherited _ => (Thrown derefIsNotAFunction, g)
                  | Own child =>
                      if Nat.eqb (length subcategoryList) 1
                      then (Normal child, g)
                      else getChild fuel' g child
                             (ofList (tail subcategoryList)) None
                  | Undefined =>
                      let '(g', child) :=
                        newLoggerImpl g (Some this) (category nd ++ [name0])
                                      None in
                      let g1 := setChild g' this name0 child in
                      if Nat.eqb (length subcategoryList) 1
                      then (Normal child, g1)
                      else getChild fuel' g1 child
                             (ofList (tail subcategoryList)) None
                  end
            | None =>
                (* [subcategoryList] is empty: [child = this], and the
                   length is not 1 *)
                getChild fuel' g this (ofList (tail subcategoryList)) None
            end
      end
  end.

(** [static getLogger(category = [])] *)
Definition getLogger (fuel : nat) (g : Registry) (category : MaybeCategory)
  : Outcome NodeId * Registry :=
  let category := match category with CUndefined => CArr [] | c => c end in
  let '(g1, rootLogger) :=
    match globalRootLogger g with
    | Some r => (g, r)
    | None =>
        let '(g', r) := newLoggerImpl g None [] None in
        ({| heap := heap g'; globalRootLogger := Some r |}, r)
    end in
  match category with
  | CNull => (Thrown (TypeError "Cannot read properties of null"), g1)
  | _ =>
      if Nat.eqb (jsLength category) 0 then (Normal rootLogger, g1)
      else getChild fuel g1 rootLogger category None
  end.

(** Direct updates of the configuration lists of a node, as the tests and
    [configure] perform them: [sinks.push], [filters.push],
    [propTransformers.push], and the assignment to [parentSinks]. *)
Definition pushSink (s : SinkId) : Registry -> NodeId -> Registry :=
  updateNode (fun nd =>
    {| parent := parent nd; category := category nd;
       properties := properties nd; children := children nd;
       sinks := sinks nd ++ [s]; parentSinks := parentSinks nd;
       filters := filters nd; propTransformers := propTransformers nd |}).

Definition pushFilter (f : Filter) : Registry -> NodeId -> Registry :=
  updateNode (fun nd =>
    {| parent := parent nd; category := category nd;
       properties := properties nd; children := children nd;
       sinks := sinks nd; parentSinks := parentSinks nd;
       filters := filters nd ++ [f]; propTransformers := propTransformers nd |}).

Definition pushPropTransformer (t : PropertiesTransformer)
  : Registry -> NodeId -> Registry :=
  updateNode (fun nd =>
    {| parent := parent nd; category := category nd;
       properties := properties nd; children := children nd;
       sinks := sinks nd; parentSinks := parentSinks nd;
       filters := filters nd; propTransformers := propTransformers nd ++ [t] |}).

Definition setParentSinks (ps : ParentSinks) : Registry -> NodeId -> Registry :=
  updateNode (fun nd =>
    {| parent := parent nd; category := category nd;
       properties := properties nd; children := children nd;
       sinks := sinks nd; parentSinks := ps;
       filters := filters nd; propTransformers := propTransformers nd |}).

(** [reset()] *)
Definition reset : Registry -> NodeId -> Registry :=
  updateNode (fun nd =>
    {| parent := parent nd; category := category nd;
       properties := properties nd; children := children nd;
       sinks := []; parentSinks := inherit;
       filters := []; propTransformers := [] |}).

(** [*getSinks()]: the sequence the generator yields.  The tree is not
    modified while the sequence is consumed, so it is computed at once. *)
Fixpoint getSinks (fuel : nat) (g : Registry) (this : NodeId)
  : Outcome (list SinkId) :=
  match fuel with
  | 0 => OutOfFuel
  | S fuel' =>
      match heap g !! this with
      | None => Thrown danglingReference
      | Some nd =>
          match parent nd, parentSinks nd with
          | Some p, inherit =>
              match getSinks fuel' g p with
              | Normal inherited => Normal (inherited ++ sinks nd)
              | other => other
              end
          | _, _ => Normal (sinks nd)
          end
      end
  end.

(** The loop of [propTransform] over the transformers of a node:
    [resultRecord = { ...resultRecord, properties: propTransform(resultRecord) }]
    for each of them, until one throws. *)
Fixpoint transformLoop (transformers : list PropertiesTransformer)
    (resultRecord : RawLogRecord) : JsError + RawLogRecord :=
  match transformers with
  | [] => inr resultRecord
  | propTransform :: transformers' =>
      match propTransform resultRecord with
      | inl e => inl e
      | inr properties =>
          transformLoop transformers'
            {| raw_category := raw_category resultRecord;
               raw_level := raw_level resultRecord;
               raw_rawMessage := raw_rawMessage resultRecord;
               raw_timestamp := raw_timestamp resultRecord;
               raw_properties := properties |}
      end
  end.

(** [propTransform(rawRecord)] *)
Fixpoint propTransform (fuel : nat) (g : Registry) (this : NodeId)
    (rawRecord : RawLogRecord) : Outcome Properties :=
  match fuel with
  | 0 => OutOfFuel
  | S fuel' =>
      match heap g !! this with
      | None => Thrown danglingReference
      | Some nd =>
          if Nat.ltb (length (propTransformers nd)) 1 then
            match parent nd with
            | None => Normal (raw_properties rawRecord)
            | Some p =>
                match propTransform fuel' g p rawRecord with
                | Normal None => Normal (raw_properties rawRecord)
                | other => other
                end
            end
          else
            match transformLoop (propTransformers nd) rawRecord with
            | inl e => Thrown e
            | inr resultRecord => Normal (raw_properties resultRecord)
            end
      end
  end.

(** [renderMessage(template, values)] *)
Fixpoint renderMessage (template : list string) (values : list Value)
  : list Value :=
  match template with
  | [] => []
  | t :: template' =>
      VString t ::
        match values with
        | [] => renderMessage template' []
        | v :: values' => v :: renderMessage template' values'
        end
  end.

End Logger.

(** ** logger/logger.ts: records and the emission pipeline *)
Module Emission.
Import Category Filter Logger.

(** The [message] and [rawMessage] fields: plain data, or the pair of
    getters that [logLazily] installs around a user callback. *)
Inductive MessageCell : Type :=
| MsgValue (message : list Value) (rawMessage : RawMessage)
| MsgGetter (callback : CallbackId).

(** The [properties] argument of [_log]: an object, a zero-argument
    function, or nothing. *)
Inductive PropsArg : Type :=
| PropsObject (p : PropertiesObj)
| PropsFunction (callback : CallbackId)
| PropsUndefined.

(** The [properties] field: plain data, or the getter that [_log] installs.
    The getter closes over the logger, the base record and the
    [properties] argument of the call. *)
Inductive PropertiesCell : Type :=
| PropsValue (p : Properties)
| PropsGetter (logger : NodeId) (rawMessage : string) (arg : PropsArg).

Record LogRecord : Type := mkRecord {
  head : RecordHead;
  messageCell : MessageCell;
  propertiesCell : PropertiesCell
}.

(** What an observer of a run can see. *)
Inductive Event : Type :=
| EvFilter (node : NodeId) (index : nat) (r : RecId)
| EvSink (s : SinkId) (r : RecId)
| EvPropertiesCallback (callback : CallbackId)
| EvLogCallback (callback : CallbackId)
| EvGetProperties (r : RecId) (p : Properties)
| EvGetMessage (r : RecId) (m : list Value)
| EvGetRawMessage (r : RecId) (m : RawMessage).

(** The record objects allocated so far and the events so far, oldest
    first. *)
Record World : Type := mkWorld {
  records : list LogRecord;
  trace : list Event
}.

Definition emptyWorld : World := {| records := []; trace := [] |}.

(** The code supplied by the application.
    - [sinkBody s t] is the body of sink [s] when the events so far are [t]:
      a sink may keep state of its own.
    - [propertiesCallback c n] is what the zero-argument properties function
      [c] does at its call number [n] (counting from 0): it returns an
      object, or throws.
    - [logCallback c n] is what the lazy message callback [c] does at its
      call number [n]: [Some (tpl, values)] when it applies the prefix
      function it is given to [tpl] and [values] and returns the result,
      [None] when it returns without applying it.
    - [now n] is the reading of [Date.now()] when [n] records exist. *)
Class UserCode : Type := mkUserCode {
  sinkBody : SinkId -> list Event -> RecordHead -> Reader unit;
  propertiesCallback : CallbackId -> nat -> JsError + PropertiesObj;
  logCallback : CallbackId -> nat -> option (list string * list Value);
  now : nat -> Z
}.

Definition isPropertiesCallback (c : CallbackId) (e : Event) : bool :=
  match e with
  | EvPropertiesCallback c' => Nat.eqb c' c
  | _ => false
  end.

Definition isLogCallback (c : CallbackId) (e : Event) : bool :=
  match e with
  | EvLogCallback c' => Nat.eqb c' c
  | _ => false
  end.

Definition countEvents (p : Event -> bool) (t : list Event) : nat :=
  length (List.filter p t).

Definition logEvent (e : Event) (w : World) : World :=
  {| records := records w; trace := trace w ++ [e] |}.

Definition allocRecord (r : LogRecord) (w : World) : World :=
  {| records := records w ++ [r]; trace := trace w |}.

(** [Object.defineProperty(this, "properties", { value })] *)
Definition defineProperties (rid : RecId) (value : Properties) (w : World)
  : World :=
  {| records :=
       alter (fun r => {| head := head r;
                          messageCell := messageCell r;
                          propertiesCell := PropsValue value |})
             rid (records w);
     trace := trace w |}.

(** [Object.defineProperties(this, { message: ..., rawMessage: ... })] *)
Definition defineMessage (rid : RecId) (msg : list Value) (raw : RawMessage)
    (w : World) : World :=
  {| records :=
       alter (fun r => {| head := head r;
                          messageCell := MsgValue msg raw;
                          propertiesCell := propertiesCell r |})
             rid (records w);
     trace := trace w |}.

Section WithUserCode.
Context `{UserCode}.
Variable g : Registry.

(** Fuel for a walk along [parent] links: in a tree of [length (heap g)]
    nodes no walk makes more calls than that, and one more covers the call
    on a reference that designates nothing. *)
Definition ancestorFuel : nat := S (length (heap g)).

(** [typeof properties === "function" ? properties() : properties] *)
Definition evalPropsArg (arg : PropsArg) (w : World)
  : Outcome Properties * World :=
  match arg with
  | PropsObject p => (Normal (Some p), w)
  | PropsUndefined => (Normal None, w)
  | PropsFunction c =>
      let w1 := logEvent (EvPropertiesCallback c) w in
      match propertiesCallback c
              (countEvents (isPropertiesCallback c) (trace w)) with
      | inl e => (Thrown e, w1)
      | inr p => (Normal (Some p), w1)
      end
  end.

(** The closure [getProperties] of [_log] on the logger [logger], for the
    base record with the head [hd] and the message [rawMessage]. *)
Definition getProperties (logger : NodeId) (nd : LoggerImpl)
    (hd : RecordHead) (rawMessage : string) (arg : PropsArg) (w : World)
  : Outcome Properties * World :=
  match evalPropsArg arg w with
  | (Normal argument, w1) =>
      (propTransform ancestorFuel g logger
         {| raw_category := rcategory hd;
            raw_level := rlevel hd;
            raw_rawMessage := RawString rawMessage;
            raw_timestamp := rtimestamp hd;
            raw_properties := mergeProperties (properties nd) argument |},
       w1)
  | (Thrown e, w1) => (Thrown e, w1)
  | (OutOfFuel, w1) => (OutOfFuel, w1)
  end.

(** Reading [record.properties].  The getter that [_log] installs calls
    [getProperties] and replaces itself by the value only when that
    returns: when the properties function or a transformer throws, the
    exception reaches the reader and the getter stays. *)
Definition readProperties (rid : RecId) (w : World)
  : Outcome Properties * World :=
  match records w !! rid with
  | None => (Thrown danglingReference, w)
  | Some r =>
      match propertiesCell r with
      | PropsValue p => (Normal p, logEvent (EvGetProperties rid p) w)
      | PropsGetter logger rawMessage arg =>
          match heap g !! logger with
          | None => (Thrown danglingReference, w)
          | Some nd =>
              match getProperties logger nd (head r) rawMessage arg w with
              | (Normal value, w1) =>
                  (Normal value,
                   logEvent (EvGetProperties rid value)
                            (defineProperties rid value w1))
              | (Thrown e, w1) => (Thrown e, w1)
              | (OutOfFuel, w1) => (OutOfFuel, w1)
              end
          end
      end
  end.

(** [realizeMessage.call(this)]: both elements of the pair it returns. *)
Definition realizeMessage (rid : RecId) (c : CallbackId) (w : World)
  : Outcome (list Value * RawMessage) * World :=
  let w1 := logEvent (EvLogCallback c) w in
  match logCallback c (countEvents (isLogCallback c) (trace w)) with
  | None => (Thrown (TypeError "No log record was made."), w1)
  | Some (tpl, values) =>
      let msg := renderMessage tpl values in
      (Normal (msg, RawTemplate tpl), defineMessage rid msg (RawTemplate tpl) w1)
  end.

(** Reading [record.message]. *)
Definition readMessage (rid : RecId) (w : World)
  : Outcome (list Value) * World :=
  match records w !! rid with
  | None => (Thrown danglingReference, w)
  | Some r =>
      match messageCell r with
      | MsgValue m _ => (Normal m, logEvent (EvGetMessage rid m) w)
      | MsgGetter c =>
          match realizeMessage rid c w with
          | (Normal (m, _), w') => (Normal m, logEvent (EvGetMessage rid m) w')
          | (Thrown e, w') => (Thrown e, w')
          | (OutOfFuel, w') => (OutOfFuel, w')
          end
      end
  end.

(** Reading [record.rawMessage]. *)
Definition readRawMessage (rid : RecId) (w : World)
  : Outcome RawMessage * World :=
  match records w !! rid with
  | None => (Thrown danglingReference, w)
  | Some r =>
      match messageCell r with
      | MsgValue _ raw => (Normal raw, logEvent (EvGetRawMessage rid raw) w)
      | MsgGetter c =>
          match realizeMessage rid c w with
          | (Normal (_, raw), w') =>
              (Normal raw, logEvent (EvGetRawMessage rid raw) w')
          | (Thrown e, w') => (Thrown e, w')
          | (OutOfFuel, w') => (OutOfFuel, w')
          end
      end
  end.

(** Running user code on the record [rid]. *)
Fixpoint runReader {A : Type} (rid : RecId) (p : Reader A) (w : World)
  : Outcome A * World :=
  match p with
  | Ret a => (Normal a, w)
  | Throw e => (Thrown e, w)
  | GetProperties k =>
      match readProperties rid w with
      | (Normal v, w') => runReader rid (k v) w'
      | (Thrown e, w') => (Thrown e, w')
      | (OutOfFuel, w') => (OutOfFuel, w')
      end
  | GetMessage k =>
      match readMessage rid w with
      | (Normal v, w') => runReader rid (k v) w'
      | (Thrown e, w') => (Thrown e, w')
      | (OutOfFuel, w') => (OutOfFuel, w')
      end
  | GetRawMessage k =>
      match readRawMessage rid w with
      | (Normal v, w') => runReader rid (k v) w'
      | (Thrown e, w') => (Thrown e, w')
      | (OutOfFuel, w') => (OutOfFuel, w')
      end
  end.

(** Applying a function to the record [rid]. *)
Definition callOn {A : Type} (body : RecordHead -> Reader A) (rid : RecId)
    (w : World) : Outcome A * World :=
  match records w !! rid with
  | None => (Thrown danglingReference, w)
  | Some r => runReader rid (body (head r)) w
  end.

(** [filter(record)] of filter number [index] of node [this]. *)
Definition callFilter (this : NodeId) (index : nat) (f : Filter) (rid : RecId)
    (w : World) : Outcome bool * World :=
  callOn f rid (logEvent (EvFilter this index rid) w).

(** [sink(record)] *)
Definition callSink (sink : SinkId) (rid : RecId) (w : World)
  : Outcome unit * World :=
  callOn (sinkBody sink (trace w)) rid (logEvent (EvSink sink rid) w).

(** [for (const filter of this.filters) if (!filter(record)) return false;]
    with [Normal true] when the loop runs to its end. *)
Fixpoint filterLoop (this : NodeId) (index : nat) (fs : list Filter)
    (rid : RecId) (w : World) : Outcome bool * World :=
  match fs with
  | [] => (Normal true, w)
  | f :: fs' =>
      match callFilter this index f rid w with
      | (Normal true, w') => filterLoop this (S index) fs' rid w'
      | other => other
      end
  end.

(** [filter(record)] of a logger. *)
Fixpoint filter (fuel : nat) (this : NodeId) (rid : RecId) (w : World)
  : Outcome bool * World :=
  match fuel with
  | 0 => (OutOfFuel, w)
  | S fuel' =>
      match heap g !! this with
      | None => (Thrown danglingReference, w)
      | Some nd =>
          match filterLoop this 0 (filters nd) rid w with
          | (Normal true, w') =>
              if Nat.ltb (length (filters nd)) 1 then
                match parent nd with
                | Some p => filter fuel' p rid w'
                | None => (Normal true, w')
                end
              else (Normal true, w')
          | other => other
          end
      end
  end.

(** [bypassSinks?.has(sink)] *)
Definition hasSink (bypassSinks : option (gset SinkId)) (sink : SinkId)
  : bool :=
  match bypassSinks with
  | Some b => bool_decide (sink ∈ b)
  | None => false
  end.

(** [new Set(bypassSinks)] followed by [add(sink)] *)
Definition addSink (bypassSinks : option (gset SinkId)) (sink : SinkId)
  : gset SinkId :=
  default ∅ bypassSinks ∪ {[sink]}.

(** The record that [_log] builds. *)
Definition eagerRecord (nd : LoggerImpl) (this : NodeId) (level : string)
    (rawMessage : string) (properties : PropsArg) (w : World) : LogRecord :=
  {| head := {| rcategory := category nd;
                rlevel := level;
                rtimestamp := now (length (records w)) |};
     messageCell := MsgValue [VString rawMessage] (RawString rawMessage);
     propertiesCell := PropsGetter this rawMessage properties |}.

(** The body of [_log], given the [emit] it calls. *)
Definition logWith
    (emit : NodeId -> RecId -> option (gset SinkId) -> World ->
            Outcome unit * World)
    (this : NodeId) (level : string) (rawMessage : string)
    (properties : PropsArg) (bypassSinks : option (gset SinkId)) (w : World)
  : Outcome unit * World :=
  match heap g !! this with
  | None => (Thrown danglingReference, w)
  | Some nd =>
      emit this (length (records w)) bypassSinks
           (allocRecord (eagerRecord nd this level rawMessage properties w) w)
  end.

(** The properties of the record that reports a failed sink:
    [{ sink, error, record }]. *)
Definition failureProperties (sink : SinkId) (error : JsError) (rid : RecId)
  : PropertiesObj :=
  <["sink" := VSink sink]>
    (<["error" := VError error]> (<["record" := VRecord rid]> ∅)).

(** The loop of [emit] over the sinks, given what the [catch] block calls. *)
Fixpoint dispatch
    (logMeta : PropsArg -> option (gset SinkId) -> World ->
               Outcome unit * World)
    (rid : RecId) (bypassSinks : option (gset SinkId)) (sinks : list SinkId)
    (w : World) : Outcome unit * World :=
  match sinks with
  | [] => (Normal tt, w)
  | sink :: rest =>
      if hasSink bypassSinks sink then
        dispatch logMeta rid bypassSinks rest w
      else
        match callSink sink rid w with
        | (Normal _, w') => dispatch logMeta rid bypassSinks rest w'
        | (Thrown error, w') =>
            let bypassSinks2 := addSink bypassSinks sink in
            match logMeta (PropsObject (failureProperties sink error rid))
                          (Some bypassSinks2) w' with
            | (Normal _, w'') => dispatch logMeta rid bypassSinks rest w''
            | other => other
            end
        | (OutOfFuel, w') => (OutOfFuel, w')
        end
  end.

Variable metaLogger : NodeId.

(** [emit(record, bypassSinks)].  One unit of fuel is spent per nesting
    level of meta logging. *)
Fixpoint emit (fuel : nat) (this : NodeId) (rid : RecId)
    (bypassSinks : option (gset SinkId)) (w : World) : Outcome unit * World :=
  match fuel with
  | 0 => (OutOfFuel, w)
  | S fuel' =>
      match filter ancestorFuel this rid w with
      | (Normal true, w1) =>
          match getSinks ancestorFuel g this with
          | Normal sinks =>
              dispatch
                (logWith (emit fuel') metaLogger "fatal"
                         "Failed to emit a log record to sink")
                rid bypassSinks sinks w1
          | Thrown e => (Thrown e, w1)
          | OutOfFuel => (OutOfFuel, w1)
          end
      | (Normal false, w1) => (Normal tt, w1)
      | (Thrown e, w1) => (Thrown e, w1)
      | (OutOfFuel, w1) => (OutOfFuel, w1)
      end
  end.

(** [_log(level, rawMessage, properties, bypassSinks)] *)
Definition _log (fuel : nat) : NodeId -> string -> string -> PropsArg ->
    option (gset SinkId) -> World -> Outcome unit * World :=
  logWith (emit fuel).

(** [logLazily(level, callback, properties = {})] *)
Definition logLazily (fuel : nat) (this : NodeId) (level : string)
    (callback : CallbackId) (properties : option PropertiesObj) (w : World)
  : Outcome unit * World :=
  match heap g !! this with
  | None => (Thrown danglingReference, w)
  | Some nd =>
      let record :=
        {| head := {| rcategory := category nd;
                      rlevel := level;
                      rtimestamp := now (length (records w)) |};
           messageCell := MsgGetter callback;
           propertiesCell :=
             PropsValue (mergeProperties (Logger.properties nd)
                                         (Some (default ∅ properties))) |} in
      emit fuel this (length (records w)) None (allocRecord record w)
  end.

(** [logTemplate(level, messageTemplate, values, properties = {})] *)
Definition logTemplate (fuel : nat) (this : NodeId) (level : string)
    (messageTemplate : list string) (values : list Value)
    (properties : option PropertiesObj) (w : World) : Outcome unit * World :=
  match heap g !! this with
  | None => (Thrown danglingReference, w)
  | Some nd =>
      let record :=
        {| head := {| rcategory := category nd;
                      rlevel := level;
                      rtimestamp := now (length (records w)) |};
           messageCell :=
             MsgValue (renderMessage messageTemplate values)
                      (RawTemplate messageTemplate);
           propertiesCell :=
             PropsValue (mergeProperties (Logger.properties nd)
                                         (Some (default ∅ properties))) |} in
      emit fuel this (length (records w)) None (allocRecord record w)
  end.

(** The shapes of a call of [log(level, message, ...values)]: a string with
    [values[0]] as its properties, a callback, or a template with its
    values. *)
Inductive LogCall : Type :=
| LogString (message : string) (properties : PropsArg)
| LogLazy (callback : CallbackId)
| LogTemplate (messageTemplate : list string) (values : list Value).

(** [log(level, message, ...values)] *)
Definition log (fuel : nat) (this : NodeId) (level : string) (call : LogCall)
    (w : World) : Outcome unit * World :=
  match call with
  | LogString message properties =>
      _log fuel this level message properties None w
  | LogLazy callback => logLazily fuel this level callback None w
  | LogTemplate messageTemplate values =>
      logTemplate fuel this level messageTemplate values None w
  end.

End WithUserCode.

End Emission.

(** ** Concrete configurations used in examples *)
Module Examples.
Import Category Filter Logger Emission.

(** Application code with three sinks: sink 0 reads the properties of the
    record it is given and returns, sink 1 always throws, and every other
    sink returns without looking at the record.  The properties callback
    returns [{ foo: 123 }], the lazy message callback applies its prefix
    function to the template [Hello, ${123}!]. *)
#[local] Instance exampleCode : UserCode :=
  {| sinkBody s _ _ :=
       match s with
       | 0 => GetProperties (fun _ => Ret tt)
       | 1 => Throw (OtherError 0)
       | _ => Ret tt
       end;
     propertiesCallback _ _ := inr {["foo" := VNumber 123]};
     logCallback _ _ := Some (["Hello, "; "!"], [VNumber 123]);
     now n := (1700000000000 + Z.of_nat n)%Z |}.

(** The same application code, except that the properties callback throws
    at its first call and returns [{ foo: 123 }] from the second call on. *)
#[local] Instance flakyCode : UserCode :=
  {| sinkBody := @sinkBody exampleCode;
     propertiesCallback _ n :=
       if Nat.ltb n 1 then inl (OtherError 1)
       else inr {["foo" := VNumber 123]};
     logCallback := @logCallback exampleCode;
     now := @now exampleCode |}.

(** The registry once [logger.ts] is loaded: the root, [logtape] and the
    meta logger [logtape.meta], which is node 2. *)
Definition loadedRegistry : Registry :=
  (getLogger 2 emptyRegistry (CArr [CStr "logtape"; CStr "meta"])).2.

Definition metaLogger : NodeId := 2.

(** [loadedRegistry] with a logger [foo], which is node 3. *)
Definition fooRegistry : Registry :=
  (getLogger 1 loadedRegistry (CStr "foo")).2.

Definition foo : NodeId := 3.

(** Sinks 0 and 1 on the root, sink 1 on [foo]. *)
Definition failingRegistry : Registry :=
  pushSink 1 (pushSink 1 (pushSink 0 fooRegistry 0) 0) foo.

(** Sink 0, which reads the properties, on [foo]. *)
Definition readingRegistry : Registry := pushSink 0 fooRegistry foo.

(** Sink 2, which does not read the properties, on [foo]. *)
Definition silentRegistry : Registry := pushSink 2 fooRegistry foo.

(** Sink 0, which reads the properties, on [foo], and a transformer on
    [foo] that adds [tr: true]. *)
Definition transformingRegistry : Registry :=
  pushPropTransformer
    (fun raw =>
       inr (Some (<["tr" := VBool true]> (default ∅ (raw_properties raw)))))
    (pushSink 0 fooRegistry foo) foo.

(** Sinks 0 twice on [foo], and a filter on [foo] that accepts. *)
Definition filteredRegistry : Registry :=
  pushFilter (fun _ => Ret true)
    (pushSink 0 (pushSink 0 fooRegistry foo) foo) foo.

(** A filter on [foo] that rejects the records without properties, after
    reading them. *)
Definition readingFilterRegistry : Registry :=
  pushFilter (fun _ => GetProperties (fun p =>
                         Ret (match p with Some _ => false | None => true end)))
    (pushSink 0 fooRegistry foo) foo.

(** A plain record, as the fixtures of the tests are. *)
Definition fixture (lvl : string) : LogRecord :=
  {| head := {| rcategory := ["my-app"; "junk"];
                rlevel := lvl;
                rtimestamp := 1700000000000 |};
     messageCell := MsgValue [VString "Hello, "; VNumber 123; VString " & ";
                              VNumber 456; VString "!"]
                             (RawString "Hello, {a} & {b}!");
     propertiesCell := PropsValue (Some ∅) |}.

End Examples.

(** ** The rotating file sink *)
Module RotatingFileSink.

(** Modelled from the spec: the file system the rotating file sink works
    on.  The implementation of the sink ([filesink.base.ts] and the drivers
    [filesink.deno.ts], [filesink.node.ts] that [filesink.test.ts] imports)
    is not among the sources, so the sink below follows sections 4.4 and 6
    of the specification.  A file system maps a path to the bytes of the
    file at that path. *)
Abbreviation FileSystem := (gmap string string) (only parsing).

(** Modelled from the spec: the state of the sink, absent from the sources
    like the rest of [filesink.base.ts]: the path [P] of the current file,
    the byte threshold, the rotation depth ([None] when unbounded) and the
    tracked size counter of the current file. *)
Record State : Type := {
  path : string;
  maxFileSize : nat;
  maxFiles : option nat;
  currentSize : nat
}.

(** Modelled from the spec: the update of the tracked size counter of the
    missing sink. *)
Definition setSize (n : nat) (sink : State) : State :=
  {| path := path sink;
     maxFileSize := maxFileSize sink;
     maxFiles := maxFiles sink;
     currentSize := n |}.

(** Modelled from the spec: the on-disk layout of section 6, rotated files
    at [P.1], [P.2], ...; the missing sink builds these paths. *)
Definition rotatedPath (P : string) (k : nat) : string :=
  P +:+ "." +:+ pretty k.

(** Modelled from the spec: the rename of the missing sink's rotation; as
    on a POSIX file system the file at the destination is replaced. *)
Definition rename (src dst : string) (fs : FileSystem) : FileSystem :=
  match fs !! src with
  | Some content => <[dst := content]> (delete src fs)
  | None => fs
  end.

(** Modelled from the spec: the search of the missing sink for the highest
    existing index.  The sink creates [P.1], [P.2], ... without gaps, so
    the search walks up from [P.1] while the file exists; at most
    [size fs] files exist. *)
Fixpoint countRotated (P : string) (fs : FileSystem) (fuel k : nat) : nat :=
  match fuel with
  | O => k
  | S fuel' =>
      match fs !! rotatedPath P (S k) with
      | Some _ => countRotated P fs fuel' (S k)
      | None => k
      end
  end.

(** Modelled from the spec: the highest existing index of the missing sink's
    rotation, 0 when there is no rotated file. *)
Definition highestIndex (P : string) (fs : FileSystem) : nat :=
  countRotated P fs (size fs) 0.

(** Modelled from the spec: the rename chain of the missing sink, [P.k] to
    [P.(k+1)] from index [k] down to 1.  The expectation of
    [filesink.test.ts] that the second rotation leaves the first two lines
    in [P.2] fixes the reading of the sentence: the file at the highest
    existing index moves one index up. *)
Fixpoint cascade (P : string) (k : nat) (fs : FileSystem) : FileSystem :=
  match k with
  | O => fs
  | S k' => cascade P k' (rename (rotatedPath P k) (rotatedPath P (S k)) fs)
  end.

(** Modelled from the spec: the index the chain of the missing sink starts
    from.  Without a limit it is the highest existing index; with a limit
    [n] the file at [P.n] is not renamed further, the rename of [P.(n-1)]
    replaces it. *)
Definition firstShifted (sink : State) (fs : FileSystem) : nat :=
  match maxFiles sink with
  | None => highestIndex (path sink) fs
  | Some n => Nat.min (highestIndex (path sink) fs) (n - 1)
  end.

(** Modelled from the spec: the rotation of the missing sink (step 2 of
    [write]): the rename chain, then [P] to [P.1], then a fresh empty [P]. *)
Definition rotate (sink : State) (fs : FileSystem) : FileSystem :=
  let P := path sink in
  let fs1 := cascade P (firstShifted sink fs) fs in
  let fs2 := rename P (rotatedPath P 1) fs1 in
  <[P := ""]> fs2.

(** Modelled from the spec: the synchronous append of the missing sink
    (step 3 of [write]). *)
Definition appendFile (P chunk : string) (fs : FileSystem) : FileSystem :=
  <[P := default "" (fs !! P) +:+ chunk]> fs.

(** Modelled from the spec: the condition of step 2 of the missing sink's
    [write]: the current size plus the chunk size exceeds the threshold and
    the current file is not empty. *)
Definition overflows (sink : State) (chunk : string) : bool :=
  Nat.ltb (maxFileSize sink) (currentSize sink + String.length chunk)
  && Nat.ltb 0 (currentSize sink).

Section WithFormatter.
Context {Record_ : Type} (formatter : Record_ -> string).

(** Modelled from the spec: [write(record)] of the missing sink, steps 1 to
    3 of section 4.4. *)
Definition write (sink : State) (fs : FileSystem) (record : Record_)
    : State * FileSystem :=
  let chunk := formatter record in
  let '(sink1, fs1) :=
    if overflows sink chunk
    then (setSize 0 sink, rotate sink fs)
    else (sink, fs) in
  (setSize (currentSize sink1 + String.length chunk) sink1,
   appendFile (path sink1) chunk fs1).

(** Modelled from the spec: successive [write] calls on the missing sink. *)
Definition writeAll (sink : State) (fs : FileSystem)
    (records : list Record_) : State * FileSystem :=
  foldl (fun st record => write st.1 st.2 record) (sink, fs) records.

End WithFormatter.

(** Modelled from the spec: [getRotatingFileSink(path, {maxSize, maxFiles})]
    as [filesink.test.ts] calls it; the sink is missing from the sources.
    The size counter starts at the size of the file found at [path], which
    is created empty when absent. *)
Definition getRotatingFileSink (P : string) (maxSize : nat)
    (limit : option nat) (fs : FileSystem) : State * FileSystem :=
  let content := default "" (fs !! P) in
  ({| path := P;
      maxFileSize := maxSize;
      maxFiles := limit;
      currentSize := String.length content |},
   <[P := content]> fs).

End RotatingFileSink.

(** ** The scenario of the rotating file sink's test *)
Module RotatingFileSinkExamples.
Import RotatingFileSink.

(** The line terminator, and the separator of category segments in the
    default text rendering: a middle dot, two bytes in UTF-8. *)
Definition newline : string := String (Ascii.ascii_of_nat 10) "".

Definition middleDot : string :=
  String (Ascii.ascii_of_nat 194) (String (Ascii.ascii_of_nat 183) "").

(** The line that [filesink.test.ts] expects for the fixture record of a
    level, given the level's abbreviation (time zone offset [+00]). *)
Definition expectedLine (abbreviation : string) : string :=
  "2023-11-14 22:13:20.000 +00:00 [" +:+ abbreviation +:+ "] my-app"
  +:+ middleDot +:+ "junk: Hello, 123 & 456!" +:+ newline.

(** The records the test writes in turn: [debug], [info], [warning],
    [error], [critical], [fatal]. *)
Definition fixtures : list string :=
  ["DBG"; "INF"; "WRN"; "ERR"; "CRT"; "FTL"].

Definition logPath : string := "app.log".

(** [getRotatingFileSink(path, { maxSize: 150 })] on the empty temporary
    file the test creates. *)
Definition opened : State * FileSystem :=
  getRotatingFileSink logPath 150 None {[logPath := ""]}.

(** The files after the first [n] writes of the test. *)
Definition filesAfter (n : nat) : FileSystem :=
  (writeAll expectedLine opened.1 opened.2 (take n fixtures)).2.

(** The sink after the first two writes of the test: 138 bytes in the
    current file. *)
Definition overflowing : State :=
  {| path := logPath;
     maxFileSize := 150;
     maxFiles := None;
     currentSize := 138 |}.

End RotatingFileSinkExamples.

(** ** logger/logger.ts: resetting a subtree *)
Module Reset.
Import Logger.

(** [Object.values(this.children)].  The loop of [resetDescendants] over
    these values only resets nodes, and the visits of different children do
    not influence each other, so the order in which the table lists its
    entries does not show in the result. *)
Definition objectValues (children : gmap string NodeId) : list NodeId :=
  (map_to_list children).*2.

(** [resetDescendants()].  One unit of fuel is spent per nesting level of
    the recursion. *)
Fixpoint resetDescendants (fuel : nat) (g : Registry) (this : NodeId)
  : Outcome Registry :=
  match fuel with
  | 0 => OutOfFuel
  | S fuel' =>
      match heap g !! this with
      | None => Thrown danglingReference
      | Some nd =>
          match
            foldl (fun acc child =>
                     match acc with
                     | Normal g' => resetDescendants fuel' g' child
                     | other => other
                     end)
                  (Normal g) (objectValues (children nd))
          with
          | Normal g' => Normal (reset g' this)
          | other => other
          end
      end
  end.

End Reset.

(** ** formatter.ts, utils.ts *)
Module Formatter.

(** A JavaScript string is a sequence of UTF-16 code units; a [string] here
    holds one code unit per character, which covers the code units below
    256, among them every one that the formatter itself writes. *)

(** The separator ["·"] (also written ["\xb7"]) and the line terminator. *)
Definition middleDot : string := String (Ascii.ascii_of_nat 183) "".

Definition newline : string := String (Ascii.ascii_of_nat 10) "".

(** [str.slice(0, n)] for [0 <= n] *)
Fixpoint sliceTo (n : nat) (s : string) : string :=
  match n, s with
  | S n', String c s' => String c (sliceTo n' s')
  | _, _ => ""
  end.

(** [str.slice(n)] for [0 <= n] *)
Fixpoint sliceFrom (n : nat) (s : string) : string :=
  match n, s with
  | S n', String _ s' => sliceFrom n' s'
  | _, _ => s
  end.

(** [str.slice(0, -1)] *)
Definition dropLast (s : string) : string :=
  sliceTo (String.length s - 1) s.

(** [str.substring(start, end)] for [0 <= start <= end] *)
Definition substring (start end_ : nat) (s : string) : string :=
  sliceTo (end_ - start) (sliceFrom start s).

(** [str.charAt(0)] *)
Definition charAt0 (s : string) : string :=
  match s with
  | "" => ""
  | String c _ => String c ""
  end.

(** [str.indexOf(search)], [None] standing for [-1]. *)
Fixpoint indexOf (search s : string) : option nat :=
  if String.prefix search s then Some 0
  else match s with
       | "" => None
       | String _ s' => S <$> indexOf search s'
       end.

(** [str.replace(search, replacement)] for a string [search] and a
    [replacement] without [$]: the first occurrence is replaced. *)
Definition replaceFirst (search replacement s : string) : string :=
  match indexOf search s with
  | Some index =>
      sliceTo index s +:+ replacement
      +:+ sliceFrom (index + String.length search) s
  | None => s
  end.

(** [array.join(separator)] of an array of strings *)
Fixpoint join (separator : string) (l : list string) : string :=
  match l with
  | [] => ""
  | [x] => x
  | x :: rest => x +:+ separator +:+ join separator rest
  end.

(** The own entries of an object literal, or [new Map(entries)], with
    string keys: a later entry replaces an earlier one. *)
Definition tableOf {V : Type} (entries : list (string * V)) : gmap string V :=
  foldl (fun m e => <[e.1 := e.2]> m) ∅ entries.

(** The own entries of the object literal [levelAbbreviations]; the code
    reads it as [levelAbbreviations[level]], which is [objectGet]. *)
Definition levelAbbreviations : gmap string string :=
  tableOf [("debug", "DBG"); ("info", "INF"); ("warning", "WRN");
           ("error", "ERR"); ("critical", "CRT"); ("fatal", "FTL")].

Definition splitStringGetLeft (str char : string) : string :=
  match indexOf char str with
  | None => str
  | Some index => sliceTo index str
  end.

Definition splitStringGetRight (str char : string) : string :=
  match indexOf char str with
  | None => str
  | Some index => sliceFrom (index + 1) str
  end.

Definition getTimeFromDateString (dateStr : string) : string :=
  splitStringGetRight dateStr "T".

Definition getDateFromDateString (dateStr : string) : string :=
  splitStringGetLeft dateStr "T".

(** utils.ts: [getFunction(value)]; [None] is [undefined], a value is a
    function already or is wrapped into the constant function. *)
Definition getFunction {A B : Type} (value : option (B + (A -> B)))
  : option (A -> B) :=
  match value with
  | None => None
  | Some (inr f) => Some f
  | Some (inl v) => Some (fun _ => v)
  end.

(** What [inspect] is applied to: a value of a message, or the
    [properties] of a record. *)
Inductive Inspected : Type :=
| InspectValue (v : Value)
| InspectProperties (p : gmap string Value).

Definition inspectedProperties (p : Properties) : Inspected :=
  match p with
  | Some o => InspectProperties o
  | None => InspectValue VUndefined
  end.

(** [FormattedValues] without its [record] field, which is passed along.
    [level] is what the level renderer returned: a string, or what
    [levelAbbreviations[level]] is for a level without abbreviation. *)
Record FormattedValues : Type := mkFormattedValues {
  fv_timestamp : string;
  fv_level : Lookup string;
  fv_category : string;
  fv_message : string
}.

(** The options: a name of the table, or a function of the caller. *)
Inductive TimestampOption : Type :=
| TsNamed (name : string)
| TsFunction (f : Z -> JsError + string).

Inductive LevelOption : Type :=
| LvNamed (name : string)
| LvFunction (f : string -> JsError + string).

Inductive CategoryOption : Type :=
| CatSeparator (separator : string)
| CatFunction (f : list string -> JsError + string).

(** A function applied to what a computation on a record returns. *)
Fixpoint mapReader {A B : Type} (f : A -> B) (p : Reader A) : Reader B :=
  match p with
  | Ret a => Ret (f a)
  | Throw e => Throw e
  | GetProperties k => GetProperties (fun v => mapReader f (k v))
  | GetMessage k => GetMessage (fun v => mapReader f (k v))
  | GetRawMessage k => GetRawMessage (fun v => mapReader f (k v))
  end.

(** A computation on a record followed by another. *)
Fixpoint bindReader {A B : Type} (p : Reader A) (k : A -> Reader B)
  : Reader B :=
  match p with
  | Ret a => k a
  | Throw e => Throw e
  | GetProperties k' => GetProperties (fun v => bindReader (k' v) k)
  | GetMessage k' => GetMessage (fun v => bindReader (k' v) k)
  | GetRawMessage k' => GetRawMessage (fun v => bindReader (k' v) k)
  end.

(** A step that may throw, followed by the rest of the function. *)
Definition andThen {A B : Type} (x : JsError + A) (k : A -> Reader B)
  : Reader B :=
  match x with
  | inl e => Throw e
  | inr a => k a
  end.

Section WithRuntime.

(** What the formatter takes from its environment: [new
    Date(ts).toISOString()], which throws for a time value out of range;
    the constant [tzOffset], computed from the time zone of the host when
    the module is loaded; [toUpperCase] and [toLowerCase] of strings;
    [String(value)] of a value that is not a string, and of the member of
    [Object.prototype] of a given name, whose text the engine chooses; and
    [inspect] of [inspect.ts] with its configuration, which is not
    embedded. *)
Variable toISOString : Z -> JsError + string.
Variable tzOffset : string.
Variable toUpperCase toLowerCase : string -> string.
Variable stringOfValue : Value -> string.
Variable stringOfMember : string -> string.
Variable InspectConfig : Type.
Variable inspect : Inspected -> option InspectConfig -> string.

(** The interpolation [${value}] of what a table holds under a key. *)
Definition interpolate (value : Lookup string) : string :=
  match value with
  | Own s => s
  | Inherited name => stringOfMember name
  | Undefined => "undefined"
  end.

Definition timezoneOffset : string := tzOffset +:+ ":00".

Definition getDateIsoString (ts : Z) : JsError + string := toISOString ts.

(** [f(getDateIsoString(ts))] *)
Definition onIsoString (f : string -> string) (ts : Z) : JsError + string :=
  match getDateIsoString ts with
  | inl e => inl e
  | inr iso => inr (f iso)
  end.

Definition textFormatterTimestampsMap : gmap string (Z -> JsError + string) :=
  tableOf
    [("date-time-timezone",
      onIsoString (fun iso => dropLast (replaceFirst "T" " " iso)
                              +:+ " " +:+ timezoneOffset));
     ("date-time-tz",
      onIsoString (fun iso => dropLast (replaceFirst "T" " " iso)
                              +:+ " " +:+ tzOffset));
     ("date-time",
      onIsoString (fun iso => dropLast (replaceFirst "T" " " iso)));
     ("time-timezone",
      onIsoString (fun iso => dropLast (getTimeFromDateString iso)
                              +:+ " " +:+ timezoneOffset));
     ("time-tz",
      onIsoString (fun iso => dropLast (getTimeFromDateString iso)
                              +:+ " " +:+ tzOffset));
     ("time", onIsoString (fun iso => dropLast (getTimeFromDateString iso)));
     ("date", onIsoString getDateFromDateString);
     ("rfc3339", onIsoString (fun iso => iso))].

(** [levelAbbreviations] is an object literal.
    [levelAbbreviations[level].toLowerCase()] throws when the level has no
    abbreviation: [undefined] has no properties, and a member of
    [Object.prototype] has no [toLowerCase]. *)
Definition textFormatterLevelsMap
  : gmap string (string -> JsError + Lookup string) :=
  tableOf
    [("ABBR", fun level => inr (objectGet levelAbbreviations level));
     ("abbr", fun level =>
        match objectGet levelAbbreviations level with
        | Own abbreviation => inr (Own (toLowerCase abbreviation))
        | Inherited _ =>
            inl (TypeError
                   "levelAbbreviations[level].toLowerCase is not a function")
        | Undefined =>
            inl (TypeError "Cannot read properties of undefined")
        end);
     ("FULL", fun level => inr (Own (toUpperCase level)));
     ("full", fun level => inr (Own level));
     ("L", fun level => inr (Own (toUpperCase (charAt0 level))));
     ("l", fun level => inr (Own (charAt0 level)))].

Record TextFormatterOptions : Type := mkTextFormatterOptions {
  o_timestamp : option TimestampOption;
  o_level : option LevelOption;
  o_category : option CategoryOption;
  o_value : option (Value -> JsError + string);
  o_format : option (FormattedValues -> RecordHead -> Reader string);
  o_inspectConfig : option InspectConfig
}.

(** [getTextFormatter()] is called without options. *)
Definition noOptions : TextFormatterOptions :=
  {| o_timestamp := None; o_level := None; o_category := None;
     o_value := None; o_format := None; o_inspectConfig := None |}.

(** [msg + part] for a part of a message *)
Definition appendPart (msg : string) (part : Value) : string :=
  match part with
  | VString s => msg +:+ s
  | _ => msg +:+ stringOfValue part
  end.

(** [record.message.reduce((msg, part, i) => msg + (i % 2 === 0 ? part :
    valueRenderer(part)), "")] *)
Definition reduceMessage (valueRenderer : Value -> JsError + string)
    (message : list Value) : JsError + string :=
  foldl (fun acc entry =>
           match acc with
           | inl e => inl e
           | inr msg =>
               if Nat.even entry.1 then inr (appendPart msg entry.2)
               else match valueRenderer entry.2 with
                    | inl e => inl e
                    | inr rendered => inr (msg +:+ rendered)
                    end
           end)
        (inr "") (imap (fun i part => (i, part)) message).

(** The [format] used when the options give none. *)
Definition defaultFormat (inspectConfig : option InspectConfig)
    (values : FormattedValues) (record : RecordHead) : Reader string :=
  let line :=
    fv_timestamp values +:+ " [" +:+ interpolate (fv_level values) +:+ "] "
    +:+ fv_category values +:+ ": " +:+ fv_message values in
  GetMessage (fun message =>
    if Nat.eqb (length message) 1 then
      GetProperties (fun properties =>
        Ret (line +:+ " "
             +:+ inspect (inspectedProperties properties) inspectConfig))
    else Ret line).

(** [getTextFormatter(options)]: the formatter it returns, applied to a
    record. *)
Definition getTextFormatter (options : TextFormatterOptions)
    (record : RecordHead) : Reader string :=
  let timestampRenderer :=
    match o_timestamp options with
    | Some (TsFunction f) => Some f
    | Some (TsNamed name) => textFormatterTimestampsMap !! name
    | None => textFormatterTimestampsMap !! "date-time-timezone"
    end in
  let levelRenderer :=
    match o_level options with
    | Some (LvFunction f) =>
        Some (fun level => match f level with
                           | inl e => inl e
                           | inr s => inr (Own s)
                           end)
    | Some (LvNamed name) => textFormatterLevelsMap !! name
    | None => textFormatterLevelsMap !! "ABBR"
    end in
  let categorySeparator :=
    match o_category options with
    | Some (CatFunction f) => f
    | Some (CatSeparator separator) => fun category => inr (join separator category)
    | None => fun category => inr (join middleDot category)
    end in
  let valueRenderer :=
    match o_value options with
    | Some f => f
    | None => fun value => inr (inspect (InspectValue value) None)
    end in
  let formatter :=
    match o_format options with
    | Some f => f
    | None => defaultFormat (o_inspectConfig options)
    end in
  match timestampRenderer with
  | None => Throw (TypeError "timestampRenderer is not a function")
  | Some timestampRenderer =>
      andThen (timestampRenderer (rtimestamp record)) (fun timestamp =>
      match levelRenderer with
      | None => Throw (TypeError "levelRenderer is not a function")
      | Some levelRenderer =>
          andThen (levelRenderer (rlevel record)) (fun level =>
          andThen (categorySeparator (rcategory record)) (fun category =>
          GetMessage (fun message =>
          andThen (reduceMessage valueRenderer message) (fun message =>
          let values :=
            {| fv_timestamp := timestamp; fv_level := level;
               fv_category := category; fv_message := message |} in
          mapReader (fun line => line +:+ newline)
                    (formatter values record)))))
      end)
  end.

Definition defaultTextFormatter : RecordHead -> Reader string :=
  getTextFormatter noOptions.

(** The own entries of the object literal [logLevelStyles]. *)
Definition logLevelStyles : gmap string string :=
  tableOf
    [("debug", "background-color: gray; color: white;");
     ("info", "background-color: white; color: black;");
     ("warning", "background-color: orange; color: black;");
     ("error", "background-color: red; color: white;");
     ("critical", "background-color: darkred; color: white;");
     ("fatal", "background-color: maroon; color: white;")].

(** An element of the array that a console formatter returns: a string, a
    value of the message, the properties of the record, or the member of
    [Object.prototype] of a given name. *)
Inductive ConsoleArg : Type :=
| ConsoleString (s : string)
| ConsoleValue (v : Value)
| ConsoleProperties (p : gmap string Value)
| ConsoleMember (name : string).

(** An element of [array.join("")]: [null] and [undefined] give the empty
    string. *)
Definition joinPart (v : Value) : string :=
  match v with
  | VString s => s
  | VUndefined | VNull => ""
  | _ => stringOfValue v
  end.

(** [message.map((m, i) => (i % 2 === 0 ? m : "%o")).join("")] *)
Definition placeholders (message : list Value) : string :=
  join "" (imap (fun i m => if Nat.even i then joinPart m else "%o") message).

(** [message.filter((_, i) => i % 2 !== 0)] *)
Definition oddParts (message : list Value) : list Value :=
  omap (fun entry => if Nat.even entry.1 then None else Some entry.2)
       (imap (fun i m => (i, m)) message).

(** [getDefaultConsoleFormatter(options)]: the formatter it returns,
    applied to a record.  The option [shouldPrintProperties] is a boolean
    or a function of the record. *)
Definition getDefaultConsoleFormatter
    (shouldPrintPropertiesOption :
       option (bool + (RecordHead -> Reader bool)))
    (record : RecordHead) : Reader (list ConsoleArg) :=
  GetMessage (fun message =>
  GetProperties (fun properties =>
  let shouldPrintProperties :=
    match getFunction
            (match shouldPrintPropertiesOption with
             | None => None
             | Some (inl b) => Some (inl (Ret b))
             | Some (inr f) => Some (inr f)
             end) with
    | Some f => f
    | None => fun _ => GetMessage (fun message =>
                         Ret (Nat.eqb (length message) 1))
    end in
  andThen (toISOString (rtimestamp record)) (fun iso =>
  let time := substring 11 23 iso in
  let msg := placeholders message in
  let values := oddParts message in
  let format :=
    "%c" +:+ time +:+ " %c"
    +:+ interpolate (objectGet levelAbbreviations (rlevel record))
    +:+ "%c %c" +:+ join middleDot (rcategory record) +:+ " %c" +:+ msg in
  let style :=
    match objectGet logLevelStyles (rlevel record) with
    | Own s => ConsoleString s
    | Inherited name => ConsoleMember name
    | Undefined => ConsoleValue VUndefined
    end in
  bindReader (shouldPrintProperties record) (fun shouldPrint =>
  Ret ([ConsoleString format; ConsoleString "color: gray;"; style;
        ConsoleString "background-color: default;";
        ConsoleString "color: gray;"; ConsoleString "color: default;"]
       ++ (ConsoleValue <$> values)
       ++ [match shouldPrint, properties with
           | true, Some p => ConsoleProperties p
           | _, _ => ConsoleString ""
           end]))))).

End WithRuntime.

End Formatter.

(* ===================================================================== *)
(** * Part II: properties                                                *)
(* ===================================================================== *)

(** ** Category normalization *)
Module CategoryFacts.
Import Category.

(** Induction over a category value and, for an array, over its items. *)
Lemma MaybeCategory_nested_ind (P : MaybeCategory -> Prop) :
  (forall s, P (CStr s)) ->
  P CNull ->
  P CUndefined ->
  (forall items, Forall P items -> P (CArr items)) ->
  forall c, P c.
Proof.
  intros Hstr Hnull Hundef Harr.
  fix IH 1.
  intros [s| | |items]; [apply Hstr|apply Hnull|apply Hundef|].
  apply Harr. induction items as [|item items IHitems]; constructor.
  - apply IH.
  - apply IHitems.
Qed.

(** Inside an array, the special case for a string item is the general
    case. *)
Lemma deepFlatten_item (item : MaybeCategory) :
  match item with CStr s => [s] | _ => deepFlatten item end = deepFlatten item.
Proof. by destruct item. Qed.

Lemma deepFlatten_CArr (items : list MaybeCategory) :
  deepFlatten (CArr items) = flat_map deepFlatten items.
Proof.
  simpl. induction items as [|item items IH]; [done|].
  simpl. by rewrite IH, deepFlatten_item.
Qed.

Lemma deepFlatten_leaves (c : MaybeCategory) :
  deepFlatten c = omap id (leaves c).
Proof.
  induction c as [s| | |items IH] using MaybeCategory_nested_ind; try done.
  rewrite deepFlatten_CArr. simpl.
  induction IH as [|item items Hitem _ IHitems]; [done|].
  simpl. rewrite omap_app. by rewrite Hitem, IHitems.
Qed.

Lemma getCategoryList_ofList (l : list string) :
  getCategoryList (ofList l) = l.
Proof.
  unfold getCategoryList, ofList. rewrite deepFlatten_CArr.
  induction l as [|s l IH]; [done|].
  rewrite fmap_cons. simpl. by f_equal.
Qed.

(** C6, as the code has it: [getCategoryList] returns the string leaves of
    its argument in left-to-right, depth-first order.  The absent leaves
    ([null], [undefined]) are dropped; every string leaf is kept, the empty
    string included. *)
Theorem getCategoryList_string_leaves (c : MaybeCategory) :
  getCategoryList c = omap id (leaves c) /\
  (forall s : string, s ∈ getCategoryList c <-> Some s ∈ leaves c).
Proof.
  split; [apply deepFlatten_leaves|].
  intros s. unfold getCategoryList. rewrite deepFlatten_leaves.
  rewrite list_elem_of_omap. split.
  - intros ([x|] & Hin & Hx); simplify_eq/=. done.
  - intros Hin. by exists (Some s).
Qed.

(** C6 as stated does not hold: an empty string inside the argument, or as
    the argument, is an empty segment of the result. *)
Lemma getCategoryList_keeps_empty_segment :
  getCategoryList (CArr [CStr "foo"; CStr ""; CStr "bar"]) = ["foo"; ""; "bar"]
  /\ getCategoryList (CStr "") = [""]
  /\ ~ (forall c : MaybeCategory,
          Forall (fun s : string => s <> "") (getCategoryList c)).
Proof.
  split; [reflexivity|]. split; [reflexivity|].
  intros Hall. specialize (Hall (CStr "")).
  apply Forall_cons_1 in Hall as [Hne _]. by apply Hne.
Qed.

End CategoryFacts.

(** ** Level filters *)
Module FilterFacts.
Import Filter.

Lemma severity_Some (l : string) (a : nat) :
  severity l = Some a ->
  (l = "debug" /\ a = 0) \/ (l = "info" /\ a = 1) \/
  (l = "warning" /\ a = 2) \/ (l = "error" /\ a = 3) \/
  (l = "critical" /\ a = 4) \/ (l = "fatal" /\ a = 5).
Proof.
  unfold severity.
  repeat match goal with
         | |- context [String.eqb l ?s] =>
             destruct (String.eqb_spec l s) as [->|?];
             [intros [= <-]; naive_solver|]
         end.
  discriminate.
Qed.

Lemma severity_None (l : string) :
  severity l = None ->
  l <> "debug" /\ l <> "info" /\ l <> "warning" /\ l <> "error" /\
  l <> "critical" /\ l <> "fatal".
Proof.
  unfold severity.
  repeat match goal with
         | |- context [String.eqb l ?s] =>
             destruct (String.eqb_spec l s) as [->|?]; [discriminate|]
         end.
  done.
Qed.

Lemma levelsOrderMap_unfold :
  levelsOrderMap =
  <["debug" := 5]> (<["info" := 4]> (<["warning" := 3]>
    (<["error" := 2]> (<["critical" := 1]> (<["fatal" := 0]> ∅))))).
Proof. reflexivity. Qed.

Lemma getLevelIndex_invalid (l : string) :
  severity l = None ->
  getLevelIndex l = inl (TypeError ("Invalid log level: " +:+ l +:+ ".")).
Proof.
  intros (? & ? & ? & ? & ? & ?)%severity_None.
  unfold getLevelIndex. rewrite levelsOrderMap_unfold.
  rewrite !lookup_insert_ne by done. by rewrite lookup_empty.
Qed.

(** C8: a level is turned into the predicate "at least as severe as the
    level" over debug < info < warning < error < critical < fatal; [null]
    is turned into the predicate that rejects every record; a string outside
    the scale makes the construction throw a [TypeError]. *)
Theorem toFilter_level_threshold :
  (forall (threshold lvl : string) (a b : nat),
      severity threshold = Some a ->
      severity lvl = Some b ->
      exists f : Filter,
        toFilter (FLLevel threshold) = inr f /\
        getLevelFilter (Some threshold) = inr f /\
        forall record : RecordHead,
          rlevel record = lvl -> f record = Ret (Nat.leb a b)) /\
  (exists f : Filter,
      toFilter FLNull = inr f /\
      getLevelFilter None = inr f /\
      forall record : RecordHead, f record = Ret false) /\
  (forall l : string,
      severity l = None ->
      toFilter (FLLevel l)
        = inl (TypeError ("Invalid log level: " +:+ l +:+ ".")) /\
      getLevelFilter (Some l)
        = inl (TypeError ("Invalid log level: " +:+ l +:+ "."))).
Proof.
  split; [|split].
  - intros threshold lvl a b Ha Hb.
    apply severity_Some in Ha. apply severity_Some in Hb.
    assert (getLevelIndex lvl = inr (5 - b)) as Hidx.
    { destruct Hb as [[-> ->]|[[-> ->]|[[-> ->]|[[-> ->]|[[-> ->]|[-> ->]]]]]];
        reflexivity. }
    assert (b <= 5) as Hb5 by (destruct_or!; destruct_and!; subst; lia).
    clear Hb.
    destruct Ha as [[-> ->]|[[-> ->]|[[-> ->]|[[-> ->]|[[-> ->]|[-> ->]]]]]];
      (eexists; split; [reflexivity|]; split; [reflexivity|];
       intros record Hr; cbv beta; rewrite ?Hr, ?Hidx; f_equal;
       do 6 (destruct b as [|b]; [reflexivity|]); lia).
  - eexists. split; [reflexivity|]. split; [reflexivity|]. done.
  - intros l Hl. pose proof (severity_None l Hl) as (Hd & _).
    unfold toFilter, getLevelFilter.
    destruct (String.eqb_spec l "debug") as [->|_]; [done|].
    by rewrite getLevelIndex_invalid.
Qed.

Lemma toFilter_level_threshold_witness :
  exists f : Filter,
    toFilter (FLLevel "warning") = inr f /\
    getLevelFilter (Some "warning") = inr f /\
    forall record : RecordHead,
      rlevel record = "error" -> f record = Ret true.
Proof.
  destruct toFilter_level_threshold as [Hlevel _].
  apply (Hlevel "warning" "error" 2 3); reflexivity.
Defined.

End FilterFacts.

(** ** The category tree *)
Module LoggerFacts.
Import Category Filter Logger CategoryFacts.

(** Well-formedness of the registry: the root slot designates a parentless
    node of empty category, a parent is allocated before its children, and
    an entry [name] of the [children] table of [n] designates a node whose
    parent is [n] and whose category is that of [n] followed by [name]. *)
Record wf (g : Registry) : Prop := mk_wf {
  wf_root : forall r, globalRootLogger g = Some r ->
    exists nd, heap g !! r = Some nd /\ parent nd = None /\ category nd = [];
  wf_parent : forall n nd p,
    heap g !! n = Some nd -> parent nd = Some p -> p < n;
  wf_children : forall n nd name c,
    heap g !! n = Some nd -> children nd !! name = Some c ->
    exists cd, heap g !! c = Some cd /\ parent cd = Some n /\
               category cd = category nd ++ [name]
}.

(** [g'] is [g] after more nodes were allocated and more children
    registered: the nodes of [g] are still there, with the same parent,
    category and bound properties, and with at least the entries they
    had. *)
Definition extends (g g' : Registry) : Prop :=
  (forall r, globalRootLogger g = Some r -> globalRootLogger g' = Some r) /\
  (forall n nd, heap g !! n = Some nd ->
     exists nd', heap g' !! n = Some nd' /\
                 parent nd' = parent nd /\
                 category nd' = category nd /\
                 properties nd' = properties nd /\
                 children nd ⊆ children nd').

(** [resolves g this l n]: following the names of [l] from [this] through
    the [children] tables of [g], an empty name meaning "stay", leads to
    [n]. *)
Fixpoint resolves (g : Registry) (this : NodeId) (l : list string)
    (n : NodeId) : Prop :=
  match l with
  | [] => n = this
  | name :: l' =>
      if decide (name = "") then resolves g this l' n
      else exists nd c, heap g !! this = Some nd /\
                        children nd !! name = Some c /\
                        resolves g c l' n
  end.

(** The arguments for which [getLogger] can return: anything but [null]
    that is empty itself or has a string leaf. *)
Definition resolvable (c : MaybeCategory) : Prop :=
  c <> CNull /\ (jsLength c = 0 \/ getCategoryList c <> []).

(** A name that an object literal does not inherit from
    [Object.prototype]. *)
Definition ordinary (name : string) : Prop := name ∉ objectPrototypeNames.

#[global] Instance ordinary_dec (name : string) : Decision (ordinary name).
Proof. unfold ordinary. apply _. Defined.

Lemma objectGet_Some {A : Type} (table : gmap string A) (key : string)
    (a : A) :
  table !! key = Some a -> objectGet table key = Own a.
Proof. intros Hkey. unfold objectGet. by rewrite Hkey. Qed.

Lemma objectGet_ordinary {A : Type} (table : gmap string A) (key : string) :
  table !! key = None -> ordinary key -> objectGet table key = Undefined.
Proof.
  intros Hkey Hord. unfold objectGet. rewrite Hkey.
  by rewrite bool_decide_eq_false_2.
Qed.

Lemma objectGet_inherited {A : Type} (table : gmap string A) (key : string) :
  table !! key = None -> key ∈ objectPrototypeNames ->
  objectGet table key = Inherited key.
Proof.
  intros Hkey Hin. unfold objectGet. rewrite Hkey.
  by rewrite bool_decide_eq_true_2.
Qed.

Lemma wf_empty : wf emptyRegistry.
Proof. constructor; simpl; intros; simplify_eq. Qed.

Lemma extends_refl (g : Registry) : extends g g.
Proof. split; [done|]. intros n nd Hn. by exists nd. Qed.

Lemma extends_trans (g1 g2 g3 : Registry) :
  extends g1 g2 -> extends g2 g3 -> extends g1 g3.
Proof.
  intros [Hr12 Hn12] [Hr23 Hn23]. split; [auto|].
  intros n nd Hn.
  destruct (Hn12 n nd Hn) as (nd2 & Hn2 & ? & ? & ? & ?).
  destruct (Hn23 n nd2 Hn2) as (nd3 & Hn3 & ? & ? & ? & ?).
  exists nd3. repeat split; try congruence. by etrans.
Qed.

Lemma extends_valid (g g' : Registry) (n : NodeId) :
  extends g g' -> is_Some (heap g !! n) -> is_Some (heap g' !! n).
Proof. intros [_ Hn] [nd Hnd]. destruct (Hn n nd Hnd) as (nd' & -> & _). eauto. Qed.

Lemma resolves_extends (g g' : Registry) (l : list string) :
  extends g g' ->
  forall this n, resolves g this l n -> resolves g' this l n.
Proof.
  intros Hext. induction l as [|name l IH]; intros this n; simpl; [done|].
  case_decide; [apply IH|].
  intros (nd & c & Hnd & Hc & Hres).
  destruct Hext as [_ Hn]. destruct (Hn this nd Hnd) as (nd' & Hnd' & _ & _ & _ & Hsub).
  exists nd', c. split; [done|]. split; [by eapply lookup_weaken|].
  apply IH. done.
Qed.

(** Allocation of a node. *)
Lemma newLoggerImpl_wf (g : Registry) (p : option NodeId)
    (cat : list string) (props : Properties) :
  wf g ->
  (forall p', p = Some p' -> p' < length (heap g)) ->
  (p = None -> globalRootLogger g = None -> True) ->
  wf (newLoggerImpl g p cat props).1 /\
  extends g (newLoggerImpl g p cat props).1.
Proof.
  intros [Hroot Hparent Hchildren] Hp _. split.
  - constructor; simpl.
    + intros r Hr. destruct (Hroot r Hr) as (nd & Hnd & ?).
      exists nd. split; [|done]. by apply lookup_app_l_Some.
    + intros n nd p' Hn Hpar.
      apply lookup_app_Some in Hn as [Hn|[Hlen Hn]]; [by eapply Hparent|].
      destruct (n - length (heap g)) as [|k] eqn:Hk; [|done].
      simpl in Hn. simplify_eq/=. specialize (Hp _ eq_refl). lia.
    + intros n nd name c Hn Hc.
      apply lookup_app_Some in Hn as [Hn|[Hlen Hn]].
      * destruct (Hchildren n nd name c Hn Hc) as (cd & Hcd & ?).
        exists cd. split; [|done]. by apply lookup_app_l_Some.
      * destruct (n - length (heap g)) as [|k] eqn:Hk; [|done].
        simpl in Hn. simplify_eq/=.
  - split; [done|]. simpl. intros n nd Hn. exists nd.
    split; [by apply lookup_app_l_Some|done].
Qed.

(** Assignments to the fields of a node. *)
Lemma lookup_updateNode (f : LoggerImpl -> LoggerImpl) (g : Registry)
    (this n : NodeId) :
  heap (updateNode f g this) !! n
  = (if decide (this = n) then f else id) <$> heap g !! n.
Proof.
  unfold updateNode; simpl. rewrite list_lookup_alter.
  case_decide; [by subst|]. by destruct (heap g !! n).
Qed.

Lemma updateNode_kept (f : LoggerImpl -> LoggerImpl) (g : Registry)
    (this n : NodeId) (nd : LoggerImpl) :
  (forall x, parent (f x) = parent x /\ category (f x) = category x) ->
  heap g !! n = Some nd ->
  exists nd', heap (updateNode f g this) !! n = Some nd' /\
              parent nd' = parent nd /\ category nd' = category nd.
Proof.
  intros Hf Hn. rewrite lookup_updateNode, Hn. simpl.
  eexists; split; [done|]. case_decide; [apply Hf|done].
Qed.

Lemma updateNode_wf (f : LoggerImpl -> LoggerImpl) (g : Registry)
    (this : NodeId) :
  wf g ->
  (forall x, parent (f x) = parent x /\ category (f x) = category x) ->
  (forall nd name c,
      heap g !! this = Some nd -> children (f nd) !! name = Some c ->
      children nd !! name = Some c \/
      exists cd, heap g !! c = Some cd /\ parent cd = Some this /\
                 category cd = category nd ++ [name]) ->
  wf (updateNode f g this).
Proof.
  intros [Hroot Hparent Hchildren] Hf Hnew. constructor.
  - intros r Hr. destruct (Hroot r Hr) as (nd & Hnd & Hpar & Hcat).
    destruct (updateNode_kept f g this r nd Hf Hnd) as (nd' & ? & ? & ?).
    exists nd'. split; [done|]. split; congruence.
  - intros n nd' p. rewrite lookup_updateNode.
    destruct (heap g !! n) as [nd|] eqn:Hn; [|done]. simpl.
    intros [= <-] Hpar. apply (Hparent n nd p Hn).
    case_decide; [|done]. by rewrite <- (proj1 (Hf nd)).
  - intros n nd' name c. rewrite lookup_updateNode.
    destruct (heap g !! n) as [nd|] eqn:Hn; [|done]. simpl.
    intros [= <-] Hc.
    assert (exists cd, heap g !! c = Some cd /\ parent cd = Some n /\
                       category cd = category nd ++ [name])
      as (cd & Hcd & Hpar & Hcat).
    { case_decide as Hthis; [|by eapply Hchildren].
      subst n. destruct (Hnew nd name c Hn Hc) as [Hold|Hcd]; [|done].
      by eapply Hchildren. }
    destruct (updateNode_kept f g this c cd Hf Hcd) as (cd' & ? & ? & ?).
    exists cd'. split; [done|]. split; [congruence|].
    case_decide; simpl; [rewrite (proj2 (Hf nd))|]; congruence.
Qed.

Lemma updateNode_extends (f : LoggerImpl -> LoggerImpl) (g : Registry)
    (this : NodeId) :
  (forall x, parent (f x) = parent x /\ category (f x) = category x /\
             properties (f x) = properties x /\
             (heap g !! this = Some x -> children x ⊆ children (f x))) ->
  extends g (updateNode f g this).
Proof.
  intros Hf. split; [done|]. intros n nd Hn.
  rewrite lookup_updateNode, Hn. simpl. eexists; split; [done|].
  case_decide; [|done]. subst n.
  destruct (Hf nd) as (? & ? & ? & Hsub). auto.
Qed.

(** Creation and registration of a child, as [getChild] performs it. *)
Lemma createChild_spec (g : Registry) (this : NodeId) (nd : LoggerImpl)
    (name : string) :
  wf g ->
  heap g !! this = Some nd ->
  children nd !! name = None ->
  let child := length (heap g) in
  let g1 := setChild
              (newLoggerImpl g (Some this) (category nd ++ [name]) None).1
              this name child in
  wf g1 /\ extends g g1 /\
  (exists nd1, heap g1 !! this = Some nd1 /\
               children nd1 !! name = Some child) /\
  (exists cd, heap g1 !! child = Some cd /\ parent cd = Some this /\
              category cd = category nd ++ [name] /\
              properties cd = properties nd /\ children cd = ∅).
Proof.
  intros Hwf Hthis Hname child g1.
  pose proof (lookup_lt_Some _ _ _ Hthis) as Hlt.
  destruct (newLoggerImpl_wf g (Some this) (category nd ++ [name]) None Hwf)
    as [Hwf' Hext']; [by intros ? [= <-]|done|].
  set (g' := (newLoggerImpl g (Some this) (category nd ++ [name]) None).1)
    in *.
  assert (heap g' !! this = Some nd) as Hthis'.
  { by apply lookup_app_l_Some. }
  assert (exists cd, heap g' !! child = Some cd /\ parent cd = Some this /\
            category cd = category nd ++ [name] /\
            properties cd = properties nd /\ children cd = ∅)
    as (cd & Hcd & Hcpar & Hccat & Hcprops & Hcch).
  { eexists. split; [apply list_lookup_middle; done|]. simpl.
    rewrite Hthis. by destruct (properties nd). }
  assert (this <> child) as Hne by (unfold child; lia).
  split; [|split; [|split]].
  - apply updateNode_wf; [done|done|].
    intros x name' c Hx. simplify_eq. simpl.
    intros [[<- <-]|[_ Hc]]%lookup_insert_Some; [|by left].
    right. by exists cd.
  - eapply extends_trans; [exact Hext'|].
    apply updateNode_extends. intros x. repeat split; try done.
    intros Hx. rewrite Hthis' in Hx. simplify_eq. simpl.
    by apply insert_subseteq.
  - unfold g1, setChild. rewrite lookup_updateNode, Hthis'. simpl.
    rewrite decide_True by done. eexists; split; [done|]. simpl.
    by rewrite lookup_insert_eq.
  - unfold g1, setChild. rewrite lookup_updateNode, Hcd. simpl.
    rewrite decide_False by done. by exists cd.
Qed.

(** One call of [getChild], the argument being kept as it is. *)
Lemma getChild_unfold (fuel : nat) (g : Registry) (this : NodeId)
    (subcategory : MaybeCategory) (props : Properties) :
  getChild (S fuel) g this subcategory props =
  match heap g !! this with
  | None => (Thrown danglingReference, g)
  | Some nd =>
      if negb (truthy subcategory) then
        match props with
        | Some p => with_ g this p
        | None => (Normal this, g)
        end
      else
        match head (getCategoryList subcategory) with
        | Some name0 =>
            if String.eqb name0 "" then
              if Nat.eqb (length (getCategoryList subcategory)) 1
              then (Normal this, g)
              else getChild fuel g this
                     (ofList (tail (getCategoryList subcategory))) None
            else
              match objectGet (children nd) name0 with
              | Inherited _ => (Thrown derefIsNotAFunction, g)
              | Own child =>
                  if Nat.eqb (length (getCategoryList subcategory)) 1
                  then (Normal child, g)
                  else getChild fuel g child
                         (ofList (tail (getCategoryList subcategory))) None
              | Undefined =>
                  let '(g', child) :=
                    newLoggerImpl g (Some this) (category nd ++ [name0])
                                  None in
                  let g1 := setChild g' this name0 child in
                  if Nat.eqb (length (getCategoryList subcategory)) 1
                  then (Normal child, g1)
                  else getChild fuel g1 child
                         (ofList (tail (getCategoryList subcategory))) None
              end
        | None =>
            getChild fuel g this
              (ofList (tail (getCategoryList subcategory))) None
        end
  end.
Proof. reflexivity. Qed.

(** A call with a truthy argument only depends on the flattened
    argument. *)
Lemma getChild_flatten (fuel : nat) (g : Registry) (this : NodeId)
    (subcategory : MaybeCategory) :
  truthy subcategory = true ->
  getChild fuel g this subcategory None
  = getChild fuel g this (ofList (getCategoryList subcategory)) None.
Proof.
  intros Htruthy. destruct fuel as [|fuel]; [done|].
  rewrite !getChild_unfold, Htruthy, getCategoryList_ofList. done.
Qed.

(** The child of [this] named [name]: the registered one, or a new one
    that is registered. *)
Definition lookupOrCreate (g : Registry) (this : NodeId) (nd : LoggerImpl)
    (name : string) : Registry * NodeId :=
  match children nd !! name with
  | Some child => (g, child)
  | None =>
      (setChild (newLoggerImpl g (Some this) (category nd ++ [name]) None).1
                this name (length (heap g)),
       length (heap g))
  end.

(** One call of [getChild] on a flat list of names. *)
Lemma getChild_ofList_step (fuel : nat) (g : Registry) (this : NodeId)
    (nd : LoggerImpl) (name : string) (l : list string) :
  heap g !! this = Some nd ->
  getChild (S fuel) g this (ofList (name :: l)) None =
  if decide (name = "") then
    match l with
    | [] => (Normal this, g)
    | _ => getChild fuel g this (ofList l) None
    end
  else
    match objectGet (children nd) name with
    | Inherited _ => (Thrown derefIsNotAFunction, g)
    | _ =>
        match l with
        | [] => (Normal (lookupOrCreate g this nd name).2,
                 (lookupOrCreate g this nd name).1)
        | _ => getChild fuel (lookupOrCreate g this nd name).1
                 (lookupOrCreate g this nd name).2 (ofList l) None
        end
    end.
Proof.
  intros Hnd. rewrite getChild_unfold, Hnd, getCategoryList_ofList.
  unfold lookupOrCreate, objectGet. cbn [truthy ofList negb head tail length].
  destruct (String.eqb_spec name "") as [->|Hname].
  - rewrite decide_True by done. by destruct l.
  - rewrite decide_False by done.
    destruct (children nd !! name); [by destruct l|].
    case_bool_decide; [done|]. by destruct l.
Qed.

(** The same for a name that is a child already or is not inherited. *)
Lemma getChild_ofList_cons (fuel : nat) (g : Registry) (this : NodeId)
    (nd : LoggerImpl) (name : string) (l : list string) :
  heap g !! this = Some nd ->
  is_Some (children nd !! name) \/ ordinary name ->
  getChild (S fuel) g this (ofList (name :: l)) None =
  if decide (name = "") then
    match l with
    | [] => (Normal this, g)
    | _ => getChild fuel g this (ofList l) None
    end
  else
    match l with
    | [] => (Normal (lookupOrCreate g this nd name).2,
             (lookupOrCreate g this nd name).1)
    | _ => getChild fuel (lookupOrCreate g this nd name).1
             (lookupOrCreate g this nd name).2 (ofList l) None
    end.
Proof.
  intros Hnd Hname. rewrite (getChild_ofList_step fuel g this nd) by done.
  case_decide; [done|].
  destruct Hname as [[c Hc]|Hord].
  - by rewrite (objectGet_Some _ _ c).
  - destruct (children nd !! name) as [c|] eqn:Hc.
    + by rewrite (objectGet_Some _ _ c).
    + by rewrite objectGet_ordinary.
Qed.

Lemma lookupOrCreate_spec (g : Registry) (this : NodeId) (nd : LoggerImpl)
    (name : string) :
  wf g -> heap g !! this = Some nd ->
  exists g1 child nd1 cd,
    lookupOrCreate g this nd name = (g1, child) /\
    wf g1 /\ extends g g1 /\ heap g1 !! this = Some nd1 /\
    children nd1 !! name = Some child /\ heap g1 !! child = Some cd /\
    parent cd = Some this /\ category cd = category nd ++ [name].
Proof.
  intros Hwf Hnd. unfold lookupOrCreate.
  destruct (children nd !! name) as [child|] eqn:Hch.
  - destruct (wf_children g Hwf this nd name child Hnd Hch)
      as (cd & Hcd & ? & ?).
    exists g, child, nd, cd. eauto 10 using extends_refl.
  - destruct (createChild_spec g this nd name Hwf Hnd Hch)
      as (Hwf1 & Hext1 & (nd1 & Hnd1 & Hch1) & (cd & Hcd & ? & ? & _)).
    eexists _, _, nd1, cd. split; [reflexivity|]. done.
Qed.

(** [getChild] does not return for an empty array: it calls itself on the
    empty rest of an empty list. *)
Lemma getChild_empty_array_diverges (fuel : nat) :
  forall g this, is_Some (heap g !! this) ->
                 getChild fuel g this (CArr []) None = (OutOfFuel, g).
Proof.
  induction fuel as [|fuel IH]; intros g this [nd Hnd]; [done|].
  rewrite getChild_unfold, Hnd. simpl. apply IH. by eexists.
Qed.

(** Whatever a call for a path does, it leaves a well-formed tree that
    extends the one it found, and the node it returns, if it returns one,
    is the end of the path. *)
Lemma getChild_ofList_sound (l : list string) :
  forall fuel g this,
    wf g -> is_Some (heap g !! this) ->
    wf (getChild fuel g this (ofList l) None).2 /\
    extends g (getChild fuel g this (ofList l) None).2 /\
    forall n,
      (getChild fuel g this (ofList l) None).1 = Normal n ->
      resolves (getChild fuel g this (ofList l) None).2 this l n /\
      is_Some (heap (getChild fuel g this (ofList l) None).2 !! n).
Proof.
  induction l as [|name l IH]; intros fuel g this Hwf [nd Hnd].
  { change (ofList []) with (CArr []).
    rewrite getChild_empty_array_diverges by (by eexists).
    split; [done|]. split; [apply extends_refl|done]. }
  destruct fuel as [|fuel].
  { split; [done|]. split; [apply extends_refl|done]. }
  rewrite (getChild_ofList_step fuel g this nd) by done.
  cbn [resolves]. case_decide as Hname.
  - destruct l as [|name' l].
    + split; [done|]. split; [apply extends_refl|].
      intros n [= <-]. split; [done|by eexists].
    + apply IH; [done|by eexists].
  - destruct (objectGet (children nd) name) as [c0|inh|] eqn:Hget.
    2:{ split; [done|]. split; [apply extends_refl|done]. }
    all: destruct (lookupOrCreate_spec g this nd name Hwf Hnd)
      as (g1 & child & nd1 & cd & -> & Hwf1 & Hext1 & Hnd1 & Hch & Hcd & _);
      cbn [fst snd];
      (destruct l as [|name' l];
       [split; [done|]; split; [done|]; intros n [= <-];
        split; [by exists nd1, child|by eexists]
       |]);
      destruct (IH fuel g1 child Hwf1 (mk_is_Some _ _ Hcd))
        as (Hwf2 & Hext2 & Hres);
      (split; [done|]); (split; [by eapply extends_trans|]);
      intros n Hn; destruct (Hres n Hn) as [Hpath Hnv]; (split; [|done]);
      destruct Hext2 as [_ Hnodes];
      destruct (Hnodes this nd1 Hnd1) as (nd2 & Hnd2 & _ & _ & _ & Hsub);
      exists nd2, child; (split; [done|]); (split; [|done]);
      by eapply lookup_weaken.
Qed.

(** The first call for a path of names that are not inherited creates
    what is missing and returns the end of the path. *)
Lemma getChild_ofList_total (l : list string) :
  forall fuel g this,
    wf g -> is_Some (heap g !! this) -> l <> [] -> length l <= fuel ->
    Forall ordinary l ->
    exists g1 n,
      getChild fuel g this (ofList l) None = (Normal n, g1) /\
      wf g1 /\ extends g g1 /\ resolves g1 this l n /\
      is_Some (heap g1 !! n).
Proof.
  induction l as [|name l IH];
    intros fuel g this Hwf [nd Hnd] Hne Hfuel Hord; [done|].
  destruct fuel as [|fuel]; [simpl in Hfuel; lia|].
  apply Forall_cons in Hord as [Hname0 Hord].
  rewrite (getChild_ofList_cons fuel g this nd) by auto.
  cbn [resolves]. case_decide as Hname.
  - (* an empty name: stay *)
    destruct l as [|name' l].
    + exists g, this. simpl. eauto 10 using extends_refl.
    + destruct (IH fuel g this Hwf (mk_is_Some _ _ Hnd))
        as (g1 & n & Hget & Hwf1 & Hext1 & Hres & Hn);
        [done|simpl in *; lia|done|].
      by exists g1, n.
  - (* a proper name: look the child up, or create it *)
    destruct (lookupOrCreate_spec g this nd name Hwf Hnd)
      as (g1 & child & nd1 & cd & -> & Hwf1 & Hext1 & Hnd1 & Hch & Hcd & _).
    destruct l as [|name' l].
    + exists g1, child. split; [done|]. split; [done|]. split; [done|].
      split; [|by eexists]. by exists nd1, child.
    + destruct (IH fuel g1 child Hwf1 (mk_is_Some _ _ Hcd))
        as (g2 & n & Hget & Hwf2 & Hext2 & Hres & Hn);
        [done|simpl in *; lia|done|].
      exists g2, n. split; [done|]. split; [done|].
      split; [by eapply extends_trans|]. split; [|done].
      destruct Hext2 as [_ Hnodes].
      destruct (Hnodes this nd1 Hnd1) as (nd2 & Hnd2 & _ & _ & _ & Hsub).
      exists nd2, child. split; [done|]. split; [|done].
      by eapply lookup_weaken.
Qed.

(** A later call for a path that is there returns its end and leaves the
    registry as it is. *)
Lemma getChild_resolved (l : list string) :
  forall fuel g this n,
    wf g -> is_Some (heap g !! this) -> l <> [] -> length l <= fuel ->
    resolves g this l n ->
    getChild fuel g this (ofList l) None = (Normal n, g).
Proof.
  induction l as [|name l IH]; intros fuel g this n Hwf [nd Hnd] Hne Hfuel;
    [done|].
  destruct fuel as [|fuel]; [simpl in Hfuel; lia|].
  rewrite (getChild_ofList_step fuel g this nd) by done.
  cbn [resolves]. case_decide as Hname.
  - destruct l as [|name' l]; [by intros ->|].
    intros Hres. apply IH; [done|by eexists|done|simpl in *; lia|done].
  - intros (nd' & c & Hnd' & Hc & Hres). simplify_eq.
    rewrite (objectGet_Some _ _ c) by done.
    unfold lookupOrCreate. rewrite Hc. cbn [fst snd].
    destruct l as [|name' l]; [by simpl in Hres; subst|].
    destruct (wf_children g Hwf this nd name c Hnd Hc) as (cd & Hcd & _).
    apply IH; [done|by eexists|done|simpl in *; lia|done].
Qed.

(** The root logger as [getLogger] obtains it: the one in the global slot,
    or a new one that is stored there. *)
Definition ensureRoot (g : Registry) : Registry * NodeId :=
  match globalRootLogger g with
  | Some r => (g, r)
  | None =>
      ({| heap := heap (newLoggerImpl g None [] None).1;
          globalRootLogger := Some (length (heap g)) |},
       length (heap g))
  end.

Lemma getLogger_unfold (fuel : nat) (g : Registry) (c : MaybeCategory) :
  getLogger fuel g c =
  let category := match c with CUndefined => CArr [] | c => c end in
  match category with
  | CNull => (Thrown (TypeError "Cannot read properties of null"),
              (ensureRoot g).1)
  | _ =>
      if Nat.eqb (jsLength category) 0
      then (Normal (ensureRoot g).2, (ensureRoot g).1)
      else getChild fuel (ensureRoot g).1 (ensureRoot g).2 category None
  end.
Proof.
  unfold getLogger, ensureRoot.
  destruct (globalRootLogger g); simpl; by destruct c.
Qed.

Lemma ensureRoot_spec (g : Registry) :
  wf g ->
  exists g1 r,
    ensureRoot g = (g1, r) /\ wf g1 /\ extends g g1 /\
    globalRootLogger g1 = Some r /\ is_Some (heap g1 !! r).
Proof.
  intros Hwf. unfold ensureRoot.
  destruct (globalRootLogger g) as [r|] eqn:Hr.
  - exists g, r. destruct (wf_root g Hwf r Hr) as (nd & Hnd & _).
    eauto 10 using extends_refl.
  - destruct (newLoggerImpl_wf g None [] None Hwf) as [Hwf' Hext'];
      [done|done|].
    eexists _, _. split; [reflexivity|]. simpl.
    split; [|split; [|split; [done|]]].
    + destruct Hwf' as [_ Hpar Hch]. constructor; [|done|done].
      simpl. intros r [= <-]. eexists. split; [by apply list_lookup_middle|].
      done.
    + split; [by rewrite Hr|]. apply Hext'.
    + eexists. by apply list_lookup_middle.
Qed.

Lemma ensureRoot_set (g : Registry) (r : NodeId) :
  globalRootLogger g = Some r -> ensureRoot g = (g, r).
Proof. intros Hr. unfold ensureRoot. by rewrite Hr. Qed.

(** A category argument of non-zero length is truthy. *)
Lemma jsLength_truthy (c : MaybeCategory) :
  c <> CNull -> c <> CUndefined -> jsLength c <> 0 -> truthy c = true.
Proof.
  destruct c as [s| | |items]; try done. simpl. intros _ _ Hlen.
  destruct (String.eqb_spec s "") as [->|]; done.
Qed.

Lemma getLogger_not_null (fuel : nat) (g : Registry) (c c' : MaybeCategory) :
  c' = match c with CUndefined => CArr [] | c => c end ->
  c' <> CNull ->
  getLogger fuel g c =
  if Nat.eqb (jsLength c') 0 then (Normal (ensureRoot g).2, (ensureRoot g).1)
  else getChild fuel (ensureRoot g).1 (ensureRoot g).2 c' None.
Proof.
  intros -> Hnull. rewrite getLogger_unfold. cbv zeta. by destruct c.
Qed.

(** Whatever a call of [getLogger] does, it leaves a well-formed tree that
    extends the one it found, and the node it returns, if it returns one,
    is the end of the path of its argument from the root. *)
Lemma getLogger_sound (g : Registry) (c : MaybeCategory) (fuel : nat) :
  wf g ->
  wf (getLogger fuel g c).2 /\
  extends g (getLogger fuel g c).2 /\
  forall n,
    (getLogger fuel g c).1 = Normal n ->
    is_Some (heap (getLogger fuel g c).2 !! n) /\
    exists r, globalRootLogger (getLogger fuel g c).2 = Some r /\
              resolves (getLogger fuel g c).2 r (getCategoryList c) n.
Proof.
  intros Hwf.
  destruct (ensureRoot_spec g Hwf) as (g0 & r & Hroot & Hwf0 & Hext0 & Hr & Hrv).
  rewrite getLogger_unfold, Hroot. cbv zeta. cbn [fst snd].
  remember (match c with CUndefined => CArr [] | c => c end) as c' eqn:Hc'.
  assert (getCategoryList c' = getCategoryList c) as Hl'
    by (subst c'; by destruct c).
  assert (c' = CNull \/ c' <> CNull) as [->|Hnull].
  { destruct c'; [by right|by left|by right|by right]. }
  { cbn [fst snd]. split; [done|]. split; [done|]. done. }
  assert (c' <> CUndefined) as Hundef by (subst c'; by destruct c).
  assert (match c' with
          | CNull => (Thrown (TypeError "Cannot read properties of null"), g0)
          | _ => if Nat.eqb (jsLength c') 0 then (Normal r, g0)
                 else getChild fuel g0 r c' None
          end
          = if Nat.eqb (jsLength c') 0 then (Normal r, g0)
            else getChild fuel g0 r c' None) as -> by (by destruct c').
  destruct (Nat.eqb_spec (jsLength c') 0) as [Hzero|Hnonzero].
  - split; [done|]. split; [done|]. intros n [= <-]. split; [done|].
    exists r. split; [done|]. rewrite <- Hl'.
    destruct c' as [s| | |[|item items]]; try done. by destruct s.
  - pose proof (jsLength_truthy c' Hnull Hundef Hnonzero) as Htruthy.
    rewrite getChild_flatten by done.
    destruct (getChild_ofList_sound (getCategoryList c') fuel g0 r Hwf0 Hrv)
      as (Hwf1 & Hext1 & Hres).
    split; [done|]. split; [by eapply extends_trans|].
    intros n Hn. destruct (Hres n Hn) as [Hpath Hnv]. split; [done|].
    exists r. split; [by apply Hext1|]. by rewrite <- Hl'.
Qed.

(** The first call of [getLogger] for a resolvable argument whose names
    are not inherited returns a node, and from then on every call for
    that argument returns this node and allocates nothing, whatever was
    allocated or registered in between. *)
Lemma getLogger_stable (g : Registry) (c : MaybeCategory) (fuel : nat) :
  wf g -> resolvable c -> Forall ordinary (getCategoryList c) ->
  length (getCategoryList c) <= fuel ->
  exists g1 n,
    getLogger fuel g c = (Normal n, g1) /\ wf g1 /\ extends g g1 /\
    is_Some (heap g1 !! n) /\
    (exists r, globalRootLogger g1 = Some r /\
               resolves g1 r (getCategoryList c) n) /\
    forall g2, wf g2 -> extends g1 g2 ->
               getLogger fuel g2 c = (Normal n, g2).
Proof.
  intros Hwf [Hnull Hres] Hord Hfuel.
  destruct (ensureRoot_spec g Hwf) as (g0 & r & Hroot & Hwf0 & Hext0 & Hr & Hrv).
  remember (match c with CUndefined => CArr [] | c => c end) as c' eqn:Hc'.
  assert (c' <> CNull /\ c' <> CUndefined /\
          getCategoryList c' = getCategoryList c /\
          (jsLength c' = 0 \/ getCategoryList c' <> [])) as (Hn' & Hu' & Hl' & Hres').
  { subst c'. by destruct c. }
  assert (forall g', getLogger fuel g' c =
            if Nat.eqb (jsLength c') 0
            then (Normal (ensureRoot g').2, (ensureRoot g').1)
            else getChild fuel (ensureRoot g').1 (ensureRoot g').2 c' None)
    as Hunfold.
  { intros g'. by apply getLogger_not_null. }
  destruct (Nat.eqb_spec (jsLength c') 0) as [Hzero|Hnonzero].
  - (* the root itself *)
    exists g0, r. split; [by rewrite Hunfold, Hroot|].
    split; [done|]. split; [done|]. split; [done|].
    split.
    { exists r. split; [done|]. rewrite <- Hl'.
      destruct c' as [s| | |[|item items]]; try done.
      by destruct s. }
    intros g2 Hwf2 [Hr2 _]. rewrite Hunfold.
    by rewrite (ensureRoot_set g2 r) by auto.
  - (* a path below the root *)
    destruct Hres' as [?|Hne]; [done|].
    pose proof (jsLength_truthy c' Hn' Hu' Hnonzero) as Htruthy.
    destruct (getChild_ofList_total (getCategoryList c') fuel g0 r Hwf0 Hrv Hne)
      as (g1 & n & Hget & Hwf1 & Hext1 & Hpath & Hnv);
      [by rewrite Hl'|by rewrite Hl'|].
    exists g1, n. split.
    { rewrite Hunfold, Hroot. simpl. by rewrite getChild_flatten. }
    split; [done|]. split; [by eapply extends_trans|]. split; [done|].
    split.
    { exists r. split; [by apply Hext1|]. by rewrite <- Hl'. }
    intros g2 Hwf2 Hext2. rewrite Hunfold.
    assert (globalRootLogger g2 = Some r) as Hr2.
    { apply Hext2. by apply Hext1. }
    rewrite (ensureRoot_set g2 r) by done. simpl.
    rewrite getChild_flatten by done.
    apply getChild_resolved; [done| |done|by rewrite Hl'|].
    + eapply extends_valid; [exact Hext2|]. by eapply extends_valid.
    + by eapply resolves_extends.
Qed.

(** [getLogger] does not return for a non-empty array without any string
    leaf. *)
Lemma getLogger_no_leaf_diverges (g : Registry) (c : MaybeCategory)
    (fuel : nat) :
  wf g -> c <> CNull -> jsLength c <> 0 -> getCategoryList c = [] ->
  (getLogger fuel g c).1 = OutOfFuel.
Proof.
  intros Hwf Hnull Hlen Hleaves.
  destruct (ensureRoot_spec g Hwf) as (g0 & r & Hroot & Hwf0 & _ & _ & Hrv).
  assert (c <> CUndefined) as Hundef by (by intros ->).
  rewrite (getLogger_not_null fuel g c c) by (by destruct c).
  rewrite Hroot. cbn [fst snd].
  destruct (Nat.eqb_spec (jsLength c) 0) as [?|_]; [done|].
  rewrite getChild_flatten by (by apply jsLength_truthy).
  rewrite Hleaves. change (ofList []) with (CArr []).
  by rewrite getChild_empty_array_diverges.
Qed.

(** [getChild] throws for a name that the table of children inherits and
    does not hold, and leaves the tree as it is. *)
Lemma getChild_inherited_throws (g : Registry) (this : NodeId)
    (nd : LoggerImpl) (name : string) (fuel : nat) :
  heap g !! this = Some nd ->
  name ∈ objectPrototypeNames -> children nd !! name = None ->
  getChild (S fuel) g this (CStr name) None = (Thrown derefIsNotAFunction, g).
Proof.
  intros Hnd Hin Hnone.
  assert (name <> "") as Hname.
  { intros ->. revert Hin. unfold objectPrototypeNames.
    rewrite !elem_of_cons, elem_of_nil. naive_solver. }
  assert (truthy (CStr name) = true) as Htruthy.
  { simpl. by destruct (String.eqb_spec name ""). }
  rewrite getChild_flatten by done.
  change (getCategoryList (CStr name)) with [name].
  rewrite (getChild_ofList_step fuel g this nd) by done.
  rewrite decide_False by done. by rewrite objectGet_inherited.
Qed.




(** The last step of a path. *)
Lemma resolves_last (g : Registry) (l : list string) :
  forall this n,
    resolves g this l n ->
    n = this \/
    exists l0 m md k, resolves g this l0 m /\ heap g !! m = Some md /\
                      children md !! k = Some n.
Proof.
  induction l as [|name l IH]; intros this n; simpl; [by left|].
  case_decide as Hname; [apply IH|].
  intros (nd & c & Hnd & Hc & Hres).
  destruct (IH c n Hres) as [->|(l0 & m & md & k & Hres0 & Hm & Hk)].
  - right. by exists [], this, nd, name.
  - right. exists (name :: l0), m, md, k. split; [|done].
    simpl. rewrite decide_False by done. by exists nd, c.
Qed.

(** A node whose parent shares the category of its own parent, and every
    child of such a node, is on no path from the root. *)
Lemma variant_child_unreachable (g : Registry) (r n b c : NodeId)
    (nd bd cd : LoggerImpl) (l : list string) :
  wf g ->
  globalRootLogger g = Some r ->
  heap g !! n = Some nd ->
  heap g !! b = Some bd -> parent bd = Some n -> category bd = category nd ->
  heap g !! c = Some cd -> parent cd = Some b ->
  ~ resolves g r l c.
Proof.
  intros Hwf Hr Hn Hb Hbpar Hbcat Hc Hcpar Hres.
  destruct (wf_root g Hwf r Hr) as (rd & Hrd & Hrpar & _).
  apply resolves_last in Hres as [->|(l0 & m & md & k & Hres0 & Hm & Hk)];
    [congruence|].
  destruct (wf_children g Hwf m md k c Hm Hk) as (cd' & Hcd' & Hpar' & _).
  assert (m = b) as -> by congruence.
  apply resolves_last in Hres0 as [->|(l1 & m' & md' & k' & _ & Hm' & Hk')];
    [congruence|].
  destruct (wf_children g Hwf m' md' k' b Hm' Hk') as (bd' & Hbd' & Hbpar' & Hbcat').
  assert (m' = n) as -> by congruence.
  assert (category nd = category nd ++ [k']) as Hcat by congruence.
  apply (f_equal length) in Hcat. rewrite length_app in Hcat.
  simpl in Hcat. lia.
Qed.




(** *** Sink resolution *)

Lemma getSinks_unfold (fuel : nat) (g : Registry) (this : NodeId) :
  getSinks (S fuel) g this =
  match heap g !! this with
  | None => Thrown danglingReference
  | Some nd =>
      match parent nd, parentSinks nd with
      | Some p, inherit =>
          match getSinks fuel g p with
          | Normal inherited => Normal (inherited ++ sinks nd)
          | other => other
          end
      | _, _ => Normal (sinks nd)
      end
  end.
Proof. reflexivity. Qed.

(** In a well-formed registry a walk from node [this] needs no more fuel
    than [this + 1]. *)
Lemma getSinks_fuel (g : Registry) :
  wf g ->
  forall fuel fuel' this,
    this < fuel -> this < fuel' ->
    getSinks fuel g this = getSinks fuel' g this.
Proof.
  intros Hwf. induction fuel as [|fuel IH]; intros fuel' this Hlt Hlt';
    [lia|].
  destruct fuel' as [|fuel']; [lia|]. rewrite !getSinks_unfold.
  destruct (heap g !! this) as [nd|] eqn:Hnd; [|done].
  destruct (parent nd) as [p|] eqn:Hp; [|done].
  destruct (parentSinks nd); [|done].
  pose proof (wf_parent g Hwf this nd p Hnd Hp).
  rewrite (IH fuel' p); [done|lia|lia].
Qed.

Lemma getSinks_total (g : Registry) :
  wf g ->
  forall fuel this,
    this < fuel -> is_Some (heap g !! this) ->
    exists l, getSinks fuel g this = Normal l.
Proof.
  intros Hwf. induction fuel as [|fuel IH]; intros this Hlt [nd Hnd]; [lia|].
  rewrite getSinks_unfold, Hnd.
  destruct (parent nd) as [p|] eqn:Hp; [|by eexists].
  destruct (parentSinks nd); [|by eexists].
  pose proof (wf_parent g Hwf this nd p Hnd Hp).
  destruct (IH p) as [l ->]; [lia| |by eexists].
  apply lookup_lt_is_Some. apply lookup_lt_Some in Hnd. lia.
Qed.

(** The tree of the example: a root, a child and a grandchild with one
    sink each. *)
Definition threeLevels (a b d : SinkId) : Registry :=
  let g :=
    (getLogger 2 emptyRegistry (CArr [CStr "child"; CStr "grandchild"])).2 in
  pushSink d (pushSink b (pushSink a g 0) 1) 2.

(** C4: [getSinks] yields the resolved sinks of the parent followed by the
    own sinks of the node when the policy is [inherit] and there is a
    parent, and the own sinks only when the policy is [override] or there
    is no parent; nothing is removed from the sequence.  For a root with
    sink [a], its child with sink [b] and the grandchild with sink [d], the
    grandchild resolves to [a; b; d], and to [d] after its policy is set to
    [override]. *)
Theorem getSinks_resolution :
  (forall (g : Registry) (this : NodeId) (nd : LoggerImpl) (fuel : nat),
      wf g -> heap g !! this = Some nd -> this < fuel ->
      (forall p, parent nd = Some p -> parentSinks nd = inherit ->
         exists inherited,
           getSinks fuel g p = Normal inherited /\
           getSinks fuel g this = Normal (inherited ++ sinks nd)) /\
      (parentSinks nd = override -> getSinks fuel g this = Normal (sinks nd)) /\
      (parent nd = None -> getSinks fuel g this = Normal (sinks nd))) /\
  (forall a b d : SinkId,
      (category <$> heap (threeLevels a b d))
        = [[]; ["child"]; ["child"; "grandchild"]] /\
      getSinks 3 (threeLevels a b d) 2 = Normal [a; b; d] /\
      getSinks 3 (setParentSinks override (threeLevels a b d) 2) 2
        = Normal [d]).
Proof.
  split.
  - intros g this nd fuel Hwf Hnd Hlt.
    destruct fuel as [|fuel]; [lia|].
    split; [|split].
    + intros p Hp Hinherit.
      pose proof (wf_parent g Hwf this nd p Hnd Hp) as Hlt'.
      destruct (getSinks_total g Hwf (S fuel) p) as [inherited Hinh]; [lia| |].
      { apply lookup_lt_is_Some. apply lookup_lt_Some in Hnd. lia. }
      exists inherited. split; [done|].
      rewrite getSinks_unfold, Hnd, Hp, Hinherit.
      rewrite (getSinks_fuel g Hwf fuel (S fuel) p) by lia.
      by rewrite Hinh.
    + intros Hoverride. rewrite getSinks_unfold, Hnd, Hoverride.
      by destruct (parent nd).
    + intros Hroot. by rewrite getSinks_unfold, Hnd, Hroot.
  - intros a b d. by vm_compute.
Qed.

Lemma getSinks_resolution_witness :
  exists inherited,
    getSinks 3 (threeLevels 10 11 13) 1 = Normal inherited /\
    getSinks 3 (threeLevels 10 11 13) 2 = Normal (inherited ++ [13]).
Proof.
  destruct getSinks_resolution as [Hgeneral _].
  assert (wf (threeLevels 10 11 13)) as Hwf.
  { unfold threeLevels.
    destruct (getLogger_sound emptyRegistry
                (CArr [CStr "child"; CStr "grandchild"]) 2 wf_empty)
      as (Hwf1 & _).
    cbv zeta. repeat (apply updateNode_wf; [|done|by left]). done. }
  destruct (Hgeneral (threeLevels 10 11 13) 2
              {| parent := Some 1; category := ["child"; "grandchild"];
                 properties := None; children := ∅; sinks := [13];
                 parentSinks := inherit; filters := [];
                 propTransformers := [] |} 3 Hwf)
    as (Hinherit & _); [by vm_compute|lia|].
  apply (Hinherit 1); reflexivity.
Defined.

End LoggerFacts.
(** ** Filters, sinks and emission *)
Module EmissionFacts.
Import Category Filter Logger Emission CategoryFacts LoggerFacts.

(** The filters of [fs], called in this order from index [i] on the record
    [rid], all return [true]; the calls lead from world [w] to world
    [w']. *)
Inductive allAccept `{UserCode} (g : Registry) (this : NodeId) (rid : RecId)
  : nat -> list Filter -> World -> World -> Prop :=
| allAccept_nil i w : allAccept g this rid i [] w w
| allAccept_cons i f fs w w1 w2 :
    callFilter g this i f rid w = (Normal true, w1) ->
    allAccept g this rid (S i) fs w1 w2 ->
    allAccept g this rid i (f :: fs) w w2.

(** The events of a run that are calls of filters. *)
Definition filterCalls (t : list Event) : list (NodeId * nat * RecId) :=
  omap (fun e => match e with
                 | EvFilter node index r => Some (node, index, r)
                 | _ => None
                 end) t.

Section Filters.
Context `{UserCode}.
Variable g : Registry.
Hypothesis Hwf : wf g.

Lemma propTransform_unfold (fuel : nat) (this : NodeId) (raw : RawLogRecord) :
  propTransform (S fuel) g this raw =
  match heap g !! this with
  | None => Thrown danglingReference
  | Some nd =>
      if Nat.ltb (length (propTransformers nd)) 1 then
        match parent nd with
        | None => Normal (raw_properties raw)
        | Some p =>
            match propTransform fuel g p raw with
            | Normal None => Normal (raw_properties raw)
            | other => other
            end
        end
      else
        match transformLoop (propTransformers nd) raw with
        | inl e => Thrown e
        | inr resultRecord => Normal (raw_properties resultRecord)
        end
  end.
Proof. reflexivity. Qed.

Lemma propTransform_returns (raw : RawLogRecord) :
  forall fuel this,
    this < fuel -> propTransform fuel g this raw <> OutOfFuel.
Proof.
  induction fuel as [|fuel IH]; intros this Hlt; [lia|].
  rewrite propTransform_unfold.
  destruct (heap g !! this) as [nd|] eqn:Hnd; [|done].
  destruct (length (propTransformers nd) <? 1)%nat;
    [|by destruct (transformLoop _ _)].
  destruct (parent nd) as [p|] eqn:Hp; [|done].
  pose proof (wf_parent g Hwf this nd p Hnd Hp).
  specialize (IH p ltac:(lia)).
  by destruct (propTransform fuel g p raw) as [[?|]| |].
Qed.

Lemma propTransform_ancestorFuel (this : NodeId) (raw : RawLogRecord) :
  propTransform (ancestorFuel g) g this raw <> OutOfFuel.
Proof.
  unfold ancestorFuel.
  destruct (decide (this < S (length (heap g)))) as [Hlt|Hge];
    [by apply propTransform_returns|].
  rewrite propTransform_unfold.
  rewrite (lookup_ge_None_2 (heap g) this) by lia. done.
Qed.

Lemma getProperties_returns (logger : NodeId) (nd : LoggerImpl)
    (hd : RecordHead) (msg : string) (arg : PropsArg) (w : World) :
  (getProperties g logger nd hd msg arg w).1 <> OutOfFuel.
Proof.
  unfold getProperties, evalPropsArg.
  destruct arg as [p|c|]; [|destruct (propertiesCallback c _) as [e|p]|];
    cbn [fst snd]; try done; apply propTransform_ancestorFuel.
Qed.

Lemma readProperties_returns (rid : RecId) (w : World) :
  (readProperties g rid w).1 <> OutOfFuel.
Proof.
  unfold readProperties.
  destruct (records w !! rid) as [r|]; [|done].
  destruct (propertiesCell r) as [p|logger rawMessage arg]; [done|].
  destruct (heap g !! logger) as [nd|]; [|done].
  pose proof (getProperties_returns logger nd (head r) rawMessage arg w)
    as Hget.
  by destruct (getProperties g logger nd (head r) rawMessage arg w)
    as [[v|e|] w1].
Qed.

Lemma readMessage_returns (rid : RecId) (w : World) :
  (readMessage rid w).1 <> OutOfFuel.
Proof.
  unfold readMessage, realizeMessage.
  destruct (records w !! rid) as [r|]; [|done].
  destruct (messageCell r) as [m raw|c]; [done|].
  by destruct (logCallback c _) as [[tpl values]|].
Qed.

Lemma readRawMessage_returns (rid : RecId) (w : World) :
  (readRawMessage rid w).1 <> OutOfFuel.
Proof.
  unfold readRawMessage, realizeMessage.
  destruct (records w !! rid) as [r|]; [|done].
  destruct (messageCell r) as [m raw|c]; [done|].
  by destruct (logCallback c _) as [[tpl values]|].
Qed.

(** User code always comes to an end. *)
Lemma runReader_returns {A : Type} (rid : RecId) (p : Reader A) :
  forall w, (runReader g rid p w).1 <> OutOfFuel.
Proof.
  induction p as [a|e|k IH|k IH|k IH]; intros w; simpl; try done.
  - pose proof (readProperties_returns rid w) as Hr.
    destruct (readProperties g rid w) as [[v| |] w']; [apply IH|done|done].
  - pose proof (readMessage_returns rid w) as Hr.
    destruct (readMessage rid w) as [[v| |] w']; [apply IH|done|done].
  - pose proof (readRawMessage_returns rid w) as Hr.
    destruct (readRawMessage rid w) as [[v| |] w']; [apply IH|done|done].
Qed.

Lemma callOn_returns {A : Type} (body : RecordHead -> Reader A) (rid : RecId)
    (w : World) :
  (callOn g body rid w).1 <> OutOfFuel.
Proof.
  unfold callOn. destruct (records w !! rid); [apply runReader_returns|done].
Qed.

Lemma filterLoop_returns (this : NodeId) (rid : RecId) (fs : list Filter) :
  forall i w, (filterLoop g this i fs rid w).1 <> OutOfFuel.
Proof.
  induction fs as [|f fs IH]; intros i w; simpl; [done|].
  pose proof (callOn_returns f rid (logEvent (EvFilter this i rid) w)) as Hr.
  unfold callFilter.
  destruct (callOn g f rid _) as [[[|]| |] w']; first [done|apply IH].
Qed.

Lemma filter_unfold (fuel : nat) (this : NodeId) (rid : RecId) (w : World) :
  filter g (S fuel) this rid w =
  match heap g !! this with
  | None => (Thrown danglingReference, w)
  | Some nd =>
      match filterLoop g this 0 (filters nd) rid w with
      | (Normal true, w') =>
          if Nat.ltb (length (filters nd)) 1 then
            match parent nd with
            | Some p => filter g fuel p rid w'
            | None => (Normal true, w')
            end
          else (Normal true, w')
      | other => other
      end
  end.
Proof. reflexivity. Qed.

Lemma filter_fuel (rid : RecId) :
  forall fuel fuel' this w,
    this < fuel -> this < fuel' ->
    filter g fuel this rid w = filter g fuel' this rid w.
Proof.
  induction fuel as [|fuel IH]; intros fuel' this w Hlt Hlt'; [lia|].
  destruct fuel' as [|fuel']; [lia|]. rewrite !filter_unfold.
  destruct (heap g !! this) as [nd|] eqn:Hnd; [|done].
  destruct (filterLoop g this 0 (filters nd) rid w) as [[[|]| |] w']; try done.
  destruct (length (filters nd) <? 1)%nat; [|done].
  destruct (parent nd) as [p|] eqn:Hp; [|done].
  pose proof (wf_parent g Hwf this nd p Hnd Hp).
  apply IH; lia.
Qed.

Lemma filter_returns (rid : RecId) :
  forall fuel this w,
    this < fuel -> (filter g fuel this rid w).1 <> OutOfFuel.
Proof.
  induction fuel as [|fuel IH]; intros this w Hlt; [lia|].
  rewrite filter_unfold.
  destruct (heap g !! this) as [nd|] eqn:Hnd; [|done].
  pose proof (filterLoop_returns this rid (filters nd) 0 w) as Hr.
  destruct (filterLoop g this 0 (filters nd) rid w) as [[[|]| |] w']; try done.
  destruct (length (filters nd) <? 1)%nat; [|done].
  destruct (parent nd) as [p|] eqn:Hp; [|done].
  pose proof (wf_parent g Hwf this nd p Hnd Hp).
  apply IH; lia.
Qed.

Lemma filter_ancestorFuel (this : NodeId) (rid : RecId) (w : World) :
  (filter g (ancestorFuel g) this rid w).1 <> OutOfFuel.
Proof.
  unfold ancestorFuel.
  destruct (decide (this < S (length (heap g)))) as [Hlt|Hge];
    [by apply filter_returns|].
  rewrite filter_unfold.
  rewrite (lookup_ge_None_2 (heap g) this) by lia. done.
Qed.

(** The loop over the filters of a node. *)
Lemma filterLoop_true (this : NodeId) (rid : RecId) (fs : list Filter) :
  forall i w w',
    filterLoop g this i fs rid w = (Normal true, w') <->
    allAccept g this rid i fs w w'.
Proof.
  induction fs as [|f fs IH]; intros i w w'; simpl.
  - split; [intros [= <-]; constructor|by inversion 1].
  - split.
    + destruct (callFilter g this i f rid w) as [[[|]| |] w1] eqn:Hcall;
        try done.
      intros Hloop. econstructor; [done|]. by apply IH.
    + inversion 1 as [|? ? ? ? w1 ? Hcall Hrest]; subst.
      rewrite Hcall. by apply IH.
Qed.

Lemma filterLoop_false (this : NodeId) (rid : RecId) (fs : list Filter) :
  forall i w w',
    filterLoop g this i fs rid w = (Normal false, w') <->
    exists pre f suf w1,
      fs = pre ++ f :: suf /\
      allAccept g this rid i pre w w1 /\
      callFilter g this (i + length pre) f rid w1 = (Normal false, w').
Proof.
  induction fs as [|f fs IH]; intros i w w'; simpl.
  - split; [done|]. by intros ([|??] & ? & ? & ? & ? & _).
  - split.
    + destruct (callFilter g this i f rid w) as [[[|]| |] w1] eqn:Hcall;
        try done.
      * intros (pre & f' & suf & w2 & -> & Hpre & Hrej)%IH.
        exists (f :: pre), f', suf, w2. split; [done|].
        split; [by econstructor|].
        simpl. by rewrite Nat.add_succ_r.
      * intros [= <-]. exists [], f, fs, w. split; [done|].
        split; [constructor|]. simpl. by rewrite Nat.add_0_r.
    + intros ([|f0 pre] & f' & suf & w1 & Hfs & Hpre & Hrej); simplify_eq/=.
      * inversion Hpre; subst. rewrite Nat.add_0_r in Hrej. by rewrite Hrej.
      * inversion Hpre as [|? ? ? ? w2 ? Hcall Hrest]; subst.
        rewrite Hcall. apply IH. exists pre, f', suf, w1.
        split; [done|]. split; [done|]. by rewrite Nat.add_succ_r in Hrej.
Qed.

End Filters.

(** What a read of [properties] does to the world: for a getter, the
    properties function may be called, and when a value comes out it is
    stored; the read that returns is recorded. *)
Lemma readProperties_world `{UserCode} (g : Registry) (rid : RecId)
    (w : World) :
  exists w1,
    (w1 = w \/ exists c, w1 = logEvent (EvPropertiesCallback c) w) /\
    ((readProperties g rid w).2 = w1 \/
     exists v,
       (readProperties g rid w).2 = logEvent (EvGetProperties rid v) w1 \/
       (readProperties g rid w).2
       = logEvent (EvGetProperties rid v) (defineProperties rid v w1)).
Proof.
  unfold readProperties.
  destruct (records w !! rid) as [r|]; [|exists w; auto].
  destruct (propertiesCell r) as [p|logger rawMessage arg].
  { exists w. split; [by left|]. right. exists p. by left. }
  destruct (heap g !! logger) as [nd|]; [|exists w; auto].
  unfold getProperties, evalPropsArg.
  destruct arg as [p|c|]; [|destruct (propertiesCallback c _) as [e|p]|];
    cbv zeta beta iota;
    try match goal with
        | |- context [propTransform ?f g logger ?raw] =>
            destruct (propTransform f g logger raw) as [v|e|]
        end;
    cbn [snd];
    first [ exists w; split; [by left|];
            first [by left|right; eexists; by right]
          | exists (logEvent (EvPropertiesCallback c) w);
            split; [right; by eexists|];
            first [by left|right; eexists; by right] ].
Qed.

(** *** Properties of the world that user code and emission preserve *)
Section Invariant.
Context `{UserCode}.
Variable g : Registry.

(** [J] is a property of worlds and [ok] a set of records such that
    reading an accessor of a record of [ok] preserves [J]. *)
Variable J : World -> Prop.
Variable ok : RecId -> Prop.
Hypothesis J_properties :
  forall rid w, ok rid -> J w -> J (readProperties g rid w).2.
Hypothesis J_message :
  forall rid w, ok rid -> J w -> J (readMessage rid w).2.
Hypothesis J_rawMessage :
  forall rid w, ok rid -> J w -> J (readRawMessage rid w).2.

Lemma runReader_inv {A : Type} (rid : RecId) (p : Reader A) :
  ok rid -> forall w, J w -> J (runReader g rid p w).2.
Proof.
  intros Hok. induction p as [a|e|k IH|k IH|k IH]; intros w Hw; simpl;
    try done.
  - pose proof (J_properties rid w Hok Hw) as Hr.
    destruct (readProperties g rid w) as [[v| |] w']; [by apply IH|done|done].
  - pose proof (J_message rid w Hok Hw) as Hr.
    destruct (readMessage rid w) as [[v| |] w']; [by apply IH|done|done].
  - pose proof (J_rawMessage rid w Hok Hw) as Hr.
    destruct (readRawMessage rid w) as [[v| |] w']; [by apply IH|done|done].
Qed.

Lemma callOn_inv {A : Type} (body : RecordHead -> Reader A) (rid : RecId)
    (w : World) :
  ok rid -> J w -> J (callOn g body rid w).2.
Proof.
  intros Hok Hw. unfold callOn.
  destruct (records w !! rid); [by apply runReader_inv|done].
Qed.

(** Filters: the calls of the filters of the nodes of [okNode] preserve
    [J]. *)
Variable okNode : NodeId -> Prop.
Hypothesis J_filter :
  forall node index rid w,
    okNode node -> J w -> J (logEvent (EvFilter node index rid) w).

Lemma filterLoop_inv (this : NodeId) (rid : RecId) (fs : list Filter) :
  okNode this -> ok rid ->
  forall i w, J w -> J (filterLoop g this i fs rid w).2.
Proof.
  intros Hnode Hok. induction fs as [|f fs IH]; intros i w Hw; simpl; [done|].
  pose proof (callOn_inv f rid (logEvent (EvFilter this i rid) w) Hok
                (J_filter this i rid w Hnode Hw)) as Hcall.
  unfold callFilter.
  destruct (callOn g f rid _) as [[[|]| |] w']; first [done|by apply IH].
Qed.

Lemma filter_inv (rid : RecId) :
  (forall node, okNode node) -> ok rid ->
  forall fuel this w, J w -> J (filter g fuel this rid w).2.
Proof.
  intros Hnode Hok. induction fuel as [|fuel IH]; intros this w Hw; [done|].
  rewrite filter_unfold.
  destruct (heap g !! this) as [nd|]; [|done].
  pose proof (filterLoop_inv this rid (filters nd) (Hnode this) Hok 0 w Hw)
    as Hloop.
  destruct (filterLoop g this 0 (filters nd) rid w) as [[[|]| |] w'];
    try done.
  destruct (length (filters nd) <? 1)%nat; [|done].
  destruct (parent nd); [by apply IH|done].
Qed.

End Invariant.

Section FilterResolution.
Context `{UserCode}.
Variable g : Registry.
Hypothesis Hwf : wf g.

(** Reading an accessor is not a call of a filter. *)
Lemma filterCalls_snoc (t : list Event) (e : Event) :
  filterCalls (t ++ [e])
  = filterCalls t ++ match e with
                     | EvFilter node index r => [(node, index, r)]
                     | _ => []
                     end.
Proof. unfold filterCalls. rewrite omap_app. by destruct e. Qed.

Lemma readProperties_filterCalls (rid : RecId) (w : World) :
  filterCalls (trace (readProperties g rid w).2) = filterCalls (trace w).
Proof.
  destruct (readProperties_world g rid w)
    as (w1 & [->|[c ->]] & [->|[v [->| ->]]]);
    simpl; by rewrite ?filterCalls_snoc, ?app_nil_r.
Qed.

Lemma readMessage_filterCalls (rid : RecId) (w : World) :
  filterCalls (trace (readMessage rid w).2) = filterCalls (trace w).
Proof.
  unfold readMessage, realizeMessage.
  destruct (records w !! rid) as [r|]; [|done].
  destruct (messageCell r) as [m raw|c];
    [simpl; by rewrite filterCalls_snoc, app_nil_r|].
  destruct (logCallback c _) as [[tpl values]|]; simpl;
    by rewrite ?filterCalls_snoc, ?app_nil_r.
Qed.

Lemma readRawMessage_filterCalls (rid : RecId) (w : World) :
  filterCalls (trace (readRawMessage rid w).2) = filterCalls (trace w).
Proof.
  unfold readRawMessage, realizeMessage.
  destruct (records w !! rid) as [r|]; [|done].
  destruct (messageCell r) as [m raw|c];
    [simpl; by rewrite filterCalls_snoc, app_nil_r|].
  destruct (logCallback c _) as [[tpl values]|]; simpl;
    by rewrite ?filterCalls_snoc, ?app_nil_r.
Qed.

Lemma callFilter_filterCalls (this : NodeId) (i : nat) (f : Filter)
    (rid : RecId) (w : World) :
  filterCalls (trace (callFilter g this i f rid w).2)
  = filterCalls (trace w) ++ [(this, i, rid)].
Proof.
  unfold callFilter.
  apply (callOn_inv g
           (fun w' => filterCalls (trace w')
                      = filterCalls (trace w) ++ [(this, i, rid)])
           (fun _ => True)).
  - intros rid' w' _ <-. apply readProperties_filterCalls.
  - intros rid' w' _ <-. apply readMessage_filterCalls.
  - intros rid' w' _ <-. apply readRawMessage_filterCalls.
  - done.
  - simpl. by rewrite filterCalls_snoc.
Qed.

(** The calls that the loop over the filters of a node makes: the first
    [k] filters of the list, in the order of the list. *)
Lemma filterLoop_filterCalls (this : NodeId) (rid : RecId) (fs : list Filter) :
  forall i w,
    exists k,
      k <= length fs /\
      filterCalls (trace (filterLoop g this i fs rid w).2)
      = filterCalls (trace w) ++ ((fun j => (this, j, rid)) <$> seq i k) /\
      ((filterLoop g this i fs rid w).1 = Normal true -> k = length fs).
Proof.
  induction fs as [|f fs IH]; intros i w; simpl.
  - exists 0. by rewrite app_nil_r.
  - pose proof (callFilter_filterCalls this i f rid w) as Hcall.
    destruct (callFilter g this i f rid w) as [[[|]| |] w1]; simpl in Hcall.
    + destruct (IH (S i) w1) as (k & Hk & Hcalls & Hall).
      exists (S k). split; [lia|]. split; [|by intros ->%Hall].
      rewrite Hcalls, Hcall. simpl. by rewrite <- app_assoc.
    + exists 1. split; [lia|]. done.
    + exists 1. split; [lia|]. done.
    + exists 1. split; [lia|]. done.
Qed.

(** C3: with a non-empty filter list the result of [filter] is the
    conjunction of the node's own filters, called in registration order up
    to the first that rejects, and no filter of another node is called;
    with an empty list the result is that of the parent, and [true] at the
    root. *)
Theorem filter_resolution (this : NodeId) (nd : LoggerImpl) (fuel : nat)
    (rid : RecId) (w : World) :
  heap g !! this = Some nd -> this < fuel ->
  (filters nd <> [] ->
     (forall w',
         filter g fuel this rid w = (Normal true, w') <->
         allAccept g this rid 0 (filters nd) w w') /\
     (forall w',
         filter g fuel this rid w = (Normal false, w') <->
         exists pre f suf w1,
           filters nd = pre ++ f :: suf /\
           allAccept g this rid 0 pre w w1 /\
           callFilter g this (length pre) f rid w1 = (Normal false, w')) /\
     (exists k,
         k <= length (filters nd) /\
         filterCalls (trace (filter g fuel this rid w).2)
         = filterCalls (trace w) ++ ((fun j => (this, j, rid)) <$> seq 0 k) /\
         ((filter g fuel this rid w).1 = Normal true ->
          k = length (filters nd)))) /\
  (filters nd = [] ->
     forall p, parent nd = Some p ->
               filter g fuel this rid w = filter g fuel p rid w) /\
  (filters nd = [] -> parent nd = None ->
     filter g fuel this rid w = (Normal true, w)).
Proof.
  intros Hnd Hlt. destruct fuel as [|fuel]; [lia|].
  pose proof (filter_unfold g fuel this rid w) as Hunfold.
  rewrite Hnd in Hunfold. split; [|split].
  - intros Hne. rewrite Hunfold.
    assert ((length (filters nd) <? 1)%nat = false) as Hlen.
    { apply Nat.ltb_ge. destruct (filters nd); [done|simpl; lia]. }
    rewrite Hlen.
    assert (match filterLoop g this 0 (filters nd) rid w with
            | (Normal true, w') => (Normal true, w')
            | other => other
            end = filterLoop g this 0 (filters nd) rid w) as ->.
    { by destruct (filterLoop g this 0 (filters nd) rid w) as [[[|]| |] ?]. }
    split; [apply filterLoop_true|]. split; [apply filterLoop_false|].
    apply filterLoop_filterCalls.
  - intros Hnil p Hp. rewrite Hunfold, Hnil, Hp.
    cbn [filterLoop length Nat.ltb Nat.leb].
    pose proof (wf_parent g Hwf this nd p Hnd Hp).
    apply filter_fuel; [done|lia|lia].
  - intros Hnil Hroot. rewrite Hunfold, Hnil, Hroot. done.
Qed.

End FilterResolution.

(** *** Emission *)

(** The events of a run that are calls of sinks. *)
Definition sinkCalls (t : list Event) : list (SinkId * RecId) :=
  omap (fun e => match e with
                 | EvSink s r => Some (s, r)
                 | _ => None
                 end) t.

(** The fixed message of a failure report. *)
Definition failureMessage : string := "Failed to emit a log record to sink".

Lemma hasSink_addSink (bypass : option (gset SinkId)) (sink s : SinkId) :
  hasSink (Some (addSink bypass sink)) s = false ->
  hasSink bypass s = false /\ s <> sink.
Proof.
  unfold hasSink, addSink. intros Hnot%bool_decide_eq_false.
  split; [|set_solver].
  destruct bypass as [b|]; [|done]. simpl in Hnot.
  apply bool_decide_eq_false. set_solver.
Qed.

Section EmitInvariant.
Context `{UserCode}.
Variable g : Registry.
Variable metaLogger : NodeId.

Variable J : World -> Prop.
Variable ok : RecId -> Prop.
Variable okSink : SinkId -> Prop.
Hypothesis J_properties :
  forall rid w, ok rid -> J w -> J (readProperties g rid w).2.
Hypothesis J_message :
  forall rid w, ok rid -> J w -> J (readMessage rid w).2.
Hypothesis J_rawMessage :
  forall rid w, ok rid -> J w -> J (readRawMessage rid w).2.
Hypothesis J_filter :
  forall node index rid w, J w -> J (logEvent (EvFilter node index rid) w).
Hypothesis J_sink :
  forall s rid w, okSink s -> ok rid -> J w -> J (logEvent (EvSink s rid) w).
Hypothesis J_alloc :
  forall md sink error rid w,
    heap g !! metaLogger = Some md -> J w ->
    J (allocRecord
         (eagerRecord md metaLogger "fatal" failureMessage
            (PropsObject (failureProperties sink error rid)) w) w) /\
    ok (length (records w)).

Lemma callSink_inv (sink : SinkId) (rid : RecId) (w : World) :
  okSink sink -> ok rid -> J w -> J (callSink g sink rid w).2.
Proof.
  intros Hsink Hok Hw. unfold callSink.
  apply (callOn_inv g J ok); auto.
Qed.

Lemma dispatch_inv
    (logMeta : PropsArg -> option (gset SinkId) -> World ->
               Outcome unit * World)
    (rid : RecId) (bypass : option (gset SinkId)) :
  (forall sink error w,
      hasSink bypass sink = false -> J w ->
      J (logMeta (PropsObject (failureProperties sink error rid))
                 (Some (addSink bypass sink)) w).2) ->
  (forall s, hasSink bypass s = false -> okSink s) ->
  ok rid ->
  forall (ss : list SinkId) w,
    J w -> J (dispatch g logMeta rid bypass ss w).2.
Proof.
  intros Hmeta Hbypass Hok.
  induction ss as [|sink rest IH]; intros w Hw; simpl; [done|].
  destruct (hasSink bypass sink) eqn:Hhas; [by apply IH|].
  pose proof (callSink_inv sink rid w (Hbypass sink Hhas) Hok Hw) as Hcall.
  destruct (callSink g sink rid w) as [[[]|error|] w1]; simpl in Hcall;
    [by apply IH| |done].
  pose proof (Hmeta sink error w1 Hhas Hcall) as Hlog.
  destruct (logMeta _ _ w1) as [[[]|e|] w2]; simpl in Hlog;
    [by apply IH|done|done].
Qed.

Lemma emit_unfold (fuel : nat) (this : NodeId) (rid : RecId)
    (bypass : option (gset SinkId)) (w : World) :
  emit g metaLogger (S fuel) this rid bypass w =
  match filter g (ancestorFuel g) this rid w with
  | (Normal true, w1) =>
      match getSinks (ancestorFuel g) g this with
      | Normal ss =>
          dispatch g (logWith g (emit g metaLogger fuel) metaLogger "fatal"
                              failureMessage)
                   rid bypass ss w1
      | Thrown e => (Thrown e, w1)
      | OutOfFuel => (OutOfFuel, w1)
      end
  | (Normal false, w1) => (Normal tt, w1)
  | (Thrown e, w1) => (Thrown e, w1)
  | (OutOfFuel, w1) => (OutOfFuel, w1)
  end.
Proof. reflexivity. Qed.

Lemma emit_inv :
  forall fuel this rid bypass w,
    ok rid ->
    (forall s, hasSink bypass s = false -> okSink s) ->
    J w -> J (emit g metaLogger fuel this rid bypass w).2.
Proof.
  induction fuel as [|fuel IH]; intros this rid bypass w Hok Hbypass Hw;
    [done|].
  rewrite emit_unfold.
  pose proof (filter_inv g J ok J_properties J_message J_rawMessage
                (fun _ => True)
                (fun node index rid w _ => J_filter node index rid w)
                rid (fun _ => I) Hok (ancestorFuel g) this w Hw) as Hfilter.
  destruct (filter g (ancestorFuel g) this rid w) as [[[|]| |] w1];
    simpl in Hfilter; try done.
  destruct (getSinks (ancestorFuel g) g this) as [ss| |]; try done.
  apply dispatch_inv; try done.
  intros sink error w2 Hhas Hw2. unfold logWith.
  destruct (heap g !! metaLogger) as [md|] eqn:Hmd; [|done].
  destruct (J_alloc md sink error rid w2 eq_refl Hw2) as [Halloc Hnew].
  apply IH; [done| |done].
  intros s [Hs _]%hasSink_addSink. by apply Hbypass.
Qed.

End EmitInvariant.

(** The events that reading an accessor can add. *)
Definition isAccess (e : Event) : Prop :=
  match e with
  | EvFilter _ _ _ | EvSink _ _ => False
  | _ => True
  end.

(** The filter chain of the meta logger returns on a failure report. *)
Definition metaFilterReturns `{UserCode} (g : Registry) (metaLogger : NodeId)
  : Prop :=
  forall md sink error rid w,
    heap g !! metaLogger = Some md ->
    exists b w',
      filter g (ancestorFuel g) metaLogger (length (records w))
        (allocRecord
           (eagerRecord md metaLogger "fatal" failureMessage
              (PropsObject (failureProperties sink error rid)) w) w)
      = (Normal b, w').

Section Access.
Context `{UserCode}.
Variable g : Registry.

Lemma readProperties_access (rid : RecId) (w : World) :
  exists evs, trace (readProperties g rid w).2 = trace w ++ evs /\
              Forall isAccess evs.
Proof.
  destruct (readProperties_world g rid w)
    as (w1 & [->|[c ->]] & [->|[v [->| ->]]]);
    simpl; rewrite <- ?app_assoc;
    eexists; (split; [try done; symmetry; apply app_nil_r|]);
    by repeat constructor.
Qed.

Lemma readProperties_length (rid : RecId) (w : World) :
  length (records (readProperties g rid w).2) = length (records w).
Proof.
  destruct (readProperties_world g rid w)
    as (w1 & [->|[c ->]] & [->|[v [->| ->]]]);
    simpl; try done; apply length_alter.
Qed.

Lemma readMessage_length (rid : RecId) (w : World) :
  length (records (readMessage rid w).2) = length (records w).
Proof.
  unfold readMessage, realizeMessage.
  destruct (records w !! rid) as [r|]; [|done].
  destruct (messageCell r) as [m raw|c]; [done|].
  destruct (logCallback c _) as [[tpl values]|]; simpl; [|done].
  apply length_alter.
Qed.

Lemma readRawMessage_length (rid : RecId) (w : World) :
  length (records (readRawMessage rid w).2) = length (records w).
Proof.
  unfold readRawMessage, realizeMessage.
  destruct (records w !! rid) as [r|]; [|done].
  destruct (messageCell r) as [m raw|c]; [done|].
  destruct (logCallback c _) as [[tpl values]|]; simpl; [|done].
  apply length_alter.
Qed.

Lemma readMessage_access (rid : RecId) (w : World) :
  exists evs, trace (readMessage rid w).2 = trace w ++ evs /\
              Forall isAccess evs.
Proof.
  unfold readMessage, realizeMessage.
  destruct (records w !! rid) as [r|]; [|by exists []; rewrite app_nil_r].
  destruct (messageCell r) as [m raw|c].
  { eexists [_]. split; [done|]. by repeat constructor. }
  destruct (logCallback c _) as [[tpl values]|]; simpl; rewrite <- ?app_assoc;
    eexists; (split; [done|]); by repeat constructor.
Qed.

Lemma readRawMessage_access (rid : RecId) (w : World) :
  exists evs, trace (readRawMessage rid w).2 = trace w ++ evs /\
              Forall isAccess evs.
Proof.
  unfold readRawMessage, realizeMessage.
  destruct (records w !! rid) as [r|]; [|by exists []; rewrite app_nil_r].
  destruct (messageCell r) as [m raw|c].
  { eexists [_]. split; [done|]. by repeat constructor. }
  destruct (logCallback c _) as [[tpl values]|]; simpl; rewrite <- ?app_assoc;
    eexists; (split; [done|]); by repeat constructor.
Qed.

Lemma sinkCalls_access (t evs : list Event) :
  Forall isAccess evs -> sinkCalls (t ++ evs) = sinkCalls t.
Proof.
  intros Hevs. unfold sinkCalls. rewrite omap_app.
  rewrite <- (app_nil_r (omap _ t)) at 2. f_equal.
  induction Hevs as [|e evs He _ IH]; [done|].
  destruct e; simpl in *; done.
Qed.

(** A sink that is in the set of sinks to bypass is not called. *)
Lemma emit_sinkCalls (metaLogger : NodeId) (fuel : nat) (this : NodeId)
    (rid : RecId) (bypass : option (gset SinkId)) (w : World) :
  exists calls,
    sinkCalls (trace (emit g metaLogger fuel this rid bypass w).2)
    = sinkCalls (trace w) ++ calls /\
    Forall (fun call => hasSink bypass call.1 = false) calls.
Proof.
  apply (emit_inv g metaLogger
           (fun w' => exists calls,
                sinkCalls (trace w') = sinkCalls (trace w) ++ calls /\
                Forall (fun call => hasSink bypass call.1 = false) calls)
           (fun _ => True)
           (fun s => hasSink bypass s = false)); try done.
  - intros rid' w' _ (calls & Hcalls & Hall).
    destruct (readProperties_access rid' w') as (evs & -> & Hevs).
    exists calls. by rewrite sinkCalls_access.
  - intros rid' w' _ (calls & Hcalls & Hall).
    destruct (readMessage_access rid' w') as (evs & -> & Hevs).
    exists calls. by rewrite sinkCalls_access.
  - intros rid' w' _ (calls & Hcalls & Hall).
    destruct (readRawMessage_access rid' w') as (evs & -> & Hevs).
    exists calls. by rewrite sinkCalls_access.
  - intros node index rid' w' (calls & Hcalls & Hall).
    exists calls. simpl. unfold sinkCalls in *. rewrite omap_app. simpl.
    by rewrite app_nil_r.
  - intros s rid' w' Hs _ (calls & Hcalls & Hall).
    exists (calls ++ [(s, rid')]). simpl. unfold sinkCalls in *.
    rewrite omap_app, Hcalls. simpl. rewrite <- app_assoc. split; [done|].
    apply Forall_app. split; [done|]. by constructor.
  - exists []. by rewrite app_nil_r.
Qed.

End Access.

(** *** What filters and sinks leave of the world *)

(** The sinks called on the record [rid], in the order of the calls. *)
Definition sinkCallsOn (rid : RecId) (t : list Event) : list SinkId :=
  (List.filter (fun call : SinkId * RecId => Nat.eqb call.2 rid)
               (sinkCalls t)).*1.

Lemma sinkCalls_app (t1 t2 : list Event) :
  sinkCalls (t1 ++ t2) = sinkCalls t1 ++ sinkCalls t2.
Proof. unfold sinkCalls. apply omap_app. Qed.

Lemma sinkCallsOn_calls (rid : RecId) (t t' : list Event)
    (calls : list (SinkId * RecId)) :
  sinkCalls t' = sinkCalls t ++ calls ->
  sinkCallsOn rid t'
  = sinkCallsOn rid t
    ++ (List.filter (fun call : SinkId * RecId => Nat.eqb call.2 rid) calls).*1.
Proof.
  intros Hcalls. unfold sinkCallsOn.
  by rewrite Hcalls, List.filter_app, fmap_app.
Qed.

Section Quiet.
Context `{UserCode}.
Variable g : Registry.

(** A world that differs from [w] by reads of accessors only. *)
Definition readsOnly (w w' : World) : Prop :=
  length (records w') = length (records w) /\
  exists evs, trace w' = trace w ++ evs /\ Forall isAccess evs.

Lemma readsOnly_refl (w : World) : readsOnly w w.
Proof. split; [done|]. exists []. by rewrite app_nil_r. Qed.

Lemma readsOnly_step (w w1 w2 : World) :
  readsOnly w w1 ->
  length (records w2) = length (records w1) ->
  (exists evs, trace w2 = trace w1 ++ evs /\ Forall isAccess evs) ->
  readsOnly w w2.
Proof.
  intros (Hlen & evs & Htrace & Hevs) Hlen2 (evs2 & Htrace2 & Hevs2).
  split; [congruence|]. exists (evs ++ evs2).
  rewrite Htrace2, Htrace, app_assoc. split; [done|]. by apply Forall_app.
Qed.

Lemma callOn_readsOnly {A : Type} (body : RecordHead -> Reader A)
    (rid : RecId) (w : World) :
  readsOnly w (callOn g body rid w).2.
Proof.
  apply (callOn_inv g (readsOnly w) (fun _ => True)); try done.
  - intros rid' w' _ Hw'. eapply readsOnly_step; [exact Hw'| |].
    + apply readProperties_length.
    + apply readProperties_access.
  - intros rid' w' _ Hw'. eapply readsOnly_step; [exact Hw'| |].
    + apply readMessage_length.
    + apply readMessage_access.
  - intros rid' w' _ Hw'. eapply readsOnly_step; [exact Hw'| |].
    + apply readRawMessage_length.
    + apply readRawMessage_access.
  - apply readsOnly_refl.
Qed.

Lemma callSink_trace (sink : SinkId) (rid : RecId) (w : World) :
  length (records (callSink g sink rid w).2) = length (records w) /\
  sinkCalls (trace (callSink g sink rid w).2)
  = sinkCalls (trace w) ++ [(sink, rid)].
Proof.
  unfold callSink.
  destruct (callOn_readsOnly (sinkBody sink (trace w)) rid
              (logEvent (EvSink sink rid) w)) as (Hlen & evs & -> & Hevs).
  split; [done|]. rewrite sinkCalls_access by done.
  simpl. unfold sinkCalls. by rewrite omap_app.
Qed.

Lemma callFilter_quiet (this : NodeId) (i : nat) (f : Filter) (rid : RecId)
    (w : World) :
  length (records (callFilter g this i f rid w).2) = length (records w) /\
  sinkCalls (trace (callFilter g this i f rid w).2) = sinkCalls (trace w).
Proof.
  unfold callFilter.
  destruct (callOn_readsOnly f rid (logEvent (EvFilter this i rid) w))
    as (Hlen & evs & -> & Hevs).
  split; [done|]. rewrite sinkCalls_access by done.
  simpl. unfold sinkCalls. rewrite omap_app. simpl. apply app_nil_r.
Qed.

Lemma filterLoop_quiet (this : NodeId) (rid : RecId) (fs : list Filter) :
  forall i w,
    length (records (filterLoop g this i fs rid w).2) = length (records w) /\
    sinkCalls (trace (filterLoop g this i fs rid w).2) = sinkCalls (trace w).
Proof.
  induction fs as [|f fs IH]; intros i w; [done|].
  cbn [filterLoop].
  destruct (callFilter_quiet this i f rid w) as [Hlen Hcalls].
  destruct (callFilter g this i f rid w) as [[[]| |] w'] eqn:Hcall;
    cbn [snd] in *; try done.
  destruct (IH (S i) w') as [Hlen' Hcalls']. split; congruence.
Qed.

Lemma filter_quiet (rid : RecId) :
  forall fuel this w,
    length (records (filter g fuel this rid w).2) = length (records w) /\
    sinkCalls (trace (filter g fuel this rid w).2) = sinkCalls (trace w).
Proof.
  induction fuel as [|fuel IH]; intros this w; [done|].
  rewrite filter_unfold.
  destruct (heap g !! this) as [nd|]; [|done].
  destruct (filterLoop_quiet this rid (filters nd) 0 w) as [Hlen Hcalls].
  destruct (filterLoop g this 0 (filters nd) rid w) as [[[]| |] w'];
    cbn [snd] in *; try done.
  destruct (Nat.ltb (length (filters nd)) 1); [|done].
  destruct (parent nd) as [p|]; [|done].
  destruct (IH p w') as [Hlen' Hcalls']. split; congruence.
Qed.

End Quiet.

(** *** Failure reports *)

Section Reports.
Context `{UserCode}.
Variable g : Registry.
Variable metaLogger : NodeId.
Variable md : LoggerImpl.

(** The record that [_log] builds on the meta logger to report the
    failure [error] of the sink [sink] on the record [rid], when the world
    is [w]. *)
Definition failureRecord (sink : SinkId) (error : JsError) (rid : RecId)
    (w : World) : LogRecord :=
  {| head := {| rcategory := category md;
                rlevel := "fatal";
                rtimestamp := now (length (records w)) |};
     messageCell :=
       MsgValue [VString "Failed to emit a log record to sink"]
                (RawString "Failed to emit a log record to sink");
     propertiesCell :=
       PropsGetter metaLogger "Failed to emit a log record to sink"
         (PropsObject (<["sink" := VSink sink]>
                         (<["error" := VError error]>
                            (<["record" := VRecord rid]> ∅)))) |}.

(** What a call of [emit] that returns does, told without fuel.
    [emits this rid bypass w w']: the filter chain of [this] rejects the
    record, or it accepts it and the resolved sinks are served.
    [delivers rid bypass sinks w w']: the sinks of the list are served in
    turn; one that is to be bypassed is skipped, the others are called
    with the record; when the call throws, the failure record is made and
    emitted on the meta logger, with the sink added to the sinks to
    bypass, before the next sink is served. *)
Inductive emits
  : NodeId -> RecId -> option (gset SinkId) -> World -> World -> Prop :=
| emits_rejected this rid bypass w w1 :
    filter g (ancestorFuel g) this rid w = (Normal false, w1) ->
    emits this rid bypass w w1
| emits_accepted this rid bypass w w1 sinks w' :
    filter g (ancestorFuel g) this rid w = (Normal true, w1) ->
    getSinks (ancestorFuel g) g this = Normal sinks ->
    delivers rid bypass sinks w1 w' ->
    emits this rid bypass w w'
with delivers
  : RecId -> option (gset SinkId) -> list SinkId -> World -> World -> Prop :=
| delivers_nil rid bypass w :
    delivers rid bypass [] w w
| delivers_bypassed rid bypass sink rest w w' :
    hasSink bypass sink = true ->
    delivers rid bypass rest w w' ->
    delivers rid bypass (sink :: rest) w w'
| delivers_returned rid bypass sink rest w w1 w' :
    hasSink bypass sink = false ->
    callSink g sink rid w = (Normal tt, w1) ->
    delivers rid bypass rest w1 w' ->
    delivers rid bypass (sink :: rest) w w'
| delivers_reported rid bypass sink rest error w w1 w2 w' :
    hasSink bypass sink = false ->
    callSink g sink rid w = (Thrown error, w1) ->
    emits metaLogger (length (records w1))
          (Some (default ∅ bypass ∪ {[sink]}))
          (allocRecord (failureRecord sink error rid w1) w1) w2 ->
    delivers rid bypass rest w2 w' ->
    delivers rid bypass (sink :: rest) w w'.

Hypothesis Hmd : heap g !! metaLogger = Some md.

(** A call of [emit] that returns did what [emits] tells. *)
Lemma emit_emits :
  forall fuel this rid bypass w w',
    emit g metaLogger fuel this rid bypass w = (Normal tt, w') ->
    emits this rid bypass w w'.
Proof.
  induction fuel as [|fuel IH]; intros this rid bypass w w'; [done|].
  rewrite emit_unfold.
  destruct (filter g (ancestorFuel g) this rid w) as [[[|]| |] w1] eqn:Hfilter;
    try done.
  2:{ intros [= <-]. by apply emits_rejected. }
  destruct (getSinks (ancestorFuel g) g this) as [ss| |] eqn:Hsinks; try done.
  intros Hdispatch. eapply emits_accepted; [done|done|].
  clear Hfilter Hsinks. revert w1 Hdispatch.
  induction ss as [|sink rest IHss]; intros w1; cbn [dispatch].
  - intros [= <-]. constructor.
  - destruct (hasSink bypass sink) eqn:Hhas.
    { intros Hrest. apply delivers_bypassed; [done|]. by apply IHss. }
    destruct (callSink g sink rid w1) as [[[]|error|] w2] eqn:Hcall;
      [| |done].
    { intros Hrest. eapply delivers_returned; [done|done|]. by apply IHss. }
    unfold logWith at 1. rewrite Hmd.
    destruct (emit g metaLogger fuel metaLogger _ _ _) as [[[]| |] w3]
      eqn:Hmeta; try done.
    intros Hrest. eapply delivers_reported; [done|done| |by apply IHss].
    apply IH. exact Hmeta.
Qed.

(** The calls of sinks on a record that exists: an emission of another
    record adds none. *)
Lemma emit_callsOn_other (rid : RecId) (w0 : World) :
  forall fuel this rid' bypass w,
    rid' <> rid ->
    sinkCallsOn rid (trace w) = sinkCallsOn rid (trace w0) ->
    rid < length (records w) ->
    sinkCallsOn rid (trace (emit g metaLogger fuel this rid' bypass w).2)
    = sinkCallsOn rid (trace w0) /\
    rid < length (records (emit g metaLogger fuel this rid' bypass w).2).
Proof.
  intros fuel this rid' bypass w Hne Hcalls Hlen.
  apply (emit_inv g metaLogger
           (fun w' => sinkCallsOn rid (trace w') = sinkCallsOn rid (trace w0) /\
                      rid < length (records w'))
           (fun r => r <> rid) (fun _ => True)); try done.
  - intros r w1 _ [Hc Hl].
    rewrite readProperties_length.
    destruct (readProperties_access g r w1) as (evs & -> & Hevs).
    split; [|done]. unfold sinkCallsOn in *. by rewrite sinkCalls_access.
  - intros r w1 _ [Hc Hl].
    rewrite readMessage_length.
    destruct (readMessage_access r w1) as (evs & -> & Hevs).
    split; [|done]. unfold sinkCallsOn in *. by rewrite sinkCalls_access.
  - intros r w1 _ [Hc Hl].
    rewrite readRawMessage_length.
    destruct (readRawMessage_access r w1) as (evs & -> & Hevs).
    split; [|done]. unfold sinkCallsOn in *. by rewrite sinkCalls_access.
  - intros node index r w1 [Hc Hl]. split; [|done].
    cbn [trace logEvent]. unfold sinkCallsOn in *.
    rewrite sinkCalls_app. cbn. by rewrite app_nil_r.
  - intros s r w1 _ Hr [Hc Hl]. split; [|done].
    cbn [trace logEvent].
    rewrite (sinkCallsOn_calls rid (trace w1) _ [(s, r)])
      by apply sinkCalls_app.
    cbn. destruct (Nat.eqb_spec r rid); [done|]. by rewrite app_nil_r.
  - intros md' sink error r w1 _ [Hc Hl]. split.
    + split; [done|]. cbn [records allocRecord]. rewrite length_app. lia.
    + lia.
Qed.

(** The calls of sinks on the record that is delivered: one for each
    resolved sink that is not bypassed, in the order of the list, whether
    the sink returns or throws. *)
Lemma dispatch_callsOn (fuel : nat) (rid : RecId)
    (bypass : option (gset SinkId)) (ss : list SinkId) :
  forall w w',
    rid < length (records w) ->
    dispatch g (logWith g (emit g metaLogger fuel) metaLogger "fatal"
                        failureMessage)
             rid bypass ss w = (Normal tt, w') ->
    sinkCallsOn rid (trace w')
    = sinkCallsOn rid (trace w)
      ++ List.filter (fun s => negb (hasSink bypass s)) ss /\
    rid < length (records w').
Proof.
  induction ss as [|sink rest IH]; intros w w' Hlen; cbn [dispatch List.filter].
  - intros [= <-]. by rewrite app_nil_r.
  - destruct (hasSink bypass sink) eqn:Hhas; cbn [negb]; [by apply IH|].
    destruct (callSink_trace g sink rid w) as [Hlen1 Hcalls1].
    destruct (callSink g sink rid w) as [[[]|error|] w1] eqn:Hcall;
      cbn [snd] in Hlen1, Hcalls1; [| |done].
    + intros Hrest. destruct (IH w1 w') as [Hcalls' Hlen']; [lia|done|].
      split; [|done].
      rewrite Hcalls', (sinkCallsOn_calls rid (trace w) _ _ Hcalls1).
      cbn. rewrite Nat.eqb_refl. cbn. by rewrite <- app_assoc.
    + unfold logWith at 1. rewrite Hmd.
      match goal with
      | |- context [emit g metaLogger fuel metaLogger ?r ?b ?w2] =>
          destruct (emit_callsOn_other rid w1 fuel metaLogger r b w2)
            as [Hcalls2 Hlen2]; [lia|done|cbn; rewrite length_app; lia|];
          destruct (emit g metaLogger fuel metaLogger r b w2)
            as [[[]| |] w3] eqn:Hmeta; try done
      end.
      cbn [snd] in Hcalls2, Hlen2.
      intros Hrest. destruct (IH w3 w') as [Hcalls' Hlen']; [done|done|].
      split; [|done].
      rewrite Hcalls', Hcalls2, (sinkCallsOn_calls rid (trace w) _ _ Hcalls1).
      cbn. rewrite Nat.eqb_refl. cbn. by rewrite <- app_assoc.
Qed.

End Reports.

Section Containment.
Context `{UserCode}.
Variable g : Registry.
Variable metaLogger : NodeId.
Hypothesis Hwf : wf g.
Hypothesis HmetaFilter : metaFilterReturns g metaLogger.
Variable md : LoggerImpl.
Hypothesis Hmd : heap g !! metaLogger = Some md.
Variable metaSinks : list SinkId.
Hypothesis HmetaSinks : getSinks (ancestorFuel g) g metaLogger = Normal metaSinks.

Lemma callSink_returns (sink : SinkId) (rid : RecId) (w : World) :
  (callSink g sink rid w).1 <> OutOfFuel.
Proof. unfold callSink. by apply callOn_returns. Qed.

(** The loop over the sinks returns when every failure report does. *)
Lemma dispatch_returns
    (logMeta : PropsArg -> option (gset SinkId) -> World ->
               Outcome unit * World)
    (rid : RecId) (bypass : option (gset SinkId)) (ss0 : list SinkId) :
  (forall sink error w,
      hasSink bypass sink = false -> sink ∈ ss0 ->
      exists w', logMeta (PropsObject (failureProperties sink error rid))
                         (Some (addSink bypass sink)) w = (Normal tt, w')) ->
  forall (ss : list SinkId) w,
    ss ⊆ ss0 ->
    exists w', dispatch g logMeta rid bypass ss w = (Normal tt, w').
Proof.
  intros Hmeta. induction ss as [|sink rest IH]; intros w Hsub; simpl;
    [by eexists|].
  assert (rest ⊆ ss0) as Hrest by set_solver.
  destruct (hasSink bypass sink) eqn:Hhas; [by apply IH|].
  pose proof (callSink_returns sink rid w) as Hcall.
  destruct (callSink g sink rid w) as [[[]|error|] w1]; simpl in Hcall;
    [by apply IH| |done].
  destruct (Hmeta sink error w1 Hhas) as [w2 ->]; [set_solver|].
  by apply IH.
Qed.

Lemma bypass_measure (bypass : option (gset SinkId)) (sink : SinkId) :
  hasSink bypass sink = false -> sink ∈ metaSinks ->
  size ((list_to_set metaSinks : gset SinkId) ∖ addSink bypass sink)
  < size ((list_to_set metaSinks : gset SinkId) ∖ default ∅ bypass).
Proof.
  intros Hhas Hin. apply subset_size. unfold addSink.
  assert (sink ∉ default ∅ bypass) as Hnot.
  { destruct bypass as [b|]; simpl in *; [|set_solver].
    by apply bool_decide_eq_false in Hhas. }
  assert (sink ∈ (list_to_set metaSinks : gset SinkId)) as Hin'
    by (by apply elem_of_list_to_set).
  set_solver.
Qed.

(** A failure report is delivered in bounded depth: each nested report is
    caused by a sink of the meta logger that was not bypassed before and is
    bypassed from then on. *)
Lemma logMeta_returns :
  forall k fuel bypass sink error rid w,
    size ((list_to_set metaSinks : gset SinkId) ∖ default ∅ bypass) <= k ->
    k < fuel ->
    exists w',
      logWith g (emit g metaLogger fuel) metaLogger "fatal" failureMessage
              (PropsObject (failureProperties sink error rid)) bypass w
      = (Normal tt, w').
Proof.
  induction k as [|k IH]; intros fuel bypass sink error rid w Hsize Hfuel;
    (destruct fuel as [|fuel]; [lia|]);
    unfold logWith; rewrite Hmd, emit_unfold;
    destruct (HmetaFilter md sink error rid w Hmd) as (b & w1 & ->);
    (destruct b; [|by eexists]); rewrite HmetaSinks;
    (apply (dispatch_returns _ _ _ metaSinks); [|done]);
    intros sink' error' w2 Hhas Hin;
    pose proof (bypass_measure bypass sink' Hhas Hin) as Hless.
  - lia.
  - apply IH; simpl; lia.
Qed.

(** Whatever the sinks do, [emit] returns normally once the filter chain
    of the node has returned. *)
Lemma emit_returns (fuel : nat) (this : NodeId) (rid : RecId)
    (bypass : option (gset SinkId)) (w : World) :
  size (list_to_set metaSinks : gset SinkId) + 2 <= fuel ->
  (exists b w1, filter g (ancestorFuel g) this rid w = (Normal b, w1)) ->
  exists w', emit g metaLogger fuel this rid bypass w = (Normal tt, w').
Proof.
  intros Hfuel (b & w1 & Hfilter).
  destruct fuel as [|fuel]; [lia|]. rewrite emit_unfold, Hfilter.
  destruct b; [|by eexists].
  assert (is_Some (heap g !! this)) as Hthis.
  { unfold ancestorFuel in Hfilter. rewrite filter_unfold in Hfilter.
    destruct (heap g !! this); [by eexists|done]. }
  destruct (getSinks_total g Hwf (ancestorFuel g) this) as [ss ->];
    [|done|].
  { apply lookup_lt_is_Some in Hthis. unfold ancestorFuel. lia. }
  apply (dispatch_returns _ _ _ ss); [|done].
  intros sink error w2 _ _.
  apply (logMeta_returns (size (list_to_set metaSinks : gset SinkId))).
  - apply subseteq_size. set_solver.
  - lia.
Qed.

End Containment.


(** *** The example configurations *)
Section ExampleFacts.
Import Examples.
#[local] Existing Instance exampleCode.

Lemma wf_loadedRegistry : wf loadedRegistry.
Proof. unfold loadedRegistry. apply getLogger_sound, wf_empty. Qed.

Lemma wf_fooRegistry : wf fooRegistry.
Proof. unfold fooRegistry. apply getLogger_sound, wf_loadedRegistry. Qed.

(** Changes of the configuration lists keep a registry well formed. *)
Lemma wf_pushSink (s : SinkId) (g : Registry) (n : NodeId) :
  wf g -> wf (pushSink s g n).
Proof. intros Hwf. apply updateNode_wf; [done|done|by left]. Qed.

Lemma wf_pushFilter (f : Filter) (g : Registry) (n : NodeId) :
  wf g -> wf (pushFilter f g n).
Proof. intros Hwf. apply updateNode_wf; [done|done|by left]. Qed.

Lemma wf_pushPropTransformer (t : PropertiesTransformer) (g : Registry)
    (n : NodeId) :
  wf g -> wf (pushPropTransformer t g n).
Proof. intros Hwf. apply updateNode_wf; [done|done|by left]. Qed.

Lemma wf_setParentSinks (ps : ParentSinks) (g : Registry) (n : NodeId) :
  wf g -> wf (setParentSinks ps g n).
Proof. intros Hwf. apply updateNode_wf; [done|done|by left]. Qed.

Lemma wf_reset (g : Registry) (n : NodeId) : wf g -> wf (reset g n).
Proof. intros Hwf. apply updateNode_wf; [done|done|by left]. Qed.

Lemma wf_failingRegistry : wf failingRegistry.
Proof. repeat apply wf_pushSink. apply wf_fooRegistry. Qed.

Lemma wf_filteredRegistry : wf filteredRegistry.
Proof.
  apply wf_pushFilter. repeat apply wf_pushSink. apply wf_fooRegistry.
Qed.

Lemma filter_resolution_witness :
  exists nd,
    heap filteredRegistry !! foo = Some nd /\
    forall w,
      (exists k,
          k <= length (filters nd) /\
          filterCalls (trace (filter filteredRegistry 4 foo 0 w).2)
          = filterCalls (trace w) ++ ((fun j => (foo, j, 0)) <$> seq 0 k) /\
          ((filter filteredRegistry 4 foo 0 w).1 = Normal true ->
           k = length (filters nd))).
Proof.
  eexists. split; [reflexivity|]. intros w.
  eapply (filter_resolution filteredRegistry wf_filteredRegistry foo _ 4 0 w).
  - reflexivity.
  - unfold foo. lia.
  - simpl. discriminate.
Defined.


(** The run of the witness, computed: the calls of sinks in order, and
    the two failure records. *)
Lemma failingRegistry_run :
  let result := emit failingRegistry metaLogger 4 foo 0 None
                     (allocRecord (fixture "error") emptyWorld) in
  result.1 = Normal tt /\
  sinkCalls (trace result.2) = [(0, 0); (1, 0); (0, 1); (1, 0); (0, 2)] /\
  (head <$> records result.2)
  = [{| rcategory := ["my-app"; "junk"]; rlevel := "error";
        rtimestamp := 1700000000000 |};
     {| rcategory := ["logtape"; "meta"]; rlevel := "fatal";
        rtimestamp := 1700000000001 |};
     {| rcategory := ["logtape"; "meta"]; rlevel := "fatal";
        rtimestamp := 1700000000002 |}].
Proof. by vm_compute. Qed.

End ExampleFacts.


(** *** Lazily computed properties *)

(** The values that the reads of [rid.properties] returned. *)
Definition readsOf (rid : RecId) (t : list Event) : list Properties :=
  omap (fun e => match e with
                 | EvGetProperties r p =>
                     if Nat.eqb r rid then Some p else None
                 | _ => None
                 end) t.

(** The number of calls of the properties callback [c]. *)
Definition callsOf (c : CallbackId) (t : list Event) : nat :=
  countEvents (isPropertiesCallback c) t.

(** The number of calls of [c] that evaluating the argument [arg] makes. *)
Definition argCalls (arg : PropsArg) (c : CallbackId) : nat :=
  match arg with
  | PropsFunction c' => if Nat.eqb c' c then 1 else 0
  | _ => 0
  end.

(** A record whose properties do not depend on a callback. *)
Definition objectRecord (rec : LogRecord) : Prop :=
  match propertiesCell rec with
  | PropsGetter _ _ (PropsFunction _) => False
  | _ => True
  end.

Lemma countEvents_app (p : Event -> bool) (t1 t2 : list Event) :
  countEvents p (t1 ++ t2) = countEvents p t1 + countEvents p t2.
Proof. unfold countEvents. by rewrite List.filter_app, length_app. Qed.

Lemma callsOf_snoc (c : CallbackId) (t : list Event) (e : Event) :
  callsOf c (t ++ [e])
  = callsOf c t + (if isPropertiesCallback c e then 1 else 0).
Proof.
  unfold callsOf. rewrite countEvents_app. f_equal.
  unfold countEvents. simpl. by destruct (isPropertiesCallback c e).
Qed.

Lemma readsOf_snoc (rid : RecId) (t : list Event) (e : Event) :
  readsOf rid (t ++ [e])
  = readsOf rid t ++
    match e with
    | EvGetProperties r p => if Nat.eqb r rid then [p] else []
    | _ => []
    end.
Proof.
  unfold readsOf. rewrite omap_app. f_equal.
  destruct e; simpl; try done. by destruct (Nat.eqb _ _).
Qed.

(** *** Which transformers apply *)

(** [{ ...rawRecord, properties: p }] *)
Definition withProperties (raw : RawLogRecord) (p : Properties)
  : RawLogRecord :=
  {| raw_category := raw_category raw;
     raw_level := raw_level raw;
     raw_rawMessage := raw_rawMessage raw;
     raw_timestamp := raw_timestamp raw;
     raw_properties := p |}.

(** The transformers [ts] one after the other, each given the record
    [raw] with the properties [p] left by the one before it, until one
    throws. *)
Fixpoint chain (ts : list PropertiesTransformer) (raw : RawLogRecord)
    (p : Properties) : JsError + Properties :=
  match ts with
  | [] => inr p
  | t :: ts' =>
      match t (withProperties raw p) with
      | inl e => inl e
      | inr p' => chain ts' raw p'
      end
  end.

(** [this.propTransformers] of the node [a] *)
Definition transformersOf (g : Registry) (a : NodeId)
  : list PropertiesTransformer :=
  match heap g !! a with
  | Some nd => propTransformers nd
  | None => []
  end.

(** [nearest g this a]: on the way from [this] to the root, [this]
    included, [a] is the first node that has a properties transformer;
    [None] when no node on the way has one. *)
Inductive nearest (g : Registry) : NodeId -> option NodeId -> Prop :=
| nearest_self this nd :
    heap g !! this = Some nd ->
    propTransformers nd <> [] ->
    nearest g this (Some this)
| nearest_root this nd :
    heap g !! this = Some nd ->
    propTransformers nd = [] ->
    parent nd = None ->
    nearest g this None
| nearest_parent this nd p a :
    heap g !! this = Some nd ->
    propTransformers nd = [] ->
    parent nd = Some p ->
    nearest g p a ->
    nearest g this a.

Lemma withProperties_same (raw : RawLogRecord) :
  withProperties raw (raw_properties raw) = raw.
Proof. by destruct raw. Qed.

Lemma transformers_loop (ts : list PropertiesTransformer)
    (raw : RawLogRecord) :
  forall p,
    transformLoop ts (withProperties raw p)
    = match chain ts raw p with
      | inl e => inl e
      | inr p' => inr (withProperties raw p')
      end.
Proof.
  induction ts as [|t ts IH]; intros p; [done|].
  cbn [transformLoop chain].
  destruct (t (withProperties raw p)) as [e|p']; [done|].
  by rewrite <- IH.
Qed.

Lemma nearest_functional (g : Registry) (this : NodeId)
    (a b : option NodeId) :
  nearest g this a -> nearest g this b -> a = b.
Proof.
  intros Ha. revert b.
  induction Ha as [this nd Hnd Hts|this nd Hnd Hts Hp
                  |this nd p a Hnd Hts Hp _ IH]; intros b Hb;
    inversion Hb; simplify_eq; try done.
  by apply IH.
Qed.

Lemma nearest_le (g : Registry) (this a : NodeId) :
  wf g -> nearest g this (Some a) -> a <= this.
Proof.
  intros Hwf Hn. remember (Some a) as oa eqn:Hoa.
  induction Hn as [this nd Hnd Hts|this nd Hnd Hts Hp
                  |this nd p a' Hnd Hts Hp _ IH].
  - injection Hoa as ->. lia.
  - done.
  - specialize (IH Hoa).
    pose proof (wf_parent g Hwf this nd p Hnd Hp). lia.
Qed.

Lemma nearest_exists (g : Registry) :
  wf g ->
  forall this, is_Some (heap g !! this) -> exists a, nearest g this a.
Proof.
  intros Hwf this.
  induction this as [this IH] using lt_wf_ind. intros [nd Hnd].
  destruct (propTransformers nd) as [|t ts] eqn:Hts.
  - destruct (parent nd) as [p|] eqn:Hp.
    + pose proof (wf_parent g Hwf this nd p Hnd Hp) as Hlt.
      destruct (IH p Hlt) as [a Ha].
      { apply lookup_lt_is_Some. apply lookup_lt_Some in Hnd. lia. }
      exists a. by eapply nearest_parent.
    + exists None. by eapply nearest_root.
  - exists (Some this). eapply nearest_self; [done|]. by rewrite Hts.
Qed.

(** What [propTransform] returns, by the nearest node with a transformer. *)
Lemma propTransform_resolved (g : Registry) (raw : RawLogRecord)
    (this : NodeId) (a : option NodeId) :
  wf g ->
  nearest g this a ->
  forall fuel,
    this < fuel ->
    propTransform fuel g this raw
    = match a with
      | None => Normal (raw_properties raw)
      | Some a =>
          match chain (transformersOf g a) raw (raw_properties raw) with
          | inl e => Thrown e
          | inr result =>
              Normal (if decide (a = this) then result
                      else match result with
                           | Some p => Some p
                           | None => raw_properties raw
                           end)
          end
      end.
Proof.
  intros Hwf Hn.
  induction Hn as [this nd Hnd Hts|this nd Hnd Hts Hp
                  |this nd p a Hnd Hts Hp Hn IH];
    intros [|fuel] Hlt; try lia; rewrite propTransform_unfold, Hnd.
  - destruct (propTransformers nd) as [|t ts] eqn:Hl; [done|].
    cbn [length Nat.ltb Nat.leb].
    unfold transformersOf. rewrite Hnd, Hl.
    rewrite <- (withProperties_same raw) at 1.
    rewrite transformers_loop.
    destruct (chain (t :: ts) raw (raw_properties raw)); [done|].
    by rewrite decide_True.
  - by rewrite Hts, Hp.
  - rewrite Hts, Hp. cbn [length Nat.ltb Nat.leb].
    pose proof (wf_parent g Hwf this nd p Hnd Hp) as Hpl.
    rewrite (IH fuel) by lia.
    destruct a as [a|]; [|by destruct (raw_properties raw)].
    pose proof (nearest_le g p a Hwf Hn) as Hle.
    destruct (chain (transformersOf g a) raw (raw_properties raw))
      as [e|result]; [done|].
    rewrite (decide_False (P := a = this)) by lia.
    destruct (decide (a = p)); destruct result; try done;
      by destruct (raw_properties raw).
Qed.

Section MemoProperties.
Context `{UserCode}.
Variable g : Registry.
Variable metaLogger : NodeId.
Hypothesis Hwf : wf g.

(** The record [rid0] was built by [_log] on the logger [this] with the
    head [hd0], the message [msg] and the properties argument [arg], when
    the events were [t1]. *)
Variable this : NodeId.
Variable nd : LoggerImpl.
Hypothesis Hnd : heap g !! this = Some nd.
Variable rid0 : RecId.
Variable hd0 : RecordHead.
Variable msg : string.
Variable arg : PropsArg.
Variable t1 : list Event.

(** The base record that the getter hands to [propTransform] when the
    properties argument evaluates to [argument]. *)
Definition raw0 (argument : Properties) : RawLogRecord :=
  {| raw_category := rcategory hd0;
     raw_level := rlevel hd0;
     raw_rawMessage := RawString msg;
     raw_timestamp := rtimestamp hd0;
     raw_properties := mergeProperties (properties nd) argument |}.

(** What the getter computes when it runs for the time number [i],
    counted from 0: the properties function, if there is one, was called
    [i] times by the runs before. *)
Definition attempt (i : nat) : Outcome Properties :=
  match arg with
  | PropsObject p => propTransform (ancestorFuel g) g this (raw0 (Some p))
  | PropsUndefined => propTransform (ancestorFuel g) g this (raw0 None)
  | PropsFunction c =>
      match propertiesCallback c (callsOf c t1 + i) with
      | inl e => Thrown e
      | inr p => propTransform (ancestorFuel g) g this (raw0 (Some p))
      end
  end.

(** The world once the properties argument is evaluated. *)
Definition afterArgument (w : World) : World :=
  match arg with
  | PropsFunction c => logEvent (EvPropertiesCallback c) w
  | _ => w
  end.

(** The state of the accessor after [j] reads in which the getter threw
    and [k] reads that returned.  The getter ran [j] times, or [j + 1]
    times when a read has returned, and the properties function was called
    once in each run.  While no read has returned the getter is in place;
    the first read that returns stores the value of run [j], and each read
    from then on returns that value.  The records allocated later do not
    depend on a callback. *)
Definition memo (w : World) : Prop :=
  (forall r rec, rid0 < r -> records w !! r = Some rec -> objectRecord rec) /\
  exists j k rec,
    (forall i, i < j -> exists e, attempt i = Thrown e) /\
    (forall c, callsOf c (trace w)
               = callsOf c t1 + argCalls arg c * (j + min k 1)) /\
    records w !! rid0 = Some rec /\
    head rec = hd0 /\
    match k with
    | 0 =>
        readsOf rid0 (trace w) = readsOf rid0 t1 /\
        propertiesCell rec = PropsGetter this msg arg
    | S _ =>
        exists value,
          attempt j = Normal value /\
          readsOf rid0 (trace w) = readsOf rid0 t1 ++ replicate k value /\
          propertiesCell rec = PropsValue value
    end.

(** The events that say nothing about [rid0.properties] or about
    callbacks. *)
Definition neutral (e : Event) : Prop :=
  match e with
  | EvGetProperties r _ => r <> rid0
  | EvPropertiesCallback _ => False
  | _ => True
  end.

Lemma readsOf_neutral (e : Event) (t : list Event) :
  neutral e -> readsOf rid0 (t ++ [e]) = readsOf rid0 t.
Proof.
  intros He. rewrite readsOf_snoc.
  destruct e; simpl in *; rewrite ?app_nil_r; try done.
  destruct (Nat.eqb_spec r rid0); [done|by rewrite app_nil_r].
Qed.

Lemma callsOf_neutral (c : CallbackId) (e : Event) (t : list Event) :
  neutral e -> callsOf c (t ++ [e]) = callsOf c t.
Proof.
  intros He. rewrite callsOf_snoc. destruct e; simpl in *; try done; lia.
Qed.

Lemma memo_logEvent (e : Event) (w : World) :
  neutral e -> memo w -> memo (logEvent e w).
Proof.
  intros He (Hobj & j & k & rec & Hfailed & Hcalls & Hrec & Hhd & Hstate).
  split; [done|]. exists j, k, rec. cbn [trace records logEvent].
  split; [done|]. split.
  { intros c. by rewrite callsOf_neutral. }
  split; [done|]. split; [done|].
  rewrite readsOf_neutral by done. done.
Qed.

Lemma memo_defineProperties (rid : RecId) (v : Properties) (w : World) :
  rid0 < rid -> memo w -> memo (defineProperties rid v w).
Proof.
  intros Hlt (Hobj & j & k & rec & Hfailed & Hcalls & Hrec & Hhd & Hstate).
  split.
  - intros r rec' Hr. simpl. rewrite list_lookup_alter.
    case_decide as Heq.
    + destruct (records w !! rid); simpl; [|done]. by intros [= <-].
    + by apply Hobj.
  - exists j, k, rec. cbn [trace records defineProperties].
    rewrite list_lookup_alter_ne by lia. done.
Qed.

Lemma memo_defineMessage (rid : RecId) (m : list Value) (raw : RawMessage)
    (w : World) :
  memo w -> memo (defineMessage rid m raw w).
Proof.
  intros (Hobj & j & k & rec & Hfailed & Hcalls & Hrec & Hhd & Hstate).
  split.
  - intros r rec' Hr. simpl. rewrite list_lookup_alter.
    case_decide as Heq; [|by apply Hobj]. subst r.
    destruct (records w !! rid) as [rec0|] eqn:Hrec0; simpl; [|done].
    intros [= <-]. specialize (Hobj rid rec0 Hr Hrec0). done.
  - cbn [trace records defineMessage]. rewrite list_lookup_alter.
    case_decide as Heq.
    + subst rid. rewrite Hrec. cbn [fmap option_fmap option_map].
      eexists j, k, _. split; [done|]. split; [done|]. split; [done|].
      split; [done|]. done.
    + exists j, k, rec. done.
Qed.

Lemma memo_allocRecord (rec : LogRecord) (w : World) :
  objectRecord rec -> memo w ->
  memo (allocRecord rec w) /\ rid0 < length (records w).
Proof.
  intros Hrecobj
    (Hobj & j & k & rec0 & Hfailed & Hcalls & Hrec & Hhd & Hstate).
  pose proof (lookup_lt_Some _ _ _ Hrec) as Hlt.
  split; [|done]. split.
  - intros r rec' Hr. simpl.
    intros [Hold|[_ Hnew]]%lookup_app_Some; [by eapply Hobj|].
    destruct (r - length (records w)); simplify_eq/=. done.
  - exists j, k, rec0. cbn [trace records allocRecord].
    split; [done|]. split; [done|]. split; [by apply lookup_app_l_Some|].
    done.
Qed.

Lemma replicate_snoc {A : Type} (k : nat) (x : A) :
  replicate k x ++ [x] = replicate (S k) x.
Proof. induction k as [|k IH]; [done|]. simpl. by rewrite IH. Qed.

Lemma attempt_returns (i : nat) : attempt i <> OutOfFuel.
Proof.
  unfold attempt.
  destruct arg as [p|c|]; [|destruct (propertiesCallback c _)|]; try done;
    by apply propTransform_ancestorFuel.
Qed.

(** A run of the getter when the properties function was called [i]
    times by the runs before. *)
Lemma getProperties_attempt (i : nat) (w : World) :
  (forall c, callsOf c (trace w) = callsOf c t1 + argCalls arg c * i) ->
  getProperties g this nd hd0 msg arg w = (attempt i, afterArgument w).
Proof.
  intros Hcalls. unfold getProperties, evalPropsArg, attempt, afterArgument.
  destruct arg as [p|c|]; [done| |done].
  fold (callsOf c (trace w)). rewrite Hcalls. simpl.
  rewrite Nat.eqb_refl.
  replace (callsOf c t1 + 1 * i) with (callsOf c t1 + i) by lia.
  by destruct (propertiesCallback c _).
Qed.

Lemma afterArgument_world (w : World) :
  records (afterArgument w) = records w /\
  readsOf rid0 (trace (afterArgument w)) = readsOf rid0 (trace w) /\
  forall c, callsOf c (trace (afterArgument w))
            = callsOf c (trace w) + argCalls arg c.
Proof.
  unfold afterArgument. destruct arg as [p|c|]; simpl.
  - split; [done|]. split; [done|]. intros c. lia.
  - split; [done|]. split; [by rewrite readsOf_snoc, app_nil_r|].
    intros c'. by rewrite callsOf_snoc.
  - split; [done|]. split; [done|]. intros c. lia.
Qed.

(** Reading the properties of the record, or of a later record. *)
Lemma memo_readProperties (rid : RecId) (w : World) :
  rid = rid0 \/ rid0 < rid -> memo w -> memo (readProperties g rid w).2.
Proof.
  intros [->|Hlt] Hmemo.
  - (* the record itself *)
    destruct Hmemo
      as (Hobj & j & k & rec & Hfailed & Hcalls & Hrec & Hhd & Hstate).
    unfold readProperties. rewrite Hrec. destruct k as [|k].
    + (* the getter runs *)
      destruct Hstate as [Hreads Hcell].
      rewrite Hcell, Hnd, Hhd, (getProperties_attempt j)
        by (intros c; rewrite Hcalls; lia).
      destruct (afterArgument_world w) as (Hrecords1 & Hreads1 & Hcalls1).
      pose proof (attempt_returns j) as Hreturns.
      destruct (attempt j) as [value|e|] eqn:Hattempt; [| |done];
        cbn [snd].
      * (* it returns: the value is stored *)
        split.
        { intros r rec' Hr. simpl. rewrite list_lookup_alter_ne by lia.
          rewrite Hrecords1. by apply Hobj. }
        eexists j, 1, _. cbn [trace records logEvent defineProperties].
        split; [done|]. split.
        { intros c. rewrite callsOf_snoc, Hcalls1, Hcalls. simpl. lia. }
        split.
        { rewrite list_lookup_alter_eq, Hrecords1, Hrec. done. }
        split; [done|]. exists value. split; [done|]. split; [|done].
        rewrite readsOf_snoc, Hreads1, Hreads. simpl.
        by rewrite Nat.eqb_refl.
      * (* it throws: the getter stays *)
        split.
        { intros r rec' Hr. rewrite Hrecords1. by apply Hobj. }
        exists (S j), 0, rec. split.
        { intros i Hi. destruct (decide (i = j)) as [->|Hne];
            [by eexists|]. apply Hfailed. lia. }
        split.
        { intros c. rewrite Hcalls1, Hcalls. lia. }
        rewrite Hrecords1, Hreads1. done.
    + (* a later read returns the stored value *)
      destruct Hstate as (value & Hattempt & Hreads & Hcell).
      rewrite Hcell. cbn [snd]. split; [done|].
      exists j, (S (S k)), rec. cbn [trace records logEvent].
      split; [done|]. split.
      { intros c. rewrite callsOf_snoc, Hcalls. simpl. lia. }
      split; [done|]. split; [done|]. exists value.
      split; [done|]. split; [|done].
      rewrite readsOf_snoc, Hreads. simpl. rewrite Nat.eqb_refl.
      rewrite <- app_assoc. f_equal. simpl. f_equal.
      apply (replicate_snoc k value).
  - (* a later record *)
    unfold readProperties.
    destruct (records w !! rid) as [rec'|] eqn:Hrec'; [|done].
    pose proof (proj1 Hmemo rid rec' Hlt Hrec') as Hobject.
    unfold objectRecord in Hobject.
    destruct (propertiesCell rec') as [p|logger m a].
    { simpl. apply memo_logEvent; [simpl; lia|done]. }
    destruct (heap g !! logger) as [nd'|]; [|done].
    destruct a as [p|c|]; [|done|]; unfold getProperties, evalPropsArg;
      match goal with
      | |- context [propTransform ?f g logger ?raw] =>
          destruct (propTransform f g logger raw)
      end; simpl; try done;
      (apply memo_logEvent; [simpl; lia|]);
      by apply memo_defineProperties.
Qed.

Lemma memo_readMessage (rid : RecId) (w : World) :
  memo w -> memo (readMessage rid w).2.
Proof.
  intros Hmemo. unfold readMessage, realizeMessage.
  destruct (records w !! rid) as [rec'|]; [|done].
  destruct (messageCell rec') as [m raw|c].
  { simpl. by apply memo_logEvent. }
  destruct (logCallback c _) as [[tpl values]|]; simpl.
  - apply memo_logEvent; [done|]. apply memo_defineMessage.
    by apply memo_logEvent.
  - by apply memo_logEvent.
Qed.

Lemma memo_readRawMessage (rid : RecId) (w : World) :
  memo w -> memo (readRawMessage rid w).2.
Proof.
  intros Hmemo. unfold readRawMessage, realizeMessage.
  destruct (records w !! rid) as [rec'|]; [|done].
  destruct (messageCell rec') as [m raw|c].
  { simpl. by apply memo_logEvent. }
  destruct (logCallback c _) as [[tpl values]|]; simpl.
  - apply memo_logEvent; [done|]. apply memo_defineMessage.
    by apply memo_logEvent.
  - by apply memo_logEvent.
Qed.

(** Emission of the record, or of a later record, keeps the accessor
    memoized. *)
Lemma memo_emit (fuel : nat) (node : NodeId) (rid : RecId)
    (bypass : option (gset SinkId)) (w : World) :
  rid = rid0 \/ rid0 < rid -> memo w ->
  memo (emit g metaLogger fuel node rid bypass w).2.
Proof.
  intros Hok Hmemo.
  apply (emit_inv g metaLogger memo (fun rid => rid = rid0 \/ rid0 < rid)
           (fun _ => True)); try done.
  - apply memo_readProperties.
  - intros rid' w' _. apply memo_readMessage.
  - intros rid' w' _. apply memo_readRawMessage.
  - intros node' index rid' w'. by apply memo_logEvent.
  - intros s rid' w' _ _. by apply memo_logEvent.
  - intros md sink error rid' w' Hmd Hw'.
    destruct (memo_allocRecord
                (eagerRecord md metaLogger "fatal" failureMessage
                   (PropsObject (failureProperties sink error rid')) w')
                w') as [Halloc Hlt]; [done|done|].
    split; [done|]. by right.
Qed.

End MemoProperties.

(** A filter that decides without reading an accessor of the record. *)
Definition headOnly (f : Filter) : Prop :=
  forall hd, match f hd with
             | Ret _ | Throw _ => True
             | _ => False
             end.

Lemma getLevelFilter_headOnly (l : option string) (f : Filter) :
  getLevelFilter l = inr f -> headOnly f.
Proof.
  unfold getLevelFilter. destruct l as [l|]; [|by intros [= <-] hd].
  destruct (String.eqb l "debug"); [by intros [= <-] hd|].
  destruct (getLevelIndex l) as [e|i]; [done|].
  intros [= <-] hd. by destruct (getLevelIndex (rlevel hd)).
Qed.

Section HeadOnly.
Context `{UserCode}.
Variable g : Registry.
Hypothesis HheadOnly :
  forall n nd f, heap g !! n = Some nd -> f ∈ filters nd -> headOnly f.

(** What is left of the world when the events that are calls of filters
    are dropped. *)
Definition sameButFilterCalls (w w' : World) : Prop :=
  records w' = records w /\
  exists evs, trace w' = trace w ++ evs /\
              Forall (fun e => match e with
                               | EvFilter _ _ _ => True
                               | _ => False
                               end) evs.

Lemma sameButFilterCalls_refl (w : World) : sameButFilterCalls w w.
Proof. split; [done|]. exists []. by rewrite app_nil_r. Qed.

Lemma sameButFilterCalls_trans (w1 w2 w3 : World) :
  sameButFilterCalls w1 w2 -> sameButFilterCalls w2 w3 ->
  sameButFilterCalls w1 w3.
Proof.
  intros [Hr12 (e12 & Ht12 & H12)] [Hr23 (e23 & Ht23 & H23)].
  split; [congruence|]. exists (e12 ++ e23).
  split; [by rewrite Ht23, Ht12, app_assoc|]. by apply Forall_app.
Qed.

Lemma callFilter_headOnly (this : NodeId) (i : nat) (f : Filter) (rid : RecId)
    (w : World) :
  headOnly f -> sameButFilterCalls w (callFilter g this i f rid w).2.
Proof.
  intros Hf. unfold callFilter, callOn. simpl.
  assert (sameButFilterCalls w (logEvent (EvFilter this i rid) w)) as Hlog.
  { split; [done|]. exists [EvFilter this i rid]. split; [done|].
    by repeat constructor. }
  destruct (records w !! rid) as [r|]; [|done].
  specialize (Hf (head r)). by destruct (f (head r)).
Qed.

Lemma filterLoop_headOnly (this : NodeId) (rid : RecId) (fs : list Filter) :
  Forall headOnly fs ->
  forall i w, sameButFilterCalls w (filterLoop g this i fs rid w).2.
Proof.
  induction 1 as [|f fs Hf _ IH]; intros i w; simpl;
    [apply sameButFilterCalls_refl|].
  pose proof (callFilter_headOnly this i f rid w Hf) as Hcall.
  destruct (callFilter g this i f rid w) as [[[|]| |] w1]; simpl in Hcall;
    try done.
  eapply sameButFilterCalls_trans; [exact Hcall|apply IH].
Qed.

Lemma filter_headOnly (rid : RecId) :
  forall fuel this w, sameButFilterCalls w (filter g fuel this rid w).2.
Proof.
  induction fuel as [|fuel IH]; intros this w;
    [apply sameButFilterCalls_refl|].
  rewrite filter_unfold.
  destruct (heap g !! this) as [nd|] eqn:Hnd;
    [|apply sameButFilterCalls_refl].
  assert (Forall headOnly (filters nd)) as Hfs.
  { apply Forall_forall. intros f Hf. by eapply HheadOnly. }
  pose proof (filterLoop_headOnly this rid (filters nd) Hfs 0 w) as Hloop.
  destruct (filterLoop g this 0 (filters nd) rid w) as [[[|]| |] w1];
    simpl in Hloop; try done.
  destruct (length (filters nd) <? 1)%nat; [|done].
  destruct (parent nd); [|done].
  eapply sameButFilterCalls_trans; [exact Hloop|apply IH].
Qed.

Lemma sameButFilterCalls_observations (w w' : World) :
  sameButFilterCalls w w' ->
  sinkCalls (trace w') = sinkCalls (trace w) /\
  (forall c, callsOf c (trace w') = callsOf c (trace w)) /\
  (forall c, countEvents (isLogCallback c) (trace w')
             = countEvents (isLogCallback c) (trace w)) /\
  (forall rid, readsOf rid (trace w') = readsOf rid (trace w)).
Proof.
  intros [_ (evs & -> & Hevs)].
  assert (sinkCalls evs = [] /\
          (forall c, callsOf c evs = 0) /\
          (forall c, countEvents (isLogCallback c) evs = 0) /\
          (forall rid, readsOf rid evs = [])) as (H1 & H2 & H3 & H4).
  { induction Hevs as [|e evs He _ (IH1 & IH2 & IH3 & IH4)]; [done|].
    destruct e; try done. }
  unfold sinkCalls, callsOf, readsOf in *.
  setoid_rewrite countEvents_app. setoid_rewrite omap_app.
  rewrite H1. setoid_rewrite H2. setoid_rewrite H3. setoid_rewrite H4.
  setoid_rewrite app_nil_r. setoid_rewrite Nat.add_0_r. done.
Qed.

End HeadOnly.

(** *** Lazily computed messages *)

(** The values that the reads of [rid.message] and of [rid.rawMessage]
    returned, and the number of calls of the message callback [c]. *)
Definition messageReads (rid : RecId) (t : list Event) : list (list Value) :=
  omap (fun e => match e with
                 | EvGetMessage r m => if Nat.eqb r rid then Some m else None
                 | _ => None
                 end) t.

Definition rawReads (rid : RecId) (t : list Event) : list RawMessage :=
  omap (fun e => match e with
                 | EvGetRawMessage r m =>
                     if Nat.eqb r rid then Some m else None
                 | _ => None
                 end) t.

Definition logCallsOf (c : CallbackId) (t : list Event) : nat :=
  countEvents (isLogCallback c) t.

(** A record whose message is plain data. *)
Definition valueRecord (rec : LogRecord) : Prop :=
  match messageCell rec with
  | MsgValue _ _ => True
  | MsgGetter _ => False
  end.

Lemma logCallsOf_snoc (c : CallbackId) (t : list Event) (e : Event) :
  logCallsOf c (t ++ [e]) = logCallsOf c t + (if isLogCallback c e then 1 else 0).
Proof.
  unfold logCallsOf. rewrite countEvents_app. f_equal.
  unfold countEvents. simpl. by destruct (isLogCallback c e).
Qed.

Lemma messageReads_snoc (rid : RecId) (t : list Event) (e : Event) :
  messageReads rid (t ++ [e])
  = messageReads rid t ++
    match e with
    | EvGetMessage r m => if Nat.eqb r rid then [m] else []
    | _ => []
    end.
Proof.
  unfold messageReads. rewrite omap_app. f_equal.
  destruct e; simpl; try done. by destruct (Nat.eqb _ _).
Qed.

Lemma rawReads_snoc (rid : RecId) (t : list Event) (e : Event) :
  rawReads rid (t ++ [e])
  = rawReads rid t ++
    match e with
    | EvGetRawMessage r m => if Nat.eqb r rid then [m] else []
    | _ => []
    end.
Proof.
  unfold rawReads. rewrite omap_app. f_equal.
  destruct e; simpl; try done. by destruct (Nat.eqb _ _).
Qed.

Section MemoMessage.
Context `{UserCode}.
Variable g : Registry.
Variable metaLogger : NodeId.

(** The record [rid0] was built by [logLazily] around the callback [c]
    when the events were [t1], and the call of [c] that is due applies the
    prefix function to [tpl] and [values]. *)
Variable rid0 : RecId.
Variable c : CallbackId.
Variable t1 : list Event.
Variable tpl : list string.
Variable values : list Value.
Hypothesis Hcallback : logCallback c (logCallsOf c t1) = Some (tpl, values).

(** The state of the memoized pair of accessors after [km] reads of
    [message] and [kr] reads of [rawMessage]. *)
Definition memoMessage (w : World) : Prop :=
  (forall r rec, rid0 < r -> records w !! r = Some rec -> valueRecord rec) /\
  exists km kr rec,
    messageReads rid0 (trace w)
    = messageReads rid0 t1 ++ replicate km (renderMessage tpl values) /\
    rawReads rid0 (trace w)
    = rawReads rid0 t1 ++ replicate kr (RawTemplate tpl) /\
    (forall c', logCallsOf c' (trace w)
                = logCallsOf c' t1 +
                  (if Nat.eqb c c' then min (km + kr) 1 else 0)) /\
    records w !! rid0 = Some rec /\
    messageCell rec
    = (if decide (km + kr = 0) then MsgGetter c
       else MsgValue (renderMessage tpl values) (RawTemplate tpl)).

Definition neutralMessage (e : Event) : Prop :=
  match e with
  | EvGetMessage r _ | EvGetRawMessage r _ => r <> rid0
  | EvLogCallback _ => False
  | _ => True
  end.

Lemma memoMessage_logEvent (e : Event) (w : World) :
  neutralMessage e -> memoMessage w -> memoMessage (logEvent e w).
Proof.
  intros He (Hobj & km & kr & rec & Hm & Hr & Hcalls & Hrec & Hcell).
  split; [done|]. exists km, kr, rec. simpl. repeat split; try done.
  - rewrite messageReads_snoc, Hm.
    destruct e; simpl in *; rewrite ?app_nil_r; try done.
    destruct (Nat.eqb_spec r rid0); [done|by rewrite app_nil_r].
  - rewrite rawReads_snoc, Hr.
    destruct e; simpl in *; rewrite ?app_nil_r; try done.
    destruct (Nat.eqb_spec r rid0); [done|by rewrite app_nil_r].
  - intros c'. rewrite logCallsOf_snoc, Hcalls.
    destruct e; simpl in *; try done; lia.
Qed.

Lemma memoMessage_defineProperties (rid : RecId) (v : Properties)
    (w : World) :
  memoMessage w -> memoMessage (defineProperties rid v w).
Proof.
  intros (Hobj & km & kr & rec & Hm & Hr & Hcalls & Hrec & Hcell).
  split.
  - intros r rec' Hlt. simpl. rewrite list_lookup_alter.
    destruct (decide (rid = r)) as [<-|Hne]; [|by apply Hobj].
    destruct (records w !! rid) as [rec0|] eqn:Hrec0; simpl; [|done].
    intros [= <-]. specialize (Hobj rid rec0 Hlt Hrec0). done.
  - simpl. rewrite list_lookup_alter.
    destruct (decide (rid = rid0)) as [->|Hne].
    + rewrite Hrec. simpl. eexists km, kr, _.
      repeat split; try done.
    + exists km, kr, rec. repeat split; done.
Qed.

Lemma memoMessage_allocRecord (rec : LogRecord) (w : World) :
  valueRecord rec -> memoMessage w ->
  memoMessage (allocRecord rec w) /\ rid0 < length (records w).
Proof.
  intros Hvalue (Hobj & km & kr & rec0 & Hm & Hr & Hcalls & Hrec & Hcell).
  pose proof (lookup_lt_Some _ _ _ Hrec) as Hlt.
  split; [|done]. split.
  - intros r rec' Hr'. simpl.
    intros [Hold|[_ Hnew]]%lookup_app_Some; [by eapply Hobj|].
    destruct (r - length (records w)); simplify_eq/=. done.
  - exists km, kr, rec0. simpl. repeat split; try done.
    by apply lookup_app_l_Some.
Qed.

Lemma memoMessage_readProperties (rid : RecId) (w : World) :
  memoMessage w -> memoMessage (readProperties g rid w).2.
Proof.
  intros Hmemo.
  destruct (readProperties_world g rid w) as (w1 & Hw1 & Hresult).
  assert (memoMessage w1) as Hmemo1.
  { destruct Hw1 as [->|[c' ->]]; [done|by apply memoMessage_logEvent]. }
  destruct Hresult as [->|[v [->| ->]]]; [done| |].
  - by apply memoMessage_logEvent.
  - apply memoMessage_logEvent; [done|].
    by apply memoMessage_defineProperties.
Qed.

(** The first read of either accessor calls the callback and stores both
    values. *)
Lemma memoMessage_realize (w : World) (km kr : nat) (rec : LogRecord) :
  (forall r rec, rid0 < r -> records w !! r = Some rec -> valueRecord rec) ->
  messageReads rid0 (trace w) = messageReads rid0 t1 ->
  rawReads rid0 (trace w) = rawReads rid0 t1 ->
  (forall c', logCallsOf c' (trace w) = logCallsOf c' t1) ->
  records w !! rid0 = Some rec ->
  realizeMessage rid0 c w
  = (Normal (renderMessage tpl values, RawTemplate tpl),
     defineMessage rid0 (renderMessage tpl values) (RawTemplate tpl)
                   (logEvent (EvLogCallback c) w)) /\
  forall e,
    e = EvGetMessage rid0 (renderMessage tpl values) /\ km = 1 /\ kr = 0 \/
    e = EvGetRawMessage rid0 (RawTemplate tpl) /\ km = 0 /\ kr = 1 ->
    memoMessage
      (logEvent e
         (defineMessage rid0 (renderMessage tpl values) (RawTemplate tpl)
                        (logEvent (EvLogCallback c) w))).
Proof.
  intros Hobj Hm Hr Hcalls Hrec. split.
  { unfold realizeMessage. fold (logCallsOf c (trace w)).
    by rewrite Hcalls, Hcallback. }
  intros e He. split.
  - intros r rec' Hlt. simpl.
    rewrite list_lookup_alter_ne by lia. by apply Hobj.
  - eexists km, kr, _. simpl.
    rewrite messageReads_snoc, rawReads_snoc.
    rewrite messageReads_snoc, rawReads_snoc. simpl.
    rewrite !app_nil_r, Hm, Hr.
    split; [|split; [|split; [|split]]].
    + destruct He as [(-> & -> & ->)|(-> & -> & ->)]; simpl;
        by rewrite ?Nat.eqb_refl, ?app_nil_r.
    + destruct He as [(-> & -> & ->)|(-> & -> & ->)]; simpl;
        by rewrite ?Nat.eqb_refl, ?app_nil_r.
    + intros c'. rewrite !logCallsOf_snoc, Hcalls. simpl.
      destruct He as [(-> & -> & ->)|(-> & -> & ->)]; simpl;
        destruct (Nat.eqb c c'); lia.
    + rewrite list_lookup_alter_eq, Hrec. done.
    + simpl. destruct He as [(_ & -> & ->)|(_ & -> & ->)]; done.
Qed.

Lemma memoMessage_readMessage (rid : RecId) (w : World) :
  rid = rid0 \/ rid0 < rid -> memoMessage w ->
  memoMessage (readMessage rid w).2.
Proof.
  intros [->|Hlt] Hmemo.
  - destruct Hmemo as (Hobj & km & kr & rec & Hm & Hr & Hcalls & Hrec & Hcell).
    unfold readMessage. rewrite Hrec, Hcell. case_decide as Hzero.
    + assert (km = 0 /\ kr = 0) as [-> ->] by lia.
      rewrite app_nil_r in Hm, Hr.
      destruct (memoMessage_realize w 1 0 rec Hobj Hm Hr) as [-> Hnext];
        [|done|].
      { intros c'. rewrite Hcalls. destruct (Nat.eqb c c'); simpl; lia. }
      simpl. apply Hnext. by left.
    + simpl. split; [done|]. exists (S km), kr, rec. simpl.
      repeat split; try done.
      * rewrite messageReads_snoc, Hm. simpl. rewrite Nat.eqb_refl.
        rewrite <- app_assoc. f_equal. apply replicate_snoc.
      * by rewrite rawReads_snoc, Hr, app_nil_r.
      * intros c'. rewrite logCallsOf_snoc, Hcalls. simpl.
        destruct (Nat.eqb c c'); lia.
  - unfold readMessage.
    destruct (records w !! rid) as [rec'|] eqn:Hrec'; [|done].
    pose proof (proj1 Hmemo rid rec' Hlt Hrec') as Hvalue.
    unfold valueRecord in Hvalue.
    destruct (messageCell rec') as [m raw|c']; [|done].
    simpl. apply memoMessage_logEvent; [simpl; lia|done].
Qed.

Lemma memoMessage_readRawMessage (rid : RecId) (w : World) :
  rid = rid0 \/ rid0 < rid -> memoMessage w ->
  memoMessage (readRawMessage rid w).2.
Proof.
  intros [->|Hlt] Hmemo.
  - destruct Hmemo as (Hobj & km & kr & rec & Hm & Hr & Hcalls & Hrec & Hcell).
    unfold readRawMessage. rewrite Hrec, Hcell. case_decide as Hzero.
    + assert (km = 0 /\ kr = 0) as [-> ->] by lia.
      rewrite app_nil_r in Hm, Hr.
      destruct (memoMessage_realize w 0 1 rec Hobj Hm Hr) as [-> Hnext];
        [|done|].
      { intros c'. rewrite Hcalls. destruct (Nat.eqb c c'); simpl; lia. }
      simpl. apply Hnext. by right.
    + simpl. split; [done|]. exists km, (S kr), rec. simpl.
      repeat split; try done.
      * by rewrite messageReads_snoc, Hm, app_nil_r.
      * rewrite rawReads_snoc, Hr. simpl. rewrite Nat.eqb_refl.
        rewrite <- app_assoc. f_equal. apply replicate_snoc.
      * intros c'. rewrite logCallsOf_snoc, Hcalls. simpl.
        destruct (Nat.eqb c c'); lia.
      * rewrite Hcell. by rewrite !decide_False by lia.
  - unfold readRawMessage.
    destruct (records w !! rid) as [rec'|] eqn:Hrec'; [|done].
    pose proof (proj1 Hmemo rid rec' Hlt Hrec') as Hvalue.
    unfold valueRecord in Hvalue.
    destruct (messageCell rec') as [m raw|c']; [|done].
    simpl. apply memoMessage_logEvent; [simpl; lia|done].
Qed.

Lemma memoMessage_emit (fuel : nat) (node : NodeId) (rid : RecId)
    (bypass : option (gset SinkId)) (w : World) :
  rid = rid0 \/ rid0 < rid -> memoMessage w ->
  memoMessage (emit g metaLogger fuel node rid bypass w).2.
Proof.
  intros Hok Hmemo.
  apply (emit_inv g metaLogger memoMessage
           (fun rid => rid = rid0 \/ rid0 < rid) (fun _ => True)); try done.
  - intros rid' w' _. apply memoMessage_readProperties.
  - apply memoMessage_readMessage.
  - apply memoMessage_readRawMessage.
  - intros node' index rid' w'. by apply memoMessage_logEvent.
  - intros s rid' w' _ _. by apply memoMessage_logEvent.
  - intros md sink error rid' w' Hmd Hw'.
    destruct (memoMessage_allocRecord
                (eagerRecord md metaLogger "fatal" failureMessage
                   (PropsObject (failureProperties sink error rid')) w')
                w') as [Halloc Hlt]; [done|done|].
    split; [done|]. by right.
Qed.

End MemoMessage.

(** *** Lazy evaluation *)

Section LazyEvaluation.
Context `{UserCode}.
Variable g : Registry.
Variable metaLogger : NodeId.
Hypothesis Hwf : wf g.
Variable this : NodeId.
Variable nd : LoggerImpl.
Hypothesis Hnd : heap g !! this = Some nd.

Lemma log_unfold (fuel : nat) (level msg : string) (arg : PropsArg)
    (bypass : option (gset SinkId)) (w : World) :
  _log g metaLogger fuel this level msg arg bypass w
  = emit g metaLogger fuel this (length (records w)) bypass
         (allocRecord (eagerRecord nd this level msg arg w) w).
Proof. unfold _log, logWith. by rewrite Hnd. Qed.

(** The getter of the record that [_log] builds is run by the reads of
    [properties] until one of them returns, and by nothing else, and
    every read that returns gives the value that the first of them
    computed. *)
Lemma log_memo (fuel : nat) (level msg : string) (arg : PropsArg)
    (bypass : option (gset SinkId)) (w : World) :
  memo g this nd (length (records w))
       (head (eagerRecord nd this level msg arg w)) msg arg (trace w)
       (_log g metaLogger fuel this level msg arg bypass w).2.
Proof.
  rewrite log_unfold.
  apply (memo_emit g metaLogger Hwf this nd Hnd); [by left|].
  split.
  - intros r rec Hlt. simpl. intros Hr%lookup_lt_Some.
    rewrite length_app in Hr. simpl in Hr. lia.
  - exists 0, 0, (eagerRecord nd this level msg arg w).
    split; [intros i Hi; lia|]. split; [intros c; simpl; lia|].
    split; [by apply list_lookup_middle|]. done.
Qed.

Lemma log_rejected (fuel : nat) (level msg : string) (arg : PropsArg)
    (bypass : option (gset SinkId)) (w w2 : World) :
  filter g (ancestorFuel g) this (length (records w))
         (allocRecord (eagerRecord nd this level msg arg w) w)
  = (Normal false, w2) ->
  _log g metaLogger (S fuel) this level msg arg bypass w = (Normal tt, w2).
Proof. intros Hfilter. by rewrite log_unfold, emit_unfold, Hfilter. Qed.

Lemma logLazily_unfold (fuel : nat) (level : string) (c : CallbackId)
    (props : option PropertiesObj) (w : World) :
  logLazily g metaLogger fuel this level c props w
  = emit g metaLogger fuel this (length (records w)) None
         (allocRecord
            {| head := {| rcategory := category nd;
                          rlevel := level;
                          rtimestamp := now (length (records w)) |};
               messageCell := MsgGetter c;
               propertiesCell :=
                 PropsValue (mergeProperties (properties nd)
                                             (Some (default ∅ props))) |}
            w).
Proof. unfold logLazily. by rewrite Hnd. Qed.

Lemma logLazily_memo (fuel : nat) (level : string) (c : CallbackId)
    (props : option PropertiesObj) (w : World) (tpl : list string)
    (values : list Value) :
  logCallback c (logCallsOf c (trace w)) = Some (tpl, values) ->
  memoMessage (length (records w)) c (trace w) tpl values
              (logLazily g metaLogger fuel this level c props w).2.
Proof.
  intros Hcallback. rewrite logLazily_unfold.
  apply (memoMessage_emit g metaLogger (length (records w)) c (trace w)
           tpl values Hcallback); [by left|].
  split.
  - intros r rec Hlt. simpl. intros Hr%lookup_lt_Some.
    rewrite length_app in Hr. simpl in Hr. lia.
  - eexists 0, 0, _. simpl. rewrite !app_nil_r.
    split; [done|]. split; [done|]. split; [|split].
    + intros c'. destruct (Nat.eqb c c'); lia.
    + by apply list_lookup_middle.
    + done.
Qed.

End LazyEvaluation.

(** C2, as the code has it: the value-producing callback of a log call is
    run by reads of the accessor it stands behind ([properties] for an
    eager call with a properties function, [message] or [rawMessage] for a
    lazy call with a well-behaved callback), made by a filter or by a sink,
    and by nothing else.  The getter of [properties] replaces itself by
    the value only when it returns: a read in which the properties
    function or a properties transformer throws stores nothing, so the
    next read runs the getter, and the properties function, again.  With
    [j] reads that threw and [k] reads that returned, the properties
    function was called [j] times, or [j + 1] times when [k] is not 0, and
    the [k] reads returned one and the same value.  When no run of the
    getter throws, the function is called at most once per call, not at
    all if nothing reads the accessor.  A rejected record reaches no sink,
    and when the filters decide without reading the accessor, as level
    filters do, the callback of a rejected record is not called. *)
Theorem lazy_evaluation `{UserCode} (g : Registry) (metaLogger this : NodeId)
    (nd : LoggerImpl) :
  wf g -> heap g !! this = Some nd ->
  (forall level msg arg fuel w,
      let rid := length (records w) in
      let result := log g metaLogger fuel this level (LogString msg arg) w in
      let computed :=
        attempt g this nd (head (eagerRecord nd this level msg arg w))
                msg arg (trace w) in
      exists j k,
        (forall i, i < j -> exists e, computed i = Thrown e) /\
        (forall c, callsOf c (trace result.2)
                   = callsOf c (trace w) + argCalls arg c * (j + min k 1)) /\
        match k with
        | 0 => readsOf rid (trace result.2) = readsOf rid (trace w)
        | S _ =>
            exists value,
              computed j = Normal value /\
              readsOf rid (trace result.2)
              = readsOf rid (trace w) ++ replicate k value
        end) /\
  (forall level msg arg fuel w,
      let rid := length (records w) in
      let result := log g metaLogger fuel this level (LogString msg arg) w in
      (forall i e,
          attempt g this nd (head (eagerRecord nd this level msg arg w))
                  msg arg (trace w) i <> Thrown e) ->
      exists k value,
        readsOf rid (trace result.2)
        = readsOf rid (trace w) ++ replicate k value /\
        forall c, callsOf c (trace result.2)
                  = callsOf c (trace w) + argCalls arg c * min k 1) /\
  (forall level c fuel w tpl values,
      logCallback c (logCallsOf c (trace w)) = Some (tpl, values) ->
      let rid := length (records w) in
      let result := log g metaLogger fuel this level (LogLazy c) w in
      exists km kr,
        messageReads rid (trace result.2)
        = messageReads rid (trace w)
          ++ replicate km (renderMessage tpl values) /\
        rawReads rid (trace result.2)
        = rawReads rid (trace w) ++ replicate kr (RawTemplate tpl) /\
        forall c', logCallsOf c' (trace result.2)
                   = logCallsOf c' (trace w)
                     + (if Nat.eqb c c' then min (km + kr) 1 else 0)) /\
  (forall level call fuel w w2,
      let rid := length (records w) in
      let record :=
        match call with
        | LogString msg arg => eagerRecord nd this level msg arg w
        | LogLazy c =>
            {| head := {| rcategory := category nd; rlevel := level;
                          rtimestamp := now (length (records w)) |};
               messageCell := MsgGetter c;
               propertiesCell :=
                 PropsValue (mergeProperties (properties nd) (Some ∅)) |}
        | LogTemplate tpl values =>
            {| head := {| rcategory := category nd; rlevel := level;
                          rtimestamp := now (length (records w)) |};
               messageCell := MsgValue (renderMessage tpl values)
                                       (RawTemplate tpl);
               propertiesCell :=
                 PropsValue (mergeProperties (properties nd) (Some ∅)) |}
        end in
      filter g (ancestorFuel g) this rid (allocRecord record w)
      = (Normal false, w2) ->
      log g metaLogger (S fuel) this level call w = (Normal tt, w2) /\
      ((forall n nd' f, heap g !! n = Some nd' -> f ∈ filters nd' ->
                        headOnly f) ->
       sinkCalls (trace w2) = sinkCalls (trace w) /\
       (forall c, callsOf c (trace w2) = callsOf c (trace w)) /\
       (forall c, logCallsOf c (trace w2) = logCallsOf c (trace w)))).
Proof.
  intros Hwf Hnd. split; [|split; [|split]].
  - intros level msg arg fuel w rid result computed. unfold result, log.
    destruct (log_memo g metaLogger Hwf this nd Hnd fuel level msg arg None w)
      as (_ & j & k & rec & Hfailed & Hcalls & _ & _ & Hstate).
    exists j, k. split; [done|]. split; [done|].
    destruct k as [|k]; [by destruct Hstate|].
    destruct Hstate as (value & Hvalue & Hreads & _). by exists value.
  - intros level msg arg fuel w rid result Hnothrow. unfold result, log.
    destruct (log_memo g metaLogger Hwf this nd Hnd fuel level msg arg None w)
      as (_ & j & k & rec & Hfailed & Hcalls & _ & _ & Hstate).
    assert (j = 0) as ->.
    { destruct j as [|j]; [done|].
      destruct (Hfailed 0) as [e He]; [lia|]. by destruct (Hnothrow 0 e). }
    destruct k as [|k].
    + destruct Hstate as [Hreads _]. exists 0, None.
      split; [by rewrite app_nil_r|]. intros c. rewrite Hcalls. lia.
    + destruct Hstate as (value & _ & Hreads & _). exists (S k), value.
      split; [done|]. intros c. rewrite Hcalls. lia.
  - intros level c fuel w tpl values Hcallback rid result.
    unfold result, log.
    destruct (logLazily_memo g metaLogger this nd Hnd fuel level c None w
                tpl values Hcallback)
      as (_ & km & kr & rec & Hm & Hr & Hcalls & _).
    by exists km, kr.
  - intros level call fuel w w2 rid record Hfilter. split.
    + subst rid record. unfold log. destruct call as [msg arg|c|tpl values].
      * by apply (log_rejected g metaLogger this nd Hnd).
      * rewrite (logLazily_unfold g metaLogger this nd Hnd), emit_unfold.
        cbn [default]. by rewrite Hfilter.
      * unfold logTemplate. rewrite Hnd, emit_unfold.
        cbn [default]. by rewrite Hfilter.
    + intros HheadOnly.
      pose proof (filter_headOnly g HheadOnly rid (ancestorFuel g) this
                    (allocRecord record w)) as Hsame.
      rewrite Hfilter in Hsame.
      apply sameButFilterCalls_observations in Hsame
        as (Hsinks & Hcalls & Hlogs & _).
      done.
Qed.

(** C9, as the code has it: an eager log call without properties on a
    logger without bound properties builds a record whose [properties]
    accessor computes [propTransform] of the base record with the
    properties [mergeProperties(undefined, undefined)], which is
    [undefined].  When neither the logger nor one of its ancestors has a
    properties transformer, every read of the accessor returns
    [undefined].  Otherwise [a] is the nearest of these loggers that has
    transformers, and the reads return what the chain of the transformers
    of [a] returns on that base record; when a transformer of the chain
    throws, no read returns and the getter stays in place. *)
Theorem eager_properties_undefined `{UserCode} (g : Registry)
    (metaLogger this : NodeId) (nd : LoggerImpl) (a : option NodeId) :
  wf g -> heap g !! this = Some nd ->
  properties nd = None -> nearest g this a ->
  mergeProperties None None = None /\
  forall level msg fuel w,
    let rid := length (records w) in
    let result :=
      log g metaLogger fuel this level (LogString msg PropsUndefined) w in
    let computed :=
      match a with
      | None => inr None
      | Some a' =>
          chain (transformersOf g a')
                {| raw_category := category nd;
                   raw_level := level;
                   raw_rawMessage := RawString msg;
                   raw_timestamp := now (length (records w));
                   raw_properties := None |}
                None
      end in
    exists k rec,
      records result.2 !! rid = Some rec /\
      match computed with
      | inr value =>
          readsOf rid (trace result.2)
          = readsOf rid (trace w) ++ replicate k value /\
          propertiesCell rec
          = match k with
            | 0 => PropsGetter this msg PropsUndefined
            | S _ => PropsValue value
            end
      | inl e =>
          readsOf rid (trace result.2) = readsOf rid (trace w) /\
          propertiesCell rec = PropsGetter this msg PropsUndefined
      end.
Proof.
  intros Hwf Hnd Hprops Hnearest. split; [done|].
  intros level msg fuel w rid result computed. unfold result, log.
  destruct (log_memo g metaLogger Hwf this nd Hnd fuel level msg
              PropsUndefined None w)
    as (_ & j & k & rec & _ & _ & Hrec & _ & Hstate).
  assert (attempt g this nd (head (eagerRecord nd this level msg
                                     PropsUndefined w))
                  msg PropsUndefined (trace w) j
          = match computed with
            | inl e => Thrown e
            | inr value => Normal value
            end) as Hattempt.
  { unfold attempt, raw0. cbn [head eagerRecord rcategory rlevel rtimestamp].
    rewrite Hprops.
    rewrite (propTransform_resolved g _ this a Hwf Hnearest)
      by (apply lookup_lt_Some in Hnd; unfold ancestorFuel; lia).
    subst computed. cbn [raw_properties mergeProperties].
    destruct a as [a'|]; [|done].
    destruct (chain _ _ _) as [e|value]; [done|].
    destruct (decide (a' = this)); [done|]. by destruct value. }
  exists k, rec. split; [done|].
  destruct k as [|k].
  - destruct Hstate as [Hreads Hcell].
    destruct computed as [e|value]; [done|]. by rewrite app_nil_r.
  - destruct Hstate as (value & Hvalue & Hreads & Hcell).
    rewrite Hvalue in Hattempt.
    destruct computed as [e|value']; [done|]. by simplify_eq.
Qed.

Section LazyExamples.
Import Examples.
#[local] Existing Instance exampleCode.

Lemma wf_readingRegistry : wf readingRegistry.
Proof. apply wf_pushSink, wf_fooRegistry. Qed.

Lemma wf_transformingRegistry : wf transformingRegistry.
Proof. apply wf_pushPropTransformer, wf_pushSink, wf_fooRegistry. Qed.

(** On [filteredRegistry] the two sinks of [foo] read the properties:
    the properties function is called once, and both reads return what
    it returned. *)
Lemma lazy_evaluation_witness :
  (exists nd,
      heap filteredRegistry !! foo = Some nd /\
      exists j k,
        (forall i, i < j ->
           exists e,
             attempt filteredRegistry foo nd
               (head (eagerRecord nd foo "info" "Hello, {foo}!"
                                  (PropsFunction 0) emptyWorld))
               "Hello, {foo}!" (PropsFunction 0) [] i = Thrown e) /\
        (forall c,
            callsOf c
              (trace (log filteredRegistry metaLogger 4 foo "info"
                          (LogString "Hello, {foo}!" (PropsFunction 0))
                          emptyWorld).2)
            = callsOf c [] + argCalls (PropsFunction 0) c * (j + min k 1)) /\
        match k with
        | 0 =>
            readsOf 0
              (trace (log filteredRegistry metaLogger 4 foo "info"
                          (LogString "Hello, {foo}!" (PropsFunction 0))
                          emptyWorld).2) = []
        | S _ =>
            exists value,
              attempt filteredRegistry foo nd
                (head (eagerRecord nd foo "info" "Hello, {foo}!"
                                   (PropsFunction 0) emptyWorld))
                "Hello, {foo}!" (PropsFunction 0) [] j = Normal value /\
              readsOf 0
                (trace (log filteredRegistry metaLogger 4 foo "info"
                            (LogString "Hello, {foo}!" (PropsFunction 0))
                            emptyWorld).2)
              = [] ++ replicate k value
        end) /\
  (exists k value,
      readsOf 0
        (trace (log filteredRegistry metaLogger 4 foo "info"
                    (LogString "Hello, {foo}!" (PropsFunction 0))
                    emptyWorld).2)
      = [] ++ replicate k value /\
      forall c,
        callsOf c
          (trace (log filteredRegistry metaLogger 4 foo "info"
                      (LogString "Hello, {foo}!" (PropsFunction 0))
                      emptyWorld).2)
        = callsOf c [] + argCalls (PropsFunction 0) c * min k 1).
Proof.
  split.
  - eexists. split; [reflexivity|].
    destruct (lazy_evaluation filteredRegistry metaLogger foo _
                wf_filteredRegistry eq_refl) as [Hproperties _].
    apply (Hproperties "info" "Hello, {foo}!" (PropsFunction 0) 4
             emptyWorld).
  - destruct (lazy_evaluation filteredRegistry metaLogger foo _
                wf_filteredRegistry eq_refl) as (_ & Hproperties & _).
    apply (Hproperties "info" "Hello, {foo}!" (PropsFunction 0) 4
             emptyWorld).
    intros i e. by vm_compute.
Defined.

(** C2 as stated does not hold.  On a logger without filters whose only
    sink does not read the properties, the record is accepted and
    delivered, and the properties function is not called; on a logger
    whose filter reads the properties and rejects, the record reaches no
    sink, and the properties function was called once; and on a logger
    with two sinks that read the properties, a properties function that
    throws at its first call is called twice for one log call: the read of
    the first sink fails, and the read of the second sink runs the getter
    again. *)
Lemma callback_calls_follow_reads :
  (let result := log silentRegistry metaLogger 4 foo "info"
                     (LogString "Hello, {foo}!" (PropsFunction 0))
                     emptyWorld in
   result.1 = Normal tt /\
   sinkCalls (trace result.2) = [(2, 0)] /\
   callsOf 0 (trace result.2) = 0) /\
  (let result := log readingFilterRegistry metaLogger 4 foo "info"
                     (LogString "Hello, {foo}!" (PropsFunction 0))
                     emptyWorld in
   result.1 = Normal tt /\
   sinkCalls (trace result.2) = [] /\
   callsOf 0 (trace result.2) = 1) /\
  (let result := @log flakyCode filteredRegistry metaLogger 4 foo "info"
                      (LogString "Hello, {foo}!" (PropsFunction 0))
                      emptyWorld in
   result.1 = Normal tt /\
   sinkCalls (trace result.2) = [(0, 0); (0, 0)] /\
   callsOf 0 (trace result.2) = 2 /\
   readsOf 0 (trace result.2) = [Some {["foo" := VNumber 123]}]).
Proof. by vm_compute. Qed.

(** On [readingRegistry] no logger has a transformer, and the read of
    the sink returns [undefined]; on [transformingRegistry] the logger
    [foo] has one, and the read returns what it returns. *)
Lemma eager_properties_undefined_witness :
  (exists k rec,
      records (log readingRegistry metaLogger 4 foo "info"
                   (LogString "Hello, world!" PropsUndefined) emptyWorld).2
        !! 0 = Some rec /\
      readsOf 0
        (trace (log readingRegistry metaLogger 4 foo "info"
                    (LogString "Hello, world!" PropsUndefined) emptyWorld).2)
      = [] ++ replicate k None /\
      propertiesCell rec
      = match k with
        | 0 => PropsGetter foo "Hello, world!" PropsUndefined
        | S _ => PropsValue None
        end) /\
  (exists k rec,
      records (log transformingRegistry metaLogger 4 foo "info"
                   (LogString "logged" PropsUndefined) emptyWorld).2
        !! 0 = Some rec /\
      readsOf 0
        (trace (log transformingRegistry metaLogger 4 foo "info"
                    (LogString "logged" PropsUndefined) emptyWorld).2)
      = [] ++ replicate k (Some {["tr" := VBool true]}) /\
      propertiesCell rec
      = match k with
        | 0 => PropsGetter foo "logged" PropsUndefined
        | S _ => PropsValue (Some {["tr" := VBool true]})
        end).
Proof.
  split.
  - assert (nearest readingRegistry foo None) as Hnearest.
    { eapply nearest_parent; [reflexivity|reflexivity|reflexivity|].
      eapply nearest_root; reflexivity. }
    destruct (eager_properties_undefined readingRegistry metaLogger foo _
                None wf_readingRegistry eq_refl eq_refl Hnearest)
      as [_ Hreads].
    apply (Hreads "info" "Hello, world!" 4 emptyWorld).
  - assert (nearest transformingRegistry foo (Some foo)) as Hnearest.
    { eapply nearest_self; [reflexivity|done]. }
    destruct (eager_properties_undefined transformingRegistry metaLogger foo
                _ (Some foo) wf_transformingRegistry eq_refl eq_refl
                Hnearest) as [_ Hreads].
    apply (Hreads "info" "logged" 4 emptyWorld).
Defined.

(** C9 as stated does not hold: with a properties transformer on the
    logger, the record of an eager call without properties on a logger
    without bound properties is delivered with the properties the
    transformer returns. *)
Lemma transformer_defines_properties :
  (exists nd, heap transformingRegistry !! foo = Some nd /\
              properties nd = None) /\
  let result := log transformingRegistry metaLogger 4 foo "info"
                    (LogString "logged" PropsUndefined) emptyWorld in
  result.1 = Normal tt /\
  sinkCalls (trace result.2) = [(0, 0)] /\
  readsOf 0 (trace result.2) = [Some {["tr" := VBool true]}].
Proof. split; [by eexists|]. by vm_compute. Qed.

End LazyExamples.

End EmissionFacts.

(** ** The rotating file sink *)
Module RotatingFileSinkFacts.
Import RotatingFileSink RotatingFileSinkExamples.

Lemma append_nonempty (P s : string) : P +:+ s = P -> s = "".
Proof.
  induction P as [|a P IH]; simpl; [done|].
  intros Heq. injection Heq as Heq. by apply IH.
Qed.

Lemma rotatedPath_inj (P : string) (j k : nat) :
  rotatedPath P j = rotatedPath P k -> j = k.
Proof.
  unfold rotatedPath. intros Heq.
  apply (inj (String.app P)) in Heq.
  apply (inj (String.app ".")) in Heq.
  by apply (inj pretty) in Heq.
Qed.

Lemma rotatedPath_fresh (P : string) (k : nat) : rotatedPath P k <> P.
Proof.
  unfold rotatedPath. intros Heq. by apply append_nonempty in Heq.
Qed.

Lemma lookup_rename_frame (src dst q : string) (fs : FileSystem) :
  q <> src -> q <> dst -> rename src dst fs !! q = fs !! q.
Proof.
  intros Hsrc Hdst. unfold rename.
  destruct (fs !! src) as [content|]; [|done].
  by rewrite lookup_insert_ne, lookup_delete_ne.
Qed.

Lemma lookup_rename_dst (src dst : string) (fs : FileSystem) (content : string) :
  fs !! src = Some content -> rename src dst fs !! dst = Some content.
Proof.
  intros Hsrc. unfold rename. rewrite Hsrc. by rewrite lookup_insert_eq.
Qed.

Lemma cascade_frame (P q : string) (k : nat) (fs : FileSystem) :
  (forall j, 1 <= j <= S k -> q <> rotatedPath P j) ->
  cascade P k fs !! q = fs !! q.
Proof.
  revert fs. induction k as [|k IH]; intros fs Hq; [done|].
  cbn [cascade]. rewrite IH by (intros j Hj; apply Hq; lia).
  apply lookup_rename_frame; apply Hq; lia.
Qed.

Lemma cascade_shift (P : string) (k : nat) (fs : FileSystem) :
  (forall j, 1 <= j <= k -> is_Some (fs !! rotatedPath P j)) ->
  forall j, 1 <= j <= k ->
    cascade P k fs !! rotatedPath P (S j) = fs !! rotatedPath P j.
Proof.
  revert fs. induction k as [|k IH]; intros fs Hex j Hj; [lia|].
  cbn [cascade].
  destruct (decide (j = S k)) as [->|Hne].
  - rewrite cascade_frame.
    + destruct (Hex (S k)) as [content Hc]; [lia|].
      rewrite Hc. by apply lookup_rename_dst.
    + intros i Hi Heq. apply rotatedPath_inj in Heq. lia.
  - rewrite IH; [| |lia].
    + apply lookup_rename_frame; intros Heq; apply rotatedPath_inj in Heq; lia.
    + intros i Hi. rewrite lookup_rename_frame.
      * apply Hex. lia.
      * intros Heq. apply rotatedPath_inj in Heq. lia.
      * intros Heq. apply rotatedPath_inj in Heq. lia.
Qed.

Lemma countRotated_spec (P : string) (fs : FileSystem) (fuel k : nat) :
  let r := countRotated P fs fuel k in
  k <= r <= k + fuel
  /\ (forall j, k < j <= r -> is_Some (fs !! rotatedPath P j))
  /\ (r < k + fuel -> fs !! rotatedPath P (S r) = None).
Proof.
  revert k. induction fuel as [|fuel IH]; intros k; cbn [countRotated].
  - cbv zeta. split; [lia|]. split; intros; lia.
  - destruct (fs !! rotatedPath P (S k)) as [content|] eqn:Hk.
    + specialize (IH (S k)). cbv zeta in IH |- *.
      destruct IH as (Hr & Hex & Hnext).
      split; [lia|]. split.
      * intros j Hj. destruct (decide (j = S k)) as [->|Hne]; [by eexists|].
        apply Hex. lia.
      * intros Hlt. apply Hnext. lia.
    + cbv zeta. split; [lia|]. split; [intros; lia|done].
Qed.

Lemma highestIndex_exists (P : string) (fs : FileSystem) (j : nat) :
  1 <= j <= highestIndex P fs -> is_Some (fs !! rotatedPath P j).
Proof.
  intros Hj. destruct (countRotated_spec P fs (size fs) 0) as (_ & Hex & _).
  apply Hex. unfold highestIndex in Hj. lia.
Qed.

Lemma rotated_count (P : string) (fs : FileSystem) (n : nat) :
  (forall j, 1 <= j <= n -> is_Some (fs !! rotatedPath P j)) -> n <= size fs.
Proof.
  intros Hex.
  set (l := rotatedPath P <$> seq 1 n).
  assert (NoDup l) as Hnodup.
  { apply NoDup_fmap_2_strong; [|apply NoDup_seq].
    intros i j _ _ Heq. by apply rotatedPath_inj in Heq. }
  assert (list_to_set l ⊆@{gset string} dom fs) as Hsub.
  { intros q Hq. apply elem_of_list_to_set in Hq.
    apply list_elem_of_fmap in Hq as (j & -> & Hj).
    apply elem_of_seq in Hj. apply elem_of_dom, Hex. lia. }
  apply subseteq_size in Hsub.
  rewrite size_list_to_set, size_dom in Hsub by done.
  unfold l in Hsub. by rewrite length_fmap, length_seq in Hsub.
Qed.

Lemma highestIndex_next (P : string) (fs : FileSystem) :
  fs !! rotatedPath P (S (highestIndex P fs)) = None.
Proof.
  destruct (countRotated_spec P fs (size fs) 0) as (Hr & Hex & Hnext).
  fold (highestIndex P fs) in Hr, Hex, Hnext.
  destruct (decide (highestIndex P fs < size fs)) as [Hlt|Hge].
  { apply Hnext. lia. }
  destruct (fs !! rotatedPath P (S (highestIndex P fs))) as [content|] eqn:Hlast;
    [|done].
  exfalso.
  assert (S (highestIndex P fs) <= size fs) as Hle; [|lia].
  apply (rotated_count P). intros j Hj.
  destruct (decide (j = S (highestIndex P fs))) as [->|Hne]; [by eexists|].
  apply Hex. lia.
Qed.

Lemma firstShifted_le (sink : State) (fs : FileSystem) :
  firstShifted sink fs <= highestIndex (path sink) fs.
Proof. unfold firstShifted. destruct (maxFiles sink); lia. Qed.

Lemma length_append (s t : string) :
  String.length (s +:+ t) = String.length s + String.length t.
Proof. induction s as [|a s IH]; simpl; [done|]. by rewrite IH. Qed.

Lemma overflows_true (sink : State) (chunk : string) :
  overflows sink chunk = true <->
  maxFileSize sink < currentSize sink + String.length chunk
  /\ 0 < currentSize sink.
Proof.
  unfold overflows. rewrite andb_true_iff, !Nat.ltb_lt. done.
Qed.

Lemma lookup_rotate (sink : State) (fs : FileSystem) (old : string) :
  fs !! path sink = Some old ->
  let P := path sink in
  let h := firstShifted sink fs in
  let fs' := rotate sink fs in
  fs' !! P = Some ""
  /\ fs' !! rotatedPath P 1 = Some old
  /\ (forall k, 1 <= k <= h ->
        fs' !! rotatedPath P (S k) = fs !! rotatedPath P k)
  /\ (forall q, q <> P -> (forall k, k <= h -> q <> rotatedPath P (S k)) ->
        fs' !! q = fs !! q).
Proof.
  intros Hold P h fs'. subst fs'. unfold rotate. fold P. fold h.
  assert (cascade P h fs !! P = Some old) as Hcurrent.
  { rewrite cascade_frame; [done|].
    intros j _ Heq. symmetry in Heq. by apply rotatedPath_fresh in Heq. }
  split; [by rewrite lookup_insert_eq|].
  split.
  { rewrite lookup_insert_ne by (intros Heq; symmetry in Heq;
      by apply rotatedPath_fresh in Heq).
    by apply lookup_rename_dst. }
  split.
  - intros k Hk.
    rewrite lookup_insert_ne by (intros Heq; symmetry in Heq;
      by apply rotatedPath_fresh in Heq).
    rewrite lookup_rename_frame.
    + apply cascade_shift; [|done].
      intros j Hj. apply highestIndex_exists.
      pose proof (firstShifted_le sink fs) as Hle. fold P h in Hle. lia.
    + apply rotatedPath_fresh.
    + intros Heq. apply rotatedPath_inj in Heq. lia.
  - intros q HP Hq.
    rewrite lookup_insert_ne by done.
    rewrite lookup_rename_frame; [|done|apply (Hq 0); lia].
    apply cascade_frame. intros j Hj.
    destruct j as [|j]; [lia|]. apply Hq. lia.
Qed.

(** C7: a write of the rotating file sink whose rendered chunk would push
    the current, non-empty file [P] over [maxFileSize] rotates before it
    writes: the rotated files [P.k] move to [P.(k+1)] from the highest
    existing index down to 1 (every one of them exists, the index above the
    highest is free, so without a depth limit nothing is lost), [P] moves
    to [P.1], and the fresh [P] holds the triggering chunk only; any other
    write appends the chunk to [P] and renames nothing.  In the scenario of
    the test, with threshold 150 and lines of 69 bytes, the third write
    leaves the third line alone in [P] and the first two in [P.1], the
    fourth is appended, and the fifth moves [P.1] to [P.2], [P] to [P.1]
    and starts [P] afresh. *)
Theorem write_rotates_before_overflow :
  (forall (Rec : Type) (formatter : Rec -> string) (sink : State)
          (fs : FileSystem) (record : Rec) (old : string),
      fs !! path sink = Some old ->
      currentSize sink = String.length old ->
      let P := path sink in
      let chunk := formatter record in
      let h := firstShifted sink fs in
      let sink' := (write formatter sink fs record).1 in
      let fs' := (write formatter sink fs record).2 in
      path sink' = P
      /\ maxFileSize sink' = maxFileSize sink
      /\ maxFiles sink' = maxFiles sink
      /\ (String.length old + String.length chunk <= maxFileSize sink
          \/ old = "" ->
            fs' = <[P := old +:+ chunk]> fs
            /\ currentSize sink' = String.length (old +:+ chunk))
      /\ (maxFileSize sink < String.length old + String.length chunk ->
          old <> "" ->
            fs' !! P = Some chunk
            /\ currentSize sink' = String.length chunk
            /\ fs' !! rotatedPath P 1 = Some old
            /\ (forall k, 1 <= k <= h ->
                  fs' !! rotatedPath P (S k) = fs !! rotatedPath P k)
            /\ (forall q, q <> P ->
                  (forall k, k <= h -> q <> rotatedPath P (S k)) ->
                  fs' !! q = fs !! q)
            /\ (forall k, 1 <= k <= highestIndex P fs ->
                  is_Some (fs !! rotatedPath P k))
            /\ fs !! rotatedPath P (S (highestIndex P fs)) = None
            /\ (maxFiles sink = None -> h = highestIndex P fs)))
  /\ (let P := logPath in
      let line := expectedLine in
      String.length (line "DBG") = 69
      /\ filesAfter 1 = {[P := line "DBG"]}
      /\ filesAfter 2 = {[P := line "DBG" +:+ line "INF"]}
      /\ filesAfter 3 =
           {[P := line "WRN";
             rotatedPath P 1 := line "DBG" +:+ line "INF"]}
      /\ filesAfter 4 =
           {[P := line "WRN" +:+ line "ERR";
             rotatedPath P 1 := line "DBG" +:+ line "INF"]}
      /\ filesAfter 5 =
           {[P := line "CRT";
             rotatedPath P 1 := line "WRN" +:+ line "ERR";
             rotatedPath P 2 := line "DBG" +:+ line "INF"]}
      /\ filesAfter 6 =
           {[P := line "CRT" +:+ line "FTL";
             rotatedPath P 1 := line "WRN" +:+ line "ERR";
             rotatedPath P 2 := line "DBG" +:+ line "INF"]}).
Proof.
  split; [|by vm_compute].
  intros Rec formatter sink fs record old Hold Hsize P chunk h sink' fs'.
  subst sink' fs'. unfold write. fold chunk.
  destruct (overflows sink chunk) eqn:Hover; cbn [fst snd setSize path
    maxFileSize maxFiles currentSize]; fold P.
  - apply overflows_true in Hover as [Hlt Hpos].
    destruct (lookup_rotate sink fs old Hold)
      as (Hfresh & Hfirst & Hshift & Hframe).
    fold P h in Hfresh, Hfirst, Hshift, Hframe.
    split; [done|]. split; [done|]. split; [done|]. split.
    { intros [Hle| ->]; [lia|]. rewrite Hsize in Hpos. simpl in Hpos. lia. }
    intros _ _. unfold appendFile. rewrite Hfresh. cbn [default String.append].
    split; [by rewrite lookup_insert_eq|]. split; [done|].
    assert (forall q, q <> P ->
      (<[P := chunk]> (rotate sink fs) : FileSystem) !! q = rotate sink fs !! q)
      as Hother by (intros q Hq; by rewrite lookup_insert_ne).
    split; [by rewrite Hother by apply rotatedPath_fresh|].
    split.
    { intros k Hk. rewrite Hother by apply rotatedPath_fresh. by apply Hshift. }
    split.
    { intros q Hq Hrot. rewrite Hother by done. by apply Hframe. }
    split; [intros k Hk; by apply highestIndex_exists|].
    split; [apply highestIndex_next|].
    intros Hnone. subst h. unfold firstShifted. by rewrite Hnone.
  - split; [done|]. split; [done|]. split; [done|]. split.
    { intros _. unfold appendFile. fold P in Hold. rewrite Hold. cbn [default].
      split; [done|]. by rewrite length_append, Hsize. }
    intros Hlt Hne. exfalso.
    assert (overflows sink chunk = true) as Htrue; [|congruence].
    apply overflows_true. rewrite Hsize. split; [done|].
    destruct old; [done|simpl; lia].
Qed.

Lemma write_rotates_before_overflow_witness :
  (write expectedLine overflowing (filesAfter 2) "WRN").2 !! logPath
    = Some (expectedLine "WRN")
  /\ (write expectedLine overflowing (filesAfter 2) "WRN").2
       !! rotatedPath logPath 1
    = Some (expectedLine "DBG" +:+ expectedLine "INF").
Proof.
  destruct (proj1 write_rotates_before_overflow string expectedLine
              overflowing (filesAfter 2) "WRN"
              (expectedLine "DBG" +:+ expectedLine "INF"))
    as (_ & _ & _ & _ & Hrotation).
  - vm_compute. reflexivity.
  - vm_compute. reflexivity.
  - destruct Hrotation as (Hcurrent & _ & Hfirst & _).
    + vm_compute. lia.
    + discriminate.
    + split; [exact Hcurrent|exact Hfirst].
Defined.

End RotatingFileSinkFacts.

(** ** Category normalization: composition *)
Module CategoryProperties.
Import Category CategoryFacts.

(** X1: normalizing a category is insensitive to nesting and compatible
    with concatenation: a flat list of strings comes back unchanged, the
    list of a concatenated array is the concatenation of the lists, an
    extra pair of brackets changes nothing, and normalizing the result of
    a normalization gives the same list. *)
Theorem getCategoryList_flattening :
  (forall l : list string, getCategoryList (ofList l) = l) /\
  (forall xs ys : list MaybeCategory,
      getCategoryList (CArr (xs ++ ys))
      = getCategoryList (CArr xs) ++ getCategoryList (CArr ys)) /\
  (forall c : MaybeCategory, getCategoryList (CArr [c]) = getCategoryList c) /\
  (forall c : MaybeCategory,
      getCategoryList (ofList (getCategoryList c)) = getCategoryList c).
Proof.
  split; [apply getCategoryList_ofList|]. split; [|split].
  - intros xs ys. unfold getCategoryList.
    rewrite !deepFlatten_CArr. apply flat_map_app.
  - intros c. unfold getCategoryList. rewrite deepFlatten_CArr. simpl.
    apply app_nil_r.
  - intros c. apply getCategoryList_ofList.
Qed.

End CategoryProperties.

(** ** Level filters: the table and the edges *)
Module FilterProperties.
Import Filter FilterFacts.

Lemma newMap_snoc (entries : list (string * nat)) (e : string * nat) :
  newMap (entries ++ [e]) = <[e.1 := e.2]> (newMap entries).
Proof. unfold newMap. by rewrite foldl_app. Qed.

Lemma imap_snoc {A B : Type} (f : nat -> A -> B) (l : list A) (x : A) :
  imap f (l ++ [x]) = imap f l ++ [f (length l) x].
Proof.
  rewrite imap_app. simpl. by rewrite Nat.add_0_r.
Qed.

(** X2: the table [new Map(array.map((level, index) => [level, index]))]
    sends a string to the index of its last occurrence in the array, and
    to nothing when it does not occur; on [levelsOrder], which has no
    repetition, [getLevelIndex] returns [i] exactly for the string at
    position [i] and throws for every other string. *)
Theorem levelsOrderMap_index :
  (forall (levels : list string) (l : string) (i : nat),
      newMap (imap (fun index level => (level, index)) levels) !! l = Some i
      <-> levels !! i = Some l /\
          forall j, i < j -> levels !! j <> Some l) /\
  (forall (l : string) (i : nat),
      getLevelIndex l = inr i <-> levelsOrder !! i = Some l) /\
  (forall l : string,
      l ∉ levelsOrder ->
      getLevelIndex l = inl (TypeError ("Invalid log level: " +:+ l +:+ "."))).
Proof.
  assert (forall (levels : list string) (l : string) (i : nat),
      newMap (imap (fun index level => (level, index)) levels) !! l = Some i
      <-> levels !! i = Some l /\
          forall j, i < j -> levels !! j <> Some l) as Hgeneral.
  { intros levels. induction levels as [|x levels IH] using rev_ind;
      intros l i.
    - unfold newMap. simpl. rewrite lookup_empty. split; [done|]. by intros [? _].
    - rewrite imap_snoc, newMap_snoc. cbn [fst snd].
      destruct (decide (x = l)) as [->|Hne].
      + rewrite lookup_insert_eq. split.
        * intros [= <-]. split; [by apply list_lookup_middle|].
          intros j Hj Hlook. apply lookup_lt_Some in Hlook.
          rewrite length_app in Hlook. simpl in Hlook. lia.
        * intros [Hi Hlast].
          destruct (decide (i = length levels)) as [->|Hi']; [done|].
          exfalso. apply (Hlast (length levels)).
          -- apply lookup_lt_Some in Hi. rewrite length_app in Hi.
             simpl in Hi. lia.
          -- by apply list_lookup_middle.
      + rewrite lookup_insert_ne by done. rewrite IH. split.
        * intros [Hi Hlast]. split.
          -- by apply lookup_app_l_Some.
          -- intros j Hj Hlook. apply lookup_app_Some in Hlook as [Hl|[_ Hr]].
             ++ by apply (Hlast j).
             ++ destruct (j - length levels) as [|k]; simplify_eq/=.
        * intros [Hi Hlast].
          apply lookup_app_Some in Hi as [Hl|[Hge Hr]].
          -- split; [done|]. intros j Hj Hlook. apply (Hlast j Hj).
             by apply lookup_app_l_Some.
          -- destruct (i - length levels) as [|k]; simplify_eq/=. }
  split; [exact Hgeneral|].
  assert (forall (l : string) (i : nat),
      getLevelIndex l = inr i <-> levelsOrder !! i = Some l) as Hindex.
  { intros l i. unfold getLevelIndex, levelsOrderMap.
    destruct (newMap _ !! l) as [k|] eqn:Hk.
    - apply Hgeneral in Hk as [Hk Hlast]. split.
      + by intros [= <-].
      + intros Hi. f_equal.
        do 6 (destruct i as [|i]; [
          simplify_eq/=;
          do 6 (destruct k as [|k]; [by simplify_eq/=|]); by simplify_eq/=
        |]).
        by simplify_eq/=.
    - split; [done|]. intros Hi. exfalso.
      assert (exists k, newMap (imap (fun index level => (level, index))
                                     levelsOrder) !! l = Some k) as [k Hk'].
      { do 6 (destruct i as [|i]; [simplify_eq/=; by eexists|]).
        by simplify_eq/=. }
      congruence. }
  split; [exact Hindex|].
  intros l Hnot. unfold getLevelIndex.
  destruct (levelsOrderMap !! l) as [k|] eqn:Hk; [|done].
  exfalso. apply Hnot.
  assert (getLevelIndex l = inr k) as Hidx
    by (unfold getLevelIndex; by rewrite Hk).
  apply Hindex in Hidx. by eapply list_elem_of_lookup_2.
Qed.

Lemma getLevelIndex_severity (l : string) (b : nat) :
  severity l = Some b -> getLevelIndex l = inr (5 - b).
Proof.
  intros Hb%severity_Some.
  destruct Hb as [[-> ->]|[[-> ->]|[[-> ->]|[[-> ->]|[[-> ->]|[-> ->]]]]]];
    reflexivity.
Qed.

(** X3: a level filter looks the level of the record up when it is called.
    For a record whose level is not one of the six, the filter of a
    threshold other than [debug] throws [TypeError: Invalid log level], the
    filter of [debug] accepts the record without looking at its level, and
    the filter of [null] rejects it. *)
Theorem level_filter_unknown_record_level (threshold : string) (a : nat)
    (record : RecordHead) :
  severity threshold = Some a ->
  severity (rlevel record) = None ->
  exists f reject : Filter,
    getLevelFilter (Some threshold) = inr f /\
    toFilter (FLLevel threshold) = inr f /\
    f record
    = (if decide (threshold = "debug") then Ret true
       else Throw (TypeError ("Invalid log level: " +:+ rlevel record +:+ ".")))
    /\ toFilter FLNull = inr reject /\ reject record = Ret false.
Proof.
  intros Ha Hlvl.
  pose proof (getLevelIndex_severity threshold a Ha) as Hidx.
  pose proof (getLevelIndex_invalid (rlevel record) Hlvl) as Hrec.
  unfold toFilter, getLevelFilter.
  destruct (String.eqb_spec threshold "debug") as [->|Hne].
  - eexists _, _. split; [reflexivity|]. split; [reflexivity|].
    split; [|split; reflexivity]. by rewrite decide_True.
  - rewrite Hidx. eexists _, _. split; [reflexivity|]. split; [reflexivity|].
    split; [|split; reflexivity]. cbv beta. rewrite Hrec.
    by rewrite decide_False.
Qed.

Lemma level_filter_unknown_record_level_witness :
  exists f reject : Filter,
    getLevelFilter (Some "info") = inr f /\
    toFilter (FLLevel "info") = inr f /\
    f {| rcategory := []; rlevel := "trace"; rtimestamp := 0 |}
    = (if decide ("info" = "debug") then Ret true
       else Throw (TypeError ("Invalid log level: " +:+ "trace" +:+ ".")))
    /\ toFilter FLNull = inr reject
    /\ reject {| rcategory := []; rlevel := "trace"; rtimestamp := 0 |}
       = Ret false.
Proof.
  apply (level_filter_unknown_record_level "info" 1
           {| rcategory := []; rlevel := "trace"; rtimestamp := 0 |});
    reflexivity.
Defined.

Lemma levelsOrderMap_index_witness : getLevelIndex "warning" = inr 3.
Proof. apply (proj1 (proj2 levelsOrderMap_index)). reflexivity. Defined.

End FilterProperties.

(** ** The category tree: paths, categories, bound properties *)
Module TreeProperties.
Import Category Filter Logger CategoryFacts LoggerFacts.

Lemma getChild_ofList_fuel (l : list string) :
  forall f1 f2 g this,
    wf g -> is_Some (heap g !! this) -> l <> [] ->
    length l <= f1 -> length l <= f2 ->
    getChild f1 g this (ofList l) None = getChild f2 g this (ofList l) None.
Proof.
  induction l as [|name l IH]; intros f1 f2 g this Hwf [nd Hnd] Hne H1 H2;
    [done|].
  destruct f1 as [|f1]; [simpl in H1; lia|].
  destruct f2 as [|f2]; [simpl in H2; lia|].
  rewrite !(getChild_ofList_step _ _ _ nd) by done.
  simpl in H1, H2.
  destruct (decide (name = "")).
  - destruct l as [|x l]; [done|].
    apply IH; [done|by eexists|done|..]; cbn [length] in *; lia.
  - destruct (objectGet (children nd) name); [|done|];
      (destruct l as [|x l]; [done|]);
      destruct (lookupOrCreate_spec g this nd name Hwf Hnd)
        as (g1 & child & nd1 & cd & Heq & Hwf1 & _ & _ & _ & Hcd & _);
      rewrite Heq; cbn [fst snd];
      (apply IH; [done|by eexists|done|..]; cbn [length] in *; lia).
Qed.

(** The rest of a path is walked from the node and in the tree that the
    walk of its first part returned, with the fuel that is left or with
    more. *)
Lemma getChild_ofList_rest (l1 l2 : list string) (f1 f2 : nat)
    (g : Registry) (this : NodeId) :
  wf g -> is_Some (heap g !! this) -> l2 <> [] ->
  length l2 <= f1 -> length l2 <= f2 ->
  match getChild f1 g this (ofList l1) None with
  | (Normal m, g1) => getChild f1 g1 m (ofList l2) None
  | failed => failed
  end
  = match getChild f1 g this (ofList l1) None with
    | (Normal m, g1) => getChild f2 g1 m (ofList l2) None
    | failed => failed
    end.
Proof.
  intros Hwf Hthis Hne H1 H2.
  destruct (getChild_ofList_sound l1 f1 g this Hwf Hthis)
    as (Hwf1 & _ & Hres).
  destruct (getChild f1 g this (ofList l1) None) as [[m| |] g1];
    cbn [fst snd] in *; try done.
  apply getChild_ofList_fuel; [done|by apply (Hres m)|done|done|done].
Qed.

Lemma getChild_ofList_app (l1 : list string) :
  forall l2 fuel g this,
    wf g -> is_Some (heap g !! this) -> l1 <> [] -> l2 <> [] ->
    length (l1 ++ l2) <= fuel ->
    getChild fuel g this (ofList (l1 ++ l2)) None
    = match getChild fuel g this (ofList l1) None with
      | (Normal m, g1) => getChild fuel g1 m (ofList l2) None
      | failed => failed
      end.
Proof.
  induction l1 as [|name l1 IH];
    intros l2 fuel g this Hwf [nd Hnd] Hne1 Hne2 Hfuel; [done|].
  destruct fuel as [|fuel]; [simpl in Hfuel; lia|].
  rewrite <- app_comm_cons.
  rewrite !(getChild_ofList_step _ _ _ nd) by done.
  simpl in Hfuel. rewrite length_app in Hfuel.
  assert (l1 ++ l2 <> []) as Hne12 by (destruct l1, l2; done).
  destruct (decide (name = "")).
  - destruct l1 as [|x l1].
    + cbn [app]. destruct l2 as [|y l2]; [done|].
      apply getChild_ofList_fuel; [done|by eexists|done|..];
        cbn [length] in *; lia.
    + cbn [app].
      rewrite (app_comm_cons l1 l2 x).
      rewrite (IH l2 fuel g this Hwf (mk_is_Some _ _ Hnd) ltac:(done) Hne2)
        by (rewrite length_app; lia).
      apply getChild_ofList_rest; [done|by eexists|done|lia|lia].
  - destruct (objectGet (children nd) name); [|done|];
      destruct (lookupOrCreate_spec g this nd name Hwf Hnd)
        as (g' & child & nd1 & cd & Hlc & Hwf' & _ & _ & _ & Hcd & _);
      rewrite Hlc; cbn [fst snd];
      (destruct l1 as [|x l1];
       [cbn [app]; destruct l2 as [|y l2]; [done|];
        apply getChild_ofList_fuel; [done|by eexists|done|..];
        cbn [length] in *; lia
       |]);
      cbn [app]; rewrite (app_comm_cons l1 l2 x);
      rewrite (IH l2 fuel g' child Hwf' (mk_is_Some _ _ Hcd) ltac:(done)
                  Hne2)
        by (rewrite length_app; lia);
      (apply getChild_ofList_rest; [done|by eexists|done|lia|lia]).
Qed.

(** X4: [getChild] composes along paths:
    [logger.getChild(c1).getChild(c2)] and [logger.getChild([c1, c2])]
    do the same, for all categories [c1] and [c2] that name at least one
    segment: when the first call of the chain fails, the call with the
    array fails in the same way and leaves the same tree, and otherwise it
    does what the second call of the chain does.  When no segment is the
    name of a member of [Object.prototype], both return the same node and
    leave the same tree. *)
Theorem getChild_composes (g : Registry) (this : NodeId)
    (c1 c2 : MaybeCategory) (fuel : nat) :
  wf g -> is_Some (heap g !! this) ->
  truthy c1 = true -> getCategoryList c1 <> [] ->
  truthy c2 = true -> getCategoryList c2 <> [] ->
  length (getCategoryList c1) + length (getCategoryList c2) <= fuel ->
  getChild fuel g this (CArr [c1; c2]) None
  = match getChild fuel g this c1 None with
    | (Normal m, g1) => getChild fuel g1 m c2 None
    | failed => failed
    end /\
  (Forall ordinary (getCategoryList c1) ->
   Forall ordinary (getCategoryList c2) ->
   exists g1 m g2 n,
     getChild fuel g this c1 None = (Normal m, g1) /\
     getChild fuel g1 m c2 None = (Normal n, g2) /\
     getChild fuel g this (CArr [c1; c2]) None = (Normal n, g2)).
Proof.
  intros Hwf Hthis Ht1 Hl1 Ht2 Hl2 Hfuel.
  assert (getChild fuel g this (CArr [c1; c2]) None
          = match getChild fuel g this c1 None with
            | (Normal m, g1) => getChild fuel g1 m c2 None
            | failed => failed
            end) as Hlaw.
  { rewrite (getChild_flatten fuel g this c1) by done.
    rewrite (getChild_flatten fuel g this (CArr [c1; c2])) by done.
    replace (getCategoryList (CArr [c1; c2]))
      with (getCategoryList c1 ++ getCategoryList c2).
    2:{ unfold getCategoryList. rewrite deepFlatten_CArr. simpl.
        by rewrite app_nil_r. }
    rewrite getChild_ofList_app
      by (try done; rewrite length_app; lia).
    destruct (getChild fuel g this (ofList (getCategoryList c1)) None)
      as [[m| |] g1]; try done.
    by rewrite (getChild_flatten fuel g1 m c2). }
  split; [done|]. intros Hord1 Hord2.
  destruct (getChild_ofList_total (getCategoryList c1) fuel g this)
    as (g1 & m & Hfirst & Hwf1 & _ & _ & Hm); [done|done|done|lia|done|].
  destruct (getChild_ofList_total (getCategoryList c2) fuel g1 m)
    as (g2 & n & Hsecond & _); [done|done|done|lia|done|].
  rewrite <- (getChild_flatten fuel g this c1) in Hfirst by done.
  rewrite <- (getChild_flatten fuel g1 m c2) in Hsecond by done.
  exists g1, m, g2, n. split; [done|]. split; [done|].
  by rewrite Hlaw, Hfirst.
Qed.

Lemma getChild_composes_witness :
  getChild 3 Examples.fooRegistry 0
    (CArr [CStr "a"; CArr [CStr "b"; CStr "c"]]) None
  = match getChild 3 Examples.fooRegistry 0 (CStr "a") None with
    | (Normal m, g1) => getChild 3 g1 m (CArr [CStr "b"; CStr "c"]) None
    | failed => failed
    end /\
  (Forall ordinary (getCategoryList (CStr "a")) ->
   Forall ordinary (getCategoryList (CArr [CStr "b"; CStr "c"])) ->
   exists g1 m g2 n,
     getChild 3 Examples.fooRegistry 0 (CStr "a") None = (Normal m, g1) /\
     getChild 3 g1 m (CArr [CStr "b"; CStr "c"]) None = (Normal n, g2) /\
     getChild 3 Examples.fooRegistry 0
       (CArr [CStr "a"; CArr [CStr "b"; CStr "c"]]) None = (Normal n, g2)).
Proof.
  apply (getChild_composes Examples.fooRegistry 0 (CStr "a")
           (CArr [CStr "b"; CStr "c"]) 3).
  - apply EmissionFacts.wf_fooRegistry.
  - by eexists.
  - reflexivity.
  - discriminate.
  - reflexivity.
  - discriminate.
  - simpl. lia.
Defined.

(** The non-empty segments of a list of names. *)
Definition segments (l : list string) : list string :=
  List.filter (fun s => negb (String.eqb s "")) l.

Lemma resolves_segments (g : Registry) (l : list string) :
  forall this n, resolves g this l n <-> resolves g this (segments l) n.
Proof.
  induction l as [|name l IH]; intros this n; [done|].
  cbn [resolves segments List.filter].
  destruct (String.eqb_spec name "") as [->|Hne]; cbn [negb].
  - rewrite decide_True by done. apply IH.
  - cbn [resolves]. rewrite !decide_False by done.
    split; intros (nd & c & Hnd & Hc & Hres); exists nd, c;
      (split; [done|]; split; [done|]); by apply IH.
Qed.

Lemma resolves_functional (g : Registry) (l : list string) :
  forall this n n', resolves g this l n -> resolves g this l n' -> n = n'.
Proof.
  induction l as [|name l IH]; intros this n n'; cbn [resolves].
  - by intros -> ->.
  - destruct (decide (name = "")); [apply IH|].
    intros (nd & c & Hnd & Hc & Hres) (nd' & c' & Hnd' & Hc' & Hres').
    simplify_eq. by eapply IH.
Qed.

Lemma resolves_category (g : Registry) (l : list string) :
  wf g ->
  forall this td n,
    heap g !! this = Some td -> resolves g this l n ->
    exists nd, heap g !! n = Some nd /\
               category nd = category td ++ segments l.
Proof.
  intros Hwf. induction l as [|name l IH]; intros this td n Htd;
    cbn [resolves segments List.filter].
  - intros ->. exists td. by rewrite app_nil_r.
  - destruct (String.eqb_spec name "") as [->|Hne]; cbn [negb].
    + rewrite decide_True by done. by apply IH.
    + rewrite decide_False by done.
      intros (nd & c & Hnd & Hc & Hres).
      assert (nd = td) as -> by congruence.
      destruct (wf_children g Hwf this td name c Htd Hc)
        as (cd & Hcd & _ & Hcat).
      destruct (IH c cd n Hcd Hres) as (nd' & Hn & Hcat').
      exists nd'. split; [done|].
      rewrite Hcat', Hcat. by rewrite <- app_assoc.
Qed.

(** X5: loggers are interned by the non-empty segments of their category.
    Whenever two calls of [getLogger] return, the nodes they return have
    exactly the non-empty string leaves of the arguments as their
    categories, and they are the same node if and only if the arguments
    have the same non-empty segments.  The two calls do return when the
    arguments are not [null], have a string leaf or are empty, and have no
    segment that is the name of a member of [Object.prototype]. *)
Theorem getLogger_interns_by_segments (g : Registry) (c1 c2 : MaybeCategory)
    (fuel : nat) :
  wf g ->
  (forall g1 n1 g2 n2,
      getLogger fuel g c1 = (Normal n1, g1) ->
      getLogger fuel g1 c2 = (Normal n2, g2) ->
      exists nd1 nd2,
        heap g2 !! n1 = Some nd1 /\ heap g2 !! n2 = Some nd2 /\
        category nd1 = segments (getCategoryList c1) /\
        category nd2 = segments (getCategoryList c2) /\
        (n1 = n2 <->
         segments (getCategoryList c1) = segments (getCategoryList c2))) /\
  (resolvable c1 -> resolvable c2 ->
   Forall ordinary (getCategoryList c1) ->
   Forall ordinary (getCategoryList c2) ->
   length (getCategoryList c1) <= fuel ->
   length (getCategoryList c2) <= fuel ->
   exists g1 n1 g2 n2,
     getLogger fuel g c1 = (Normal n1, g1) /\
     getLogger fuel g1 c2 = (Normal n2, g2)).
Proof.
  intros Hwf. split.
  - intros g1 n1 g2 n2 Hget1 Hget2.
    destruct (getLogger_sound g c1 fuel Hwf) as (Hwf1 & _ & Hres1).
    rewrite Hget1 in Hwf1, Hres1. cbn [fst snd] in Hwf1, Hres1.
    destruct (Hres1 n1 eq_refl) as (_ & r & Hroot1 & Hpath1).
    destruct (getLogger_sound g1 c2 fuel Hwf1) as (Hwf2 & Hext & Hres2).
    rewrite Hget2 in Hwf2, Hext, Hres2. cbn [fst snd] in Hwf2, Hext, Hres2.
    destruct (Hres2 n2 eq_refl) as (_ & r' & Hroot2 & Hpath2).
    assert (r' = r) as ->.
    { destruct Hext as [Hr _]. apply Hr in Hroot1. congruence. }
    apply (resolves_extends g1 g2 _ Hext) in Hpath1.
    destruct (wf_root g2 Hwf2 r Hroot2) as (rd & Hrd & _ & Hrcat).
    destruct (resolves_category g2 _ Hwf2 r rd n1 Hrd Hpath1)
      as (nd1 & Hn1 & Hcat1).
    destruct (resolves_category g2 _ Hwf2 r rd n2 Hrd Hpath2)
      as (nd2 & Hn2 & Hcat2).
    rewrite Hrcat in Hcat1, Hcat2. cbn [app] in Hcat1, Hcat2.
    exists nd1, nd2. do 4 (split; [done|]). split.
    + intros ->. simplify_eq. congruence.
    + intros Hseg. apply resolves_segments in Hpath1, Hpath2.
      rewrite Hseg in Hpath1. by eapply resolves_functional.
  - intros Hc1 Hc2 Hord1 Hord2 Hf1 Hf2.
    destruct (getLogger_stable g c1 fuel Hwf Hc1 Hord1 Hf1)
      as (g1 & n1 & Hget1 & Hwf1 & _).
    destruct (getLogger_stable g1 c2 fuel Hwf1 Hc2 Hord2 Hf2)
      as (g2 & n2 & Hget2 & _).
    by exists g1, n1, g2, n2.
Qed.

Lemma getLogger_interns_by_segments_witness :
  exists g1 n1 g2 n2,
    getLogger 3 emptyRegistry (CArr [CStr "a"; CStr ""; CStr "b"])
      = (Normal n1, g1) /\
    getLogger 3 g1 (CArr [CArr [CStr "a"]; CNull; CStr "b"])
      = (Normal n2, g2) /\
    exists nd1 nd2,
      heap g2 !! n1 = Some nd1 /\ heap g2 !! n2 = Some nd2 /\
      category nd1
      = segments (getCategoryList (CArr [CStr "a"; CStr ""; CStr "b"])) /\
      category nd2
      = segments (getCategoryList (CArr [CArr [CStr "a"]; CNull; CStr "b"])) /\
      (n1 = n2 <->
       segments (getCategoryList (CArr [CStr "a"; CStr ""; CStr "b"]))
       = segments (getCategoryList (CArr [CArr [CStr "a"]; CNull; CStr "b"]))).
Proof.
  destruct (getLogger_interns_by_segments emptyRegistry
              (CArr [CStr "a"; CStr ""; CStr "b"])
              (CArr [CArr [CStr "a"]; CNull; CStr "b"]) 3 wf_empty)
    as [Hsame Hreturn].
  destruct Hreturn as (g1 & n1 & g2 & n2 & Hget1 & Hget2).
  - split; [done|]. right. discriminate.
  - split; [done|]. right. discriminate.
  - by apply (bool_decide_unpack _).
  - by apply (bool_decide_unpack _).
  - simpl. lia.
  - simpl. lia.
  - exists g1, n1, g2, n2. split; [done|]. split; [done|].
    by apply (Hsame g1 n1 g2 n2).
Defined.

(** A registry in which every registered child has the bound properties of
    its parent, and the root has none. *)
Definition inheriting (g : Registry) : Prop :=
  (forall r rd, globalRootLogger g = Some r -> heap g !! r = Some rd ->
                properties rd = None) /\
  (forall n nd name c cd,
      heap g !! n = Some nd -> children nd !! name = Some c ->
      heap g !! c = Some cd -> properties cd = properties nd).

Lemma inheriting_empty : inheriting emptyRegistry.
Proof. split; [done|]. by intros n nd name c cd Hn. Qed.

Lemma inheriting_alloc (g : Registry) (node : LoggerImpl)
    (root : option NodeId) :
  wf g -> inheriting g ->
  children node = ∅ ->
  (forall r, root = Some r ->
             globalRootLogger g = Some r \/
             (r = length (heap g) /\ properties node = None)) ->
  inheriting {| heap := heap g ++ [node]; globalRootLogger := root |}.
Proof.
  intros Hwf [Hroot Hinh] Hnone Hr. split; cbn [heap globalRootLogger].
  - intros r rd Hrt Hrd. destruct (Hr r Hrt) as [Hold|[-> Hprops]].
    + destruct (wf_root g Hwf r Hold) as (rd' & Hrd' & _).
      rewrite (lookup_app_l_Some _ _ _ _ Hrd') in Hrd. simplify_eq.
      by eapply Hroot.
    + rewrite list_lookup_middle in Hrd by done. by simplify_eq.
  - intros n nd name c cd Hn Hc Hcd.
    apply lookup_app_Some in Hn as [Hn|[_ Hn]].
    + destruct (wf_children g Hwf n nd name c Hn Hc) as (cd' & Hcd' & _).
      rewrite (lookup_app_l_Some _ _ _ _ Hcd') in Hcd. simplify_eq.
      by eapply Hinh.
    + destruct (n - length (heap g)) as [|k]; simplify_eq/=.
      by rewrite Hnone in Hc.
Qed.

Lemma inheriting_with (g : Registry) (this : NodeId) (nd : LoggerImpl)
    (p : Properties) (cat : list string) :
  wf g -> inheriting g ->
  inheriting (newLoggerImpl g (Some this) cat p).1.
Proof.
  intros Hwf Hinh. unfold newLoggerImpl. cbn [fst].
  apply inheriting_alloc; [done|done|done|]. intros r Hr. by left.
Qed.

Lemma lookupOrCreate_inheriting (g : Registry) (this : NodeId)
    (nd : LoggerImpl) (name : string) :
  wf g -> inheriting g -> heap g !! this = Some nd ->
  inheriting (lookupOrCreate g this nd name).1 /\
  exists cd, heap (lookupOrCreate g this nd name).1
               !! (lookupOrCreate g this nd name).2 = Some cd /\
             properties cd = properties nd.
Proof.
  intros Hwf Hinh Hnd. unfold lookupOrCreate.
  destruct (children nd !! name) as [child|] eqn:Hch; cbn [fst snd].
  - split; [done|].
    destruct (wf_children g Hwf this nd name child Hnd Hch) as (cd & Hcd & _).
    exists cd. split; [done|]. by eapply (proj2 Hinh).
  - pose proof (lookup_lt_Some _ _ _ Hnd) as Hlt.
    pose proof (inheriting_with g this nd None (category nd ++ [name]) Hwf Hinh)
      as [Hroot' Hinh'].
    set (g' := (newLoggerImpl g (Some this) (category nd ++ [name]) None).1)
      in *.
    assert (heap g' !! this = Some nd) as Hthis' by (by apply lookup_app_l_Some).
    assert (exists cd, heap g' !! length (heap g) = Some cd /\
                       properties cd = properties nd /\ children cd = ∅)
      as (cd & Hcd & Hcprops & Hcch).
    { eexists. split; [by apply list_lookup_middle|]. simpl.
      rewrite Hnd. by destruct (properties nd). }
    assert (forall n x, heap (setChild g' this name (length (heap g))) !! n
                        = Some x ->
              exists x0, heap g' !! n = Some x0 /\
                         properties x = properties x0 /\
                         (forall k c, children x !! k = Some c ->
                            children x0 !! k = Some c \/
                            (n = this /\ k = name /\ c = length (heap g))))
      as Hshape.
    { intros n x. unfold setChild. rewrite lookup_updateNode.
      destruct (heap g' !! n) as [x0|] eqn:Hx0; [|done]. simpl.
      intros [= <-]. exists x0. split; [done|].
      case_decide as Hthis; [|by auto]. subst n. split; [done|].
      cbn [children]. intros k c [[<- <-]|[_ Hc]]%lookup_insert_Some; auto. }
    split; [split|].
    + intros r rd Hr Hrd. destruct (Hshape r rd Hrd) as (x0 & Hx0 & -> & _).
      by eapply Hroot'.
    + intros n x k c cx Hx Hk Hcx.
      destruct (Hshape n x Hx) as (x0 & Hx0 & -> & Hchildren).
      destruct (Hshape c cx Hcx) as (cx0 & Hcx0 & -> & _).
      destruct (Hchildren k c Hk) as [Hold|(-> & -> & ->)].
      * by eapply Hinh'.
      * simplify_eq. done.
    + exists cd. split; [|done]. unfold setChild.
      rewrite lookup_updateNode, Hcd. simpl.
      rewrite decide_False by lia. done.
Qed.

Lemma getChild_ofList_inheriting (l : list string) :
  forall fuel g this nd,
    wf g -> inheriting g -> heap g !! this = Some nd -> l <> [] ->
    length l <= fuel -> Forall ordinary l ->
    exists g1 n cd,
      getChild fuel g this (ofList l) None = (Normal n, g1) /\
      wf g1 /\ inheriting g1 /\ extends g g1 /\
      heap g1 !! n = Some cd /\ properties cd = properties nd.
Proof.
  induction l as [|name l IH];
    intros fuel g this nd Hwf Hinh Hnd Hne Hfuel Hord; [done|].
  destruct fuel as [|fuel]; [simpl in Hfuel; lia|].
  apply Forall_cons in Hord as [Hname0 Hord].
  rewrite (getChild_ofList_cons _ _ _ nd) by (try done; by right).
  cbn [length] in Hfuel.
  destruct (decide (name = "")) as [Hempty|Hname].
  - destruct l as [|x l].
    + exists g, this, nd. eauto 10 using extends_refl.
    + apply IH; [done|done|done|done|cbn [length] in *; lia|done].
  - destruct (lookupOrCreate_spec g this nd name Hwf Hnd)
      as (g' & child & nd1 & cd0 & Hlc & Hwf' & Hext & _).
    destruct (lookupOrCreate_inheriting g this nd name Hwf Hinh Hnd)
      as (Hinh' & cd & Hcd & Hprops).
    rewrite Hlc in Hinh', Hcd |- *. cbn [fst snd] in *.
    destruct l as [|x l].
    + exists g', child, cd. eauto 10.
    + destruct (IH fuel g' child cd) as (g1 & n & cd1 & Hget & ? & ? & ? & ? & ?);
        [done|done|done|done|cbn [length] in *; lia|done|].
      exists g1, n, cd1. split; [done|]. split; [done|]. split; [done|].
      split; [by eapply extends_trans|]. split; [done|]. congruence.
Qed.

(** X6: bound properties are inherited along [getChild] and never appear
    on an interned logger: in a tree built by [getLogger], [getChild] and
    [with], and for segments that are not names of members of
    [Object.prototype], the node that [getChild] returns has the bound
    properties of the receiver, and the node that [getLogger] returns has
    none. *)
Theorem interned_loggers_are_unbound (g : Registry) :
  wf g -> inheriting g ->
  (forall (this : NodeId) (nd : LoggerImpl) (c : MaybeCategory) (fuel : nat),
      heap g !! this = Some nd ->
      truthy c = true -> getCategoryList c <> [] ->
      Forall ordinary (getCategoryList c) ->
      length (getCategoryList c) <= fuel ->
      exists g1 n cd,
        getChild fuel g this c None = (Normal n, g1) /\
        heap g1 !! n = Some cd /\ properties cd = properties nd /\
        wf g1 /\ inheriting g1) /\
  (forall (c : MaybeCategory) (fuel : nat),
      resolvable c -> Forall ordinary (getCategoryList c) ->
      length (getCategoryList c) <= fuel ->
      exists g1 n nd,
        getLogger fuel g c = (Normal n, g1) /\
        heap g1 !! n = Some nd /\ properties nd = None /\
        wf g1 /\ inheriting g1) /\
  (forall (this : NodeId) (nd : LoggerImpl) (p : PropertiesObj),
      heap g !! this = Some nd ->
      exists g1 b bd,
        with_ g this p = (Normal b, g1) /\
        heap g1 !! b = Some bd /\
        properties bd = Some (p ∪ default ∅ (properties nd)) /\
        wf g1 /\ inheriting g1).
Proof.
  intros Hwf Hinh. split; [|split].
  - intros this nd c fuel Hnd Htruthy Hne Hord Hfuel.
    rewrite getChild_flatten by done.
    destruct (getChild_ofList_inheriting (getCategoryList c) fuel g this nd)
      as (g1 & n & cd & ? & ? & ? & ? & ? & ?); [done..|].
    exists g1, n, cd. done.
  - intros c fuel Hres Hord Hfuel.
    destruct (ensureRoot_spec g Hwf) as (g0 & r & Hroot & Hwf0 & Hext0 & Hr0 & [rd Hrd]).
    assert (inheriting g0 /\ properties rd = None) as [Hinh0 Hrprops].
    { unfold ensureRoot in Hroot.
      destruct (globalRootLogger g) as [r0|] eqn:Hr.
      - simplify_eq. split; [done|]. by eapply (proj1 Hinh).
      - injection Hroot as <- <-. split.
        + apply inheriting_alloc; [done|done|done|]. intros r [= <-].
          right. done.
        + cbn [heap newLoggerImpl fst] in Hrd.
          rewrite list_lookup_middle in Hrd by done. by simplify_eq. }
    destruct Hres as [Hnull Hshape].
    rewrite (getLogger_not_null fuel g c
               (match c with CUndefined => CArr [] | c => c end) eq_refl)
      by (by destruct c).
    rewrite Hroot. cbn [fst snd].
    destruct (Nat.eqb_spec
                (jsLength (match c with CUndefined => CArr [] | c => c end)) 0)
      as [Hzero|Hpos].
    + exists g0, r, rd. done.
    + assert (c <> CUndefined) as Hundef by (by intros ->).
      assert (match c with CUndefined => CArr [] | c => c end = c) as Hc
        by (by destruct c).
      rewrite Hc in Hpos |- *.
      destruct Hshape as [Hz|Hne]; [done|].
      rewrite getChild_flatten by (by apply jsLength_truthy).
      destruct (getChild_ofList_inheriting (getCategoryList c) fuel g0 r rd)
        as (g1 & n & cd & ? & ? & ? & ? & ? & ?); [done..|].
      exists g1, n, cd. split; [done|]. split; [done|].
      split; [congruence|done].
  - intros this nd p Hnd. unfold with_. rewrite Hnd.
    pose proof (lookup_lt_Some _ _ _ Hnd) as Hlt.
    destruct (newLoggerImpl_wf g (Some this) (category nd) (Some p) Hwf)
      as [Hwf1 _]; [by intros ? [= <-]|done|].
    eexists _, _, _. split; [reflexivity|].
    split; [apply list_lookup_middle; reflexivity|].
    split; [|split; [done|by apply (inheriting_with g this nd)]].
    cbn [properties parentProperties]. rewrite Hnd.
    destruct (properties nd); cbn [mergeProperties default]; [done|].
    by rewrite (right_id_L ∅ (∪)).
Qed.

Lemma interned_loggers_are_unbound_witness :
  exists g1 n nd,
    getLogger 2 emptyRegistry (CArr [CStr "my-app"; CStr "junk"])
      = (Normal n, g1) /\
    heap g1 !! n = Some nd /\ properties nd = None /\
    wf g1 /\ inheriting g1.
Proof.
  destruct (interned_loggers_are_unbound emptyRegistry wf_empty
              inheriting_empty) as (_ & Hlogger & _).
  apply (Hlogger (CArr [CStr "my-app"; CStr "junk"]) 2).
  - split; [done|]. right. discriminate.
  - by apply (bool_decide_unpack _).
  - simpl. lia.
Defined.

(** X7: [mergeProperties] is a monoid operation with [undefined] as its
    unit, in which the second argument wins key by key: merging with
    [undefined] on either side changes nothing, merging is associative, and
    a key of the result has the value of the second bag when it is there
    and the value of the first otherwise. *)
Theorem mergeProperties_laws :
  (forall p : Properties, mergeProperties None p = p) /\
  (forall d : Properties, mergeProperties d None = d) /\
  (forall a b c : Properties,
      mergeProperties a (mergeProperties b c)
      = mergeProperties (mergeProperties a b) c) /\
  (forall (d p : PropertiesObj),
      exists m, mergeProperties (Some d) (Some p) = Some m /\
                forall k, m !! k = match p !! k with
                                   | Some v => Some v
                                   | None => d !! k
                                   end) /\
  (forall p : Properties, mergeProperties p p = p).
Proof.
  split; [done|]. split; [by intros [d|]|]. split; [|split].
  - intros [a|] [b|] [c|]; cbn [mergeProperties]; try done.
    by rewrite (assoc_L (∪)).
  - intros d p. eexists. split; [reflexivity|]. intros k.
    rewrite lookup_union. by destruct (p !! k), (d !! k).
  - intros [p|]; cbn [mergeProperties]; [|done].
    by rewrite (idemp_L (∪)).
Qed.

(** X8: [with] stacks: [logger.with(p1).with(p2)] is a new node with the
    category of [logger], no children, and the properties of [logger]
    overridden by [p1] and then by [p2]; its properties are those of
    [logger.with({...p1, ...p2})].  [getChild] with a falsy subcategory and
    properties is [with], and with a truthy subcategory it does not look at
    the properties it is given. *)
Theorem with_stacks (g : Registry) (this : NodeId) (nd : LoggerImpl)
    (p1 p2 : PropertiesObj) :
  heap g !! this = Some nd ->
  (exists g1 b1 g2 b2 bd2 g3 b3 bd3,
      with_ g this p1 = (Normal b1, g1) /\
      with_ g1 b1 p2 = (Normal b2, g2) /\
      heap g2 !! b2 = Some bd2 /\
      b1 = length (heap g) /\ b2 = S (length (heap g)) /\
      parent bd2 = Some b1 /\ category bd2 = category nd /\
      children bd2 = ∅ /\
      properties bd2 = Some (p2 ∪ (p1 ∪ default ∅ (properties nd))) /\
      with_ g this (p2 ∪ p1) = (Normal b3, g3) /\
      heap g3 !! b3 = Some bd3 /\
      properties bd3 = properties bd2) /\
  (forall (fuel : nat) (c : MaybeCategory),
      truthy c = false ->
      getChild (S fuel) g this c (Some p1) = with_ g this p1 /\
      getChild (S fuel) g this c None = (Normal this, g)) /\
  (forall (fuel : nat) (c : MaybeCategory),
      truthy c = true ->
      getChild fuel g this c (Some p1) = getChild fuel g this c None).
Proof.
  intros Hnd. split; [|split].
  - assert (forall q : PropertiesObj,
              mergeProperties (properties nd) (Some q)
              = Some (q ∪ default ∅ (properties nd))) as Hmerge.
    { intros q. destruct (properties nd); cbn [mergeProperties default];
        [done|]. by rewrite (right_id_L ∅ (∪)). }
    assert (forall q : PropertiesObj,
              exists g' bd,
                with_ g this q = (Normal (length (heap g)), g') /\
                heap g' = heap g ++ [bd] /\
                parent bd = Some this /\ category bd = category nd /\
                children bd = ∅ /\
                properties bd = Some (q ∪ default ∅ (properties nd)))
      as Hwith.
    { intros q. unfold with_. rewrite Hnd. eexists _, _.
      split; [reflexivity|]. split; [reflexivity|].
      cbn [parent category children properties parentProperties].
      by rewrite Hnd, Hmerge. }
    destruct (Hwith p1) as (g1 & bd1 & H1 & Hheap1 & _ & Hcat1 & _ & Hprops1).
    destruct (Hwith (p2 ∪ p1)) as (g3 & bd3 & H3 & Hheap3 & _ & _ & _ & Hprops3).
    assert (heap g1 !! length (heap g) = Some bd1) as Hb1.
    { rewrite Hheap1. by apply list_lookup_middle. }
    exists g1, (length (heap g)).
    unfold with_ at 2. rewrite Hb1.
    eexists _, _, _, g3, (length (heap g)), bd3.
    split; [done|]. split; [reflexivity|].
    split; [apply list_lookup_middle; reflexivity|].
    split; [done|].
    split; [by rewrite Hheap1, length_app, Nat.add_1_r|].
    split; [done|]. split; [done|]. split; [done|].
    assert (mergeProperties (parentProperties g1 (Some (length (heap g))))
                            (Some p2)
            = Some (p2 ∪ (p1 ∪ default ∅ (properties nd)))) as Hprops2.
    { cbn [parentProperties]. by rewrite Hb1, Hprops1. }
    split; [exact Hprops2|]. split; [done|].
    split; [rewrite Hheap3; by apply list_lookup_middle|].
    cbn [properties]. rewrite Hprops2, Hprops3.
    by rewrite (assoc_L (∪)).
  - intros fuel c Hc. rewrite !getChild_unfold, Hnd, Hc. done.
  - intros fuel c Hc. destruct fuel as [|fuel]; [done|].
    rewrite !getChild_unfold, Hnd, Hc. done.
Qed.

Lemma with_stacks_witness :
  exists g1 b1 g2 b2 bd2 g3 b3 bd3,
    with_ Examples.fooRegistry Examples.foo {["a" := VNumber 1]}
      = (Normal b1, g1) /\
    with_ g1 b1 {["a" := VNumber 2]} = (Normal b2, g2) /\
    heap g2 !! b2 = Some bd2 /\
    b1 = length (heap Examples.fooRegistry) /\
    b2 = S (length (heap Examples.fooRegistry)) /\
    parent bd2 = Some b1 /\ category bd2 = ["foo"] /\
    children bd2 = ∅ /\
    properties bd2
    = Some ({["a" := VNumber 2]} ∪ ({["a" := VNumber 1]} ∪ default ∅ None)) /\
    with_ Examples.fooRegistry Examples.foo
      ({["a" := VNumber 2]} ∪ {["a" := VNumber 1]}) = (Normal b3, g3) /\
    heap g3 !! b3 = Some bd3 /\
    properties bd3 = properties bd2.
Proof.
  assert (exists nd, heap Examples.fooRegistry !! Examples.foo = Some nd /\
                     category nd = ["foo"] /\ properties nd = None)
    as (nd & Hnd & Hcat & Hprops) by (by eexists).
  destruct (with_stacks Examples.fooRegistry Examples.foo nd
              {["a" := VNumber 1]} {["a" := VNumber 2]} Hnd)
    as [Hstack _].
  rewrite Hcat, Hprops in Hstack. exact Hstack.
Defined.

End TreeProperties.

(** ** Message rendering *)
Module RenderProperties.
Import Logger.

Lemma renderMessage_nil (template : list string) :
  renderMessage template [] = VString <$> template.
Proof. induction template as [|t template IH]; simpl; [done|]. by rewrite IH. Qed.

Lemma renderMessage_length (template : list string) :
  forall values,
    length (renderMessage template values)
    = length template + Nat.min (length values) (length template).
Proof.
  induction template as [|t template IH]; intros values; simpl.
  - by rewrite Nat.min_0_r.
  - destruct values as [|v values]; simpl; rewrite IH; simpl; lia.
Qed.

Lemma renderMessage_even (template : list string) :
  forall values i,
    i <= length values ->
    renderMessage template values !! (2 * i) = VString <$> template !! i.
Proof.
  induction template as [|t template IH]; intros values i Hi; [done|].
  destruct i as [|i]; [done|].
  destruct values as [|v values]; [simpl in Hi; lia|].
  replace (2 * S i) with (S (S (2 * i))) by lia.
  cbn [renderMessage lookup list_lookup]. simpl in Hi.
  apply IH. lia.
Qed.

Lemma renderMessage_odd (template : list string) :
  forall values i,
    i < length template -> i < length values ->
    renderMessage template values !! (2 * i + 1) = values !! i.
Proof.
  induction template as [|t template IH]; intros values i Ht Hv;
    [simpl in Ht; lia|].
  destruct values as [|v values]; [simpl in Hv; lia|].
  destruct i as [|i]; [done|].
  replace (2 * S i + 1) with (S (S (2 * i + 1))) by lia.
  cbn [renderMessage lookup list_lookup]. simpl in Ht, Hv.
  apply IH; lia.
Qed.

Lemma renderMessage_rest (template : list string) :
  forall values i,
    length values <= i ->
    renderMessage template values !! (length values + i)
    = VString <$> template !! i.
Proof.
  induction template as [|t template IH]; intros values i Hi; [done|].
  destruct values as [|v values].
  - rewrite renderMessage_nil. cbn [length Nat.add]. apply list_lookup_fmap.
  - destruct i as [|i]; [simpl in Hi; lia|].
    replace (length (v :: values) + S i) with (S (S (length values + i)))
      by (simpl; lia).
    cbn [renderMessage lookup list_lookup]. simpl in Hi.
    apply IH. lia.
Qed.

Lemma renderMessage_take (template : list string) :
  forall values,
    renderMessage template values
    = renderMessage template (take (length template) values).
Proof.
  induction template as [|t template IH]; intros values; [done|].
  destruct values as [|v values]; [done|].
  cbn [renderMessage length take]. by rewrite <- IH.
Qed.

(** X9: [renderMessage] interleaves the template with the values: the
    result starts with a literal, literal [i] is at position [2 i] and
    value [i] at position [2 i + 1] as long as there are values; once the
    values are used up the remaining literals follow one another; values
    beyond the last literal are dropped.  No literal is ever dropped: the
    result has one element per literal and one per value used. *)
Theorem renderMessage_interleaves (template : list string)
    (values : list Value) :
  length (renderMessage template values)
  = length template + Nat.min (length values) (length template) /\
  (forall i, i <= length values ->
     renderMessage template values !! (2 * i) = VString <$> template !! i) /\
  (forall i, i < length template -> i < length values ->
     renderMessage template values !! (2 * i + 1) = values !! i) /\
  (forall i, length values <= i ->
     renderMessage template values !! (length values + i)
     = VString <$> template !! i) /\
  renderMessage template values
  = renderMessage template (take (length template) values) /\
  renderMessage template [] = VString <$> template /\
  renderMessage [] values = [].
Proof.
  split; [apply renderMessage_length|].
  split; [apply renderMessage_even|].
  split; [apply renderMessage_odd|].
  split; [apply renderMessage_rest|].
  split; [apply renderMessage_take|].
  split; [apply renderMessage_nil|done].
Qed.

Lemma renderMessage_interleaves_witness :
  renderMessage ["Hello, "; "!"] [VNumber 123] !! (2 * 0 + 1)
  = [VNumber 123] !! 0.
Proof.
  apply (proj1 (proj2 (proj2 (renderMessage_interleaves _ _)))); simpl; lia.
Defined.

End RenderProperties.

(** ** Resetting a subtree *)
Module ResetProperties.
Import Category Filter Logger Emission Reset LoggerFacts EmissionFacts.

(** A node with its configuration removed, as [reset] leaves it. *)
Definition cleared (nd : LoggerImpl) : LoggerImpl :=
  {| parent := parent nd; category := category nd;
     properties := properties nd; children := children nd;
     sinks := []; parentSinks := inherit;
     filters := []; propTransformers := [] |}.

(** [m] is [n] or is reached from [n] through tables of children. *)
Inductive descends (g : Registry) : NodeId -> NodeId -> Prop :=
| descends_refl n : descends g n n
| descends_child n nd name c m :
    heap g !! n = Some nd -> children nd !! name = Some c ->
    descends g c m -> descends g n m.

(** [g'] is [g] with the nodes in [D] reset and nothing else changed. *)
Definition resetOf (g : Registry) (D : NodeId -> Prop) (g' : Registry)
  : Prop :=
  globalRootLogger g' = globalRootLogger g /\
  length (heap g') = length (heap g) /\
  forall n nd, heap g !! n = Some nd ->
    exists nd', heap g' !! n = Some nd' /\
                (D n -> nd' = cleared nd) /\
                (nd' = nd \/ D n).

Lemma resetOf_refl (g : Registry) : resetOf g (fun _ => False) g.
Proof.
  split; [done|]. split; [done|]. intros n nd Hn. exists nd.
  split; [done|]. split; [done|by left].
Qed.

Lemma resetOf_weaken (g g' : Registry) (D D' : NodeId -> Prop) :
  (forall n, D n <-> D' n) -> resetOf g D g' -> resetOf g D' g'.
Proof.
  intros HD (Hroot & Hlen & Hnodes). split; [done|]. split; [done|].
  intros n nd Hn. destruct (Hnodes n nd Hn) as (nd' & Hn' & Hin & Hout).
  exists nd'. split; [done|]. split.
  - intros HD'. apply Hin. by apply HD.
  - destruct Hout as [?|?]; [by left|right; by apply HD].
Qed.

Lemma resetOf_trans (g g1 g2 : Registry) (D1 D2 : NodeId -> Prop) :
  resetOf g D1 g1 -> resetOf g1 D2 g2 ->
  resetOf g (fun n => D1 n \/ D2 n) g2.
Proof.
  intros (Hroot1 & Hlen1 & Hnodes1) (Hroot2 & Hlen2 & Hnodes2).
  split; [congruence|]. split; [congruence|].
  intros n nd Hn.
  destruct (Hnodes1 n nd Hn) as (nd1 & Hn1 & Hin1 & Hout1).
  destruct (Hnodes2 n nd1 Hn1) as (nd2 & Hn2 & Hin2 & Hout2).
  exists nd2. split; [done|]. split.
  - intros [HD1|HD2].
    + pose proof (Hin1 HD1) as E1.
      destruct Hout2 as [E2|HD2]; [congruence|].
      by rewrite (Hin2 HD2), E1.
    + rewrite (Hin2 HD2).
      destruct Hout1 as [E1|HD1]; [by rewrite E1|by rewrite (Hin1 HD1)].
  - destruct Hout2 as [E2|HD2]; [|by right; right].
    destruct Hout1 as [E1|HD1]; [left; congruence|by right; left].
Qed.

Lemma resetOf_node (g g' : Registry) (D : NodeId -> Prop) (n : NodeId)
    (nd : LoggerImpl) :
  resetOf g D g' -> heap g !! n = Some nd ->
  exists nd', heap g' !! n = Some nd' /\
              parent nd' = parent nd /\ category nd' = category nd /\
              properties nd' = properties nd /\ children nd' = children nd.
Proof.
  intros (_ & _ & Hnodes) Hn.
  destruct (Hnodes n nd Hn) as (nd' & Hn' & Hin & [->|HD]).
  - by exists nd.
  - exists nd'. split; [done|]. by rewrite (Hin HD).
Qed.

Lemma resetOf_node_inv (g g' : Registry) (D : NodeId -> Prop) (n : NodeId)
    (nd' : LoggerImpl) :
  resetOf g D g' -> heap g' !! n = Some nd' ->
  exists nd, heap g !! n = Some nd /\
             parent nd' = parent nd /\ category nd' = category nd /\
             properties nd' = properties nd /\ children nd' = children nd.
Proof.
  intros Hreset Hn'.
  assert (is_Some (heap g !! n)) as [nd Hn].
  { apply lookup_lt_is_Some. destruct Hreset as (_ & <- & _).
    by eapply lookup_lt_Some. }
  destruct (resetOf_node g g' D n nd Hreset Hn) as (nd'' & Hn'' & ?).
  exists nd. split; [done|]. congruence.
Qed.

Lemma resetOf_wf (g g' : Registry) (D : NodeId -> Prop) :
  wf g -> resetOf g D g' -> wf g'.
Proof.
  intros [Hroot Hparent Hchildren] Hreset. constructor.
  - intros r Hr. rewrite (proj1 Hreset) in Hr.
    destruct (Hroot r Hr) as (nd & Hnd & Hpar & Hcat).
    destruct (resetOf_node g g' D r nd Hreset Hnd) as (nd' & ? & ? & ? & _).
    exists nd'. split; [done|]. split; congruence.
  - intros n nd' p Hn' Hpar.
    destruct (resetOf_node_inv g g' D n nd' Hreset Hn')
      as (nd & Hn & Hp & _).
    apply (Hparent n nd p Hn). congruence.
  - intros n nd' name c Hn' Hc.
    destruct (resetOf_node_inv g g' D n nd' Hreset Hn')
      as (nd & Hn & _ & Hcat & _ & Hch).
    rewrite Hch in Hc.
    destruct (Hchildren n nd name c Hn Hc) as (cd & Hcd & Hcpar & Hccat).
    destruct (resetOf_node g g' D c cd Hreset Hcd) as (cd' & ? & ? & ? & _).
    exists cd'. split; [done|]. split; congruence.
Qed.

Lemma resetOf_descends (g g' : Registry) (D : NodeId -> Prop) (a b : NodeId) :
  resetOf g D g' -> descends g' a b <-> descends g a b.
Proof.
  intros Hreset. split.
  - induction 1 as [n|n nd' name c m Hn' Hc _ IH]; [constructor|].
    destruct (resetOf_node_inv g g' D n nd' Hreset Hn')
      as (nd & Hn & _ & _ & _ & Hch).
    rewrite Hch in Hc. by eapply descends_child.
  - induction 1 as [n|n nd name c m Hn Hc _ IH]; [constructor|].
    destruct (resetOf_node g g' D n nd Hreset Hn)
      as (nd' & Hn' & _ & _ & _ & Hch).
    rewrite <- Hch in Hc. by eapply descends_child.
Qed.

Lemma reset_resetOf (g : Registry) (this : NodeId) :
  resetOf g (fun n => n = this) (reset g this).
Proof.
  split; [done|]. split.
  { unfold reset, updateNode. cbn [heap]. apply length_alter. }
  intros n nd Hn. unfold reset. rewrite lookup_updateNode, Hn. simpl.
  eexists. split; [done|]. case_decide.
  - subst. split; [done|]. by right.
  - split; [done|]. by left.
Qed.

Lemma objectValues_spec (m : gmap string NodeId) (c : NodeId) :
  c ∈ objectValues m <-> exists name, m !! name = Some c.
Proof.
  unfold objectValues. rewrite list_elem_of_fmap. split.
  - intros ([name c'] & -> & Hin). exists name.
    by apply elem_of_map_to_list in Hin.
  - intros [name Hname]. exists (name, c). split; [done|].
    by apply elem_of_map_to_list.
Qed.

Lemma descends_unfold (g : Registry) (this n : NodeId) (nd : LoggerImpl) :
  heap g !! this = Some nd ->
  descends g this n <->
  (exists c, c ∈ objectValues (children nd) /\ descends g c n) \/ n = this.
Proof.
  intros Hnd. split.
  - intros Hd. inversion Hd as [|? nd' name c ? Hn Hc Hrest]; subst;
      [by right|].
    left. exists c. split; [|done]. apply objectValues_spec.
    exists name. congruence.
  - intros [(c & Hc & Hd)| ->]; [|constructor].
    apply objectValues_spec in Hc as [name Hc]. by eapply descends_child.
Qed.

Lemma resetDescendants_resetOf (fuel : nat) :
  forall g this,
    wf g -> is_Some (heap g !! this) -> length (heap g) <= this + fuel ->
    exists g', resetDescendants fuel g this = Normal g' /\
               resetOf g (descends g this) g'.
Proof.
  induction fuel as [|fuel IH]; intros g this Hwf [nd Hnd] Hlen.
  { apply lookup_lt_Some in Hnd. lia. }
  cbn [resetDescendants]. rewrite Hnd.
  assert (forall cs g1 D1,
            (forall c, c ∈ cs -> exists name, children nd !! name = Some c) ->
            resetOf g D1 g1 ->
            exists g2,
              foldl (fun acc child =>
                       match acc with
                       | Normal g' => resetDescendants fuel g' child
                       | other => other
                       end) (Normal g1) cs = Normal g2 /\
              resetOf g (fun n => D1 n \/
                                  exists c, c ∈ cs /\ descends g c n) g2)
    as Hfold.
  { induction cs as [|c cs IHcs]; intros g1 D1 Hcs Hreset1.
    - exists g1. split; [done|]. eapply resetOf_weaken; [|exact Hreset1].
      intros n. split; [by left|]. intros [?|(c & Hc & _)]; [done|].
      by apply elem_of_nil in Hc.
    - cbn [foldl].
      destruct (Hcs c) as [name Hname]; [by left|].
      destruct (wf_children g Hwf this nd name c Hnd Hname)
        as (cd & Hcd & Hcpar & _).
      pose proof (wf_parent g Hwf c cd this Hcd Hcpar) as Hlt.
      destruct (resetOf_node g g1 D1 c cd Hreset1 Hcd) as (cd1 & Hcd1 & _).
      destruct (IH g1 c) as (g1' & Hstep & Hreset1').
      { by eapply resetOf_wf. }
      { by eexists. }
      { destruct Hreset1 as (_ & -> & _). lia. }
      rewrite Hstep.
      destruct (IHcs g1' (fun n => D1 n \/ descends g c n))
        as (g2 & Hrest & Hreset2).
      { intros c' Hc'. apply Hcs. by right. }
      { eapply resetOf_weaken;
          [|exact (resetOf_trans g g1 g1' _ _ Hreset1 Hreset1')].
        intros n. cbv beta. by rewrite (resetOf_descends g g1 D1 c n). }
      exists g2. split; [done|]. eapply resetOf_weaken; [|exact Hreset2].
      intros n. cbv beta. split.
      + intros [[?|?]|(c' & Hc' & ?)]; [by left| |].
        * right. exists c. split; [by left|done].
        * right. exists c'. split; [by right|done].
      + intros [?|(c' & Hc' & ?)]; [by left; left|].
        apply elem_of_cons in Hc' as [->|Hc']; [by left; right|].
        right. by exists c'. }
  destruct (Hfold (objectValues (children nd)) g (fun _ => False))
    as (g2 & Hrun & Hreset2).
  { intros c Hc. by apply objectValues_spec. }
  { apply resetOf_refl. }
  rewrite Hrun. eexists. split; [reflexivity|].
  eapply resetOf_weaken;
    [|exact (resetOf_trans g g2 _ _ _ Hreset2 (reset_resetOf g2 this))].
  intros n. cbv beta. rewrite (descends_unfold g this n nd Hnd).
  split.
  - intros [[[]|?]|?]; auto.
  - intros [?|?]; auto.
Qed.

(** X10: [resetDescendants] returns on every well-formed tree, and resets
    exactly the nodes that are reached from the receiver through tables of
    children: each of them loses its sinks, filters and properties
    transformers and inherits sinks again, while its parent, category,
    bound properties and children stay; every other node, such as a
    variant made by [with], is left as it was. *)
Theorem resetDescendants_resets_subtree (g : Registry) (this : NodeId)
    (fuel : nat) :
  wf g -> is_Some (heap g !! this) -> length (heap g) <= this + fuel ->
  exists g',
    resetDescendants fuel g this = Normal g' /\
    wf g' /\
    globalRootLogger g' = globalRootLogger g /\
    length (heap g') = length (heap g) /\
    forall n nd, heap g !! n = Some nd ->
      exists nd', heap g' !! n = Some nd' /\
                  (descends g this n -> nd' = cleared nd) /\
                  (nd' = nd \/ descends g this n).
Proof.
  intros Hwf Hthis Hfuel.
  destruct (resetDescendants_resetOf fuel g this Hwf Hthis Hfuel)
    as (g' & Hrun & Hreset).
  exists g'. split; [done|]. split; [by eapply resetOf_wf|].
  exact Hreset.
Qed.

Lemma resetDescendants_resets_subtree_witness :
  exists g',
    resetDescendants 4 Examples.failingRegistry 0 = Normal g' /\
    wf g' /\
    globalRootLogger g' = globalRootLogger Examples.failingRegistry /\
    length (heap g') = length (heap Examples.failingRegistry) /\
    forall n nd, heap Examples.failingRegistry !! n = Some nd ->
      exists nd', heap g' !! n = Some nd' /\
                  (descends Examples.failingRegistry 0 n -> nd' = cleared nd) /\
                  (nd' = nd \/ descends Examples.failingRegistry 0 n).
Proof.
  apply (resetDescendants_resets_subtree Examples.failingRegistry 0 4).
  - apply wf_failingRegistry.
  - eexists. reflexivity.
  - vm_compute. lia.
Defined.

Lemma descends_valid (g : Registry) (a n : NodeId) :
  wf g -> descends g a n -> is_Some (heap g !! a) -> is_Some (heap g !! n).
Proof.
  intros Hwf. induction 1 as [n|n nd name c m Hn Hc _ IH]; [done|].
  intros _. apply IH.
  destruct (wf_children g Hwf n nd name c Hn Hc) as (cd & Hcd & _).
  by eexists.
Qed.

Lemma descends_snoc (g : Registry) (a b c : NodeId) (bd : LoggerImpl)
    (name : string) :
  descends g a b -> heap g !! b = Some bd -> children bd !! name = Some c ->
  descends g a c.
Proof.
  induction 1 as [n|n nd name' c' m Hn Hc _ IH]; intros Hb Hname.
  - eapply descends_child; [done|done|constructor].
  - eapply descends_child; [done|done|]. by apply IH.
Qed.

Section Silence.
Context `{UserCode}.
Variable g g' : Registry.
Variable r : NodeId.
Hypothesis Hwf : wf g.
Hypothesis Hreset : resetOf g (descends g r) g'.
Hypothesis Hroot : globalRootLogger g = Some r.

(** After the reset a logger under the root resolves no sink and its
    filter chain accepts every record without running any code. *)
Definition silent (n : NodeId) : Prop :=
  forall fuel, n < fuel ->
    getSinks fuel g' n = Normal [] /\
    forall rid w, filter g' fuel n rid w = (Normal true, w).

Lemma silent_cleared (n : NodeId) (nd : LoggerImpl) :
  heap g !! n = Some nd -> descends g r n ->
  (forall p, parent nd = Some p -> silent p) ->
  silent n.
Proof.
  intros Hn Hd Hparent fuel Hfuel.
  destruct Hreset as (_ & _ & Hnodes).
  destruct (Hnodes n nd Hn) as (nd' & Hn' & Hin & _).
  rewrite (Hin Hd) in Hn'.
  destruct fuel as [|fuel]; [lia|].
  rewrite getSinks_unfold, Hn'. cbn [parent parentSinks sinks cleared].
  destruct (parent nd) as [p|] eqn:Hp.
  - pose proof (wf_parent g Hwf n nd p Hn Hp) as Hlt.
    destruct (Hparent p eq_refl fuel) as [Hsinks Hfilter]; [lia|].
    rewrite Hsinks. split; [done|]. intros rid w.
    rewrite filter_unfold, Hn'. cbn [filters cleared filterLoop length].
    cbn [Nat.ltb Nat.leb parent cleared]. rewrite Hp. apply Hfilter.
  - split; [done|]. intros rid w.
    rewrite filter_unfold, Hn'. cbn [filters cleared filterLoop length].
    cbn [Nat.ltb Nat.leb parent cleared]. by rewrite Hp.
Qed.

Lemma silent_descendants (a n : NodeId) :
  descends g a n -> descends g r a -> silent a -> silent n.
Proof.
  induction 1 as [n|n nd name c m Hn Hc _ IH]; intros Hra Hsilent; [done|].
  destruct (wf_children g Hwf n nd name c Hn Hc) as (cd & Hcd & Hpar & _).
  apply IH.
  - by eapply descends_snoc.
  - apply (silent_cleared c cd Hcd); [by eapply descends_snoc|].
    intros p Hp. by simplify_eq.
Qed.

Lemma silent_root : silent r.
Proof.
  destruct (wf_root g Hwf r Hroot) as (rd & Hrd & Hpar & _).
  apply (silent_cleared r rd Hrd); [constructor|].
  intros p Hp. congruence.
Qed.

End Silence.

(** X11: after [resetDescendants] on the root logger, every logger under
    the root resolves to no sink, its filter chain accepts every record
    without calling anything, and [emit] on it returns at once, leaving
    no trace: nothing is filtered, nothing is delivered, no callback is
    run. *)
Theorem reset_silences_the_tree `{UserCode} (g : Registry) (r : NodeId)
    (fuel : nat) :
  wf g -> globalRootLogger g = Some r -> length (heap g) <= r + fuel ->
  exists g',
    resetDescendants fuel g r = Normal g' /\
    forall n, descends g r n ->
      is_Some (heap g' !! n) /\
      getSinks (ancestorFuel g') g' n = Normal [] /\
      forall (metaLogger : NodeId) (k : nat) (rid : RecId)
             (bypass : option (gset SinkId)) (w : World),
        filter g' (ancestorFuel g') n rid w = (Normal true, w) /\
        emit g' metaLogger (S k) n rid bypass w = (Normal tt, w).
Proof.
  intros Hwf Hroot Hfuel.
  destruct (wf_root g Hwf r Hroot) as (rd & Hrd & _).
  destruct (resetDescendants_resetOf fuel g r Hwf) as (g' & Hrun & Hreset);
    [by eexists|done|].
  exists g'. split; [done|]. intros n Hn.
  assert (is_Some (heap g !! n)) as [nd Hnd].
  { apply (descends_valid g r n Hwf Hn). by eexists. }
  destruct (resetOf_node g g' _ n nd Hreset Hnd) as (nd' & Hnd' & _).
  split; [by eexists|].
  assert (n < ancestorFuel g') as Hlt.
  { apply lookup_lt_Some in Hnd'. unfold ancestorFuel. lia. }
  destruct (silent_descendants g g' r Hwf Hreset r n Hn (descends_refl g r)
              (silent_root g g' r Hwf Hreset Hroot) (ancestorFuel g') Hlt)
    as [Hsinks Hfilter].
  split; [done|]. intros metaLogger k rid bypass w.
  split; [apply Hfilter|].
  rewrite emit_unfold, Hfilter, Hsinks. done.
Qed.

Lemma reset_silences_the_tree_witness :
  exists g',
    resetDescendants 4 Examples.failingRegistry 0 = Normal g' /\
    forall n, descends Examples.failingRegistry 0 n ->
      is_Some (heap g' !! n) /\
      getSinks (ancestorFuel g') g' n = Normal [] /\
      forall (metaLogger : NodeId) (k : nat) (rid : RecId)
             (bypass : option (gset SinkId)) (w : World),
        filter (H := Examples.exampleCode) g' (ancestorFuel g') n rid w
        = (Normal true, w) /\
        emit (H := Examples.exampleCode) g' metaLogger (S k) n rid bypass w
        = (Normal tt, w).
Proof.
  apply (reset_silences_the_tree (H := Examples.exampleCode)
           Examples.failingRegistry 0 4).
  - apply wf_failingRegistry.
  - reflexivity.
  - vm_compute. lia.
Defined.

End ResetProperties.

(** ** Emission: delivery, failures of filters, records of plain data *)
Module EmissionProperties.
Import Category Filter Logger Emission CategoryFacts LoggerFacts EmissionFacts.

Section Quiet.
Context `{UserCode}.
Variable g : Registry.

Lemma filterLoop_allAccept_app (this : NodeId) (rid : RecId)
    (pre rest : list Filter) (i : nat) (w w1 : World) :
  allAccept g this rid i pre w w1 ->
  filterLoop g this i (pre ++ rest) rid w
  = filterLoop g this (i + length pre) rest rid w1.
Proof.
  induction 1 as [i w|i f fs w w1 w2 Hcall _ IH].
  - by rewrite Nat.add_0_r.
  - cbn [app filterLoop length]. rewrite Hcall, IH.
    by rewrite Nat.add_succ_r.
Qed.

End Quiet.

(** X12: when the filter chain accepts a record and the sinks return, [emit]
    calls every resolved sink that is not bypassed once per occurrence in
    the resolved sequence, in the order of that sequence (the sinks of the
    ancestors first) and with the same record, creates no record and
    returns normally. *)
Theorem emit_delivers_in_order `{UserCode} (g : Registry)
    (metaLogger this : NodeId) (rid : RecId) (bypass : option (gset SinkId))
    (w w1 : World) (ss : list SinkId) (fuel : nat) :
  rid < length (records w) ->
  filter g (ancestorFuel g) this rid w = (Normal true, w1) ->
  getSinks (ancestorFuel g) g this = Normal ss ->
  (forall s w0, s ∈ ss -> hasSink bypass s = false ->
                rid < length (records w0) ->
                exists w0', callSink g s rid w0 = (Normal tt, w0')) ->
  exists w',
    emit g metaLogger (S fuel) this rid bypass w = (Normal tt, w') /\
    sinkCalls (trace w')
    = sinkCalls (trace w)
      ++ ((fun s => (s, rid))
            <$> List.filter (fun s => negb (hasSink bypass s)) ss) /\
    length (records w') = length (records w).
Proof.
  intros Hrid Hfilter Hsinks Hreturn.
  rewrite emit_unfold, Hfilter, Hsinks.
  destruct (filter_quiet g rid (ancestorFuel g) this w) as [Hlen Hcalls].
  rewrite Hfilter in Hlen, Hcalls. cbn [snd] in Hlen, Hcalls.
  rewrite <- Hlen, <- Hcalls. rewrite <- Hlen in Hrid.
  clear Hfilter Hsinks Hlen Hcalls.
  revert w1 Hrid. induction ss as [|s ss IH]; intros w1 Hrid.
  - exists w1. cbn [dispatch List.filter fmap list_fmap].
    by rewrite app_nil_r.
  - cbn [dispatch List.filter].
    destruct (hasSink bypass s) eqn:Hs; cbn [negb].
    + apply IH; [|done]. intros s' w0 Hs'. apply Hreturn. by right.
    + destruct (Hreturn s w1) as (w2 & Hcall); [by left|done|done|].
      destruct (callSink_trace g s rid w1) as [Hlen2 Hcalls2].
      rewrite Hcall in Hlen2, Hcalls2 |- *. cbn [snd] in Hlen2, Hcalls2.
      destruct (IH (fun s' w0 Hs' => Hreturn s' w0 (list_elem_of_further _ _ _ Hs'))
                   w2) as (w' & Hrun & Hcalls' & Hlen'); [lia|].
      exists w'. split; [done|]. split; [|congruence].
      rewrite Hcalls', Hcalls2. cbn [fmap list_fmap].
      by rewrite <- app_assoc.
Qed.

Section DeliveryExample.
Import Examples.
#[local] Existing Instance exampleCode.

(** Sink 2 on the root, sinks 3 and 2 on [foo]. *)
Definition orderedRegistry : Registry :=
  pushSink 2 (pushSink 3 (pushSink 2 fooRegistry 0) foo) foo.

Lemma emit_delivers_in_order_witness :
  exists w',
    emit orderedRegistry metaLogger 1 foo 0 None
         (allocRecord (fixture "info") emptyWorld) = (Normal tt, w') /\
    sinkCalls (trace w')
    = sinkCalls (trace (allocRecord (fixture "info") emptyWorld))
      ++ ((fun s => (s, 0))
            <$> List.filter (fun s => negb (hasSink None s)) [2; 3; 2]) /\
    length (records w')
    = length (records (allocRecord (fixture "info") emptyWorld)).
Proof.
  apply (emit_delivers_in_order orderedRegistry metaLogger foo 0 None
           (allocRecord (fixture "info") emptyWorld)
           (allocRecord (fixture "info") emptyWorld) [2; 3; 2] 0).
  - simpl. lia.
  - reflexivity.
  - reflexivity.
  - intros s w0 Hs _ Hlt. unfold callSink, callOn. cbn [records logEvent].
    destruct (lookup_lt_is_Some_2 (records w0) 0 Hlt) as [r Hr].
    rewrite Hr.
    destruct s as [|[|s]].
    + exfalso.
      repeat (apply elem_of_cons in Hs as [Hs|Hs]; [discriminate Hs|]).
      by apply elem_of_nil in Hs.
    + exfalso.
      repeat (apply elem_of_cons in Hs as [Hs|Hs]; [discriminate Hs|]).
      by apply elem_of_nil in Hs.
    + eexists. reflexivity.
Defined.

End DeliveryExample.

(** X13: filters run outside the [try] block of [emit]: when a filter of
    the chain throws, after the filters before it have accepted, the
    exception leaves [filter] and [emit] as it is; no sink has been called,
    no further filter has been called, no record has been created and
    nothing is reported to the meta logger. *)
Theorem filter_failure_escapes `{UserCode} (g : Registry)
    (metaLogger this : NodeId) (nd : LoggerImpl) (pre suf : list Filter)
    (f : Filter) (rid : RecId) (bypass : option (gset SinkId))
    (w w1 w2 : World) (e : JsError) (fuel : nat) :
  heap g !! this = Some nd ->
  filters nd = pre ++ f :: suf ->
  allAccept g this rid 0 pre w w1 ->
  callFilter g this (length pre) f rid w1 = (Thrown e, w2) ->
  filter g (ancestorFuel g) this rid w = (Thrown e, w2) /\
  emit g metaLogger (S fuel) this rid bypass w = (Thrown e, w2) /\
  sinkCalls (trace w2) = sinkCalls (trace w) /\
  filterCalls (trace w2)
  = filterCalls (trace w)
    ++ ((fun j => (this, j, rid)) <$> seq 0 (S (length pre))) /\
  length (records w2) = length (records w).
Proof.
  intros Hnd Hfilters Haccept Hthrow.
  assert (filter g (ancestorFuel g) this rid w = (Thrown e, w2)) as Hfilter.
  { unfold ancestorFuel. rewrite filter_unfold, Hnd, Hfilters.
    rewrite (filterLoop_allAccept_app g this rid pre (f :: suf) 0 w w1)
      by done.
    cbn [filterLoop Nat.add]. by rewrite Hthrow. }
  split; [done|]. split; [by rewrite emit_unfold, Hfilter|].
  destruct (filter_quiet g rid (ancestorFuel g) this w) as [Hlen Hcalls].
  rewrite Hfilter in Hlen, Hcalls. cbn [snd] in Hlen, Hcalls.
  split; [done|]. split; [|done].
  assert (filterCalls (trace w1)
          = filterCalls (trace w)
            ++ ((fun j => (this, j, rid)) <$> seq 0 (length pre))) as Hpre.
  { destruct (filterLoop_filterCalls g this rid pre 0 w)
      as (k & _ & Hk & Hall).
    apply filterLoop_true in Haccept. rewrite Haccept in Hk, Hall.
    cbn [fst snd] in Hk, Hall. by rewrite <- (Hall eq_refl). }
  pose proof (callFilter_filterCalls g this (length pre) f rid w1) as Hlast.
  rewrite Hthrow in Hlast. cbn [snd] in Hlast.
  rewrite Hlast, Hpre, <- app_assoc. f_equal.
  rewrite seq_S, fmap_app. done.
Qed.

Section FilterFailureExample.
Import Examples.
#[local] Existing Instance exampleCode.

(** The filter that [toFilter] makes of a level. *)
Definition levelFilter (level : string) : Filter :=
  match toFilter (FLLevel level) with
  | inr f => f
  | inl _ => fun _ => Ret false
  end.

(** Sink 0 and the level filter of [info] on [foo]. *)
Definition strictRegistry : Registry :=
  pushFilter (levelFilter "info") (pushSink 0 fooRegistry foo) foo.

Lemma filter_failure_escapes_witness :
  emit strictRegistry metaLogger 1 foo 0 None
       (allocRecord (fixture "trace") emptyWorld)
  = (Thrown (TypeError "Invalid log level: trace."),
     logEvent (EvFilter foo 0 0) (allocRecord (fixture "trace") emptyWorld))
  /\ sinkCalls (trace (logEvent (EvFilter foo 0 0)
                         (allocRecord (fixture "trace") emptyWorld)))
     = sinkCalls (trace (allocRecord (fixture "trace") emptyWorld)).
Proof.
  assert (exists nd, heap strictRegistry !! foo = Some nd /\
                     filters nd = [] ++ levelFilter "info" :: [])
    as (nd & Hnd & Hfilters) by (eexists; split; reflexivity).
  destruct (filter_failure_escapes strictRegistry metaLogger foo nd []
              [] (levelFilter "info") 0 None
              (allocRecord (fixture "trace") emptyWorld)
              (allocRecord (fixture "trace") emptyWorld)
              (logEvent (EvFilter foo 0 0)
                 (allocRecord (fixture "trace") emptyWorld))
              (TypeError "Invalid log level: trace.") 0 Hnd Hfilters)
    as (_ & Hemit & Hcalls & _).
  - constructor.
  - reflexivity.
  - split; [exact Hemit|exact Hcalls].
Defined.

End FilterFailureExample.

(** X14: a lazy message callback that returns without making a record is
    not memoized: every read of [message] of the record calls the callback
    again and throws [TypeError: No log record was made.], the record keeps
    its getters, and nothing is ever read successfully; after [n] reads the
    callback has been called [n] times. *)
Theorem lazy_callback_without_record `{UserCode} (rid : RecId)
    (c : CallbackId) (rec : LogRecord) (w : World) (n : nat) :
  records w !! rid = Some rec ->
  messageCell rec = MsgGetter c ->
  (forall m, logCallback c m = None) ->
  let after k := Nat.iter k (fun w' => (readMessage rid w').2) w in
  (forall k, readMessage rid (after k)
             = (Thrown (TypeError "No log record was made."),
                logEvent (EvLogCallback c) (after k))) /\
  (forall k, readRawMessage rid (after k)
             = (Thrown (TypeError "No log record was made."),
                logEvent (EvLogCallback c) (after k))) /\
  records (after n) = records w /\
  logCallsOf c (trace (after n)) = logCallsOf c (trace w) + n /\
  messageReads rid (trace (after n)) = messageReads rid (trace w).
Proof.
  intros Hrec Hcell Hnone after.
  assert (forall w', records w' = records w ->
            readMessage rid w'
            = (Thrown (TypeError "No log record was made."),
               logEvent (EvLogCallback c) w') /\
            readRawMessage rid w'
            = (Thrown (TypeError "No log record was made."),
               logEvent (EvLogCallback c) w')) as Hread.
  { intros w' Hw'. unfold readMessage, readRawMessage, realizeMessage.
    by rewrite Hw', Hrec, Hcell, Hnone. }
  assert (forall k, records (after k) = records w /\
                    logCallsOf c (trace (after k))
                    = logCallsOf c (trace w) + k /\
                    messageReads rid (trace (after k))
                    = messageReads rid (trace w)) as Hafter.
  { induction k as [|k (Hrecs & Hcalls & Hreads)].
    - unfold after. split; [done|]. split; [|done].
      by rewrite Nat.add_0_r.
    - unfold after in *. rewrite Nat.iter_succ.
      rewrite (proj1 (Hread _ Hrecs)). cbn [snd logEvent records trace].
      split; [done|]. split.
      + rewrite logCallsOf_snoc, Hcalls. cbn [isLogCallback].
        rewrite Nat.eqb_refl. lia.
      + rewrite messageReads_snoc, Hreads. apply app_nil_r. }
  split; [|split].
  - intros k. apply Hread, Hafter.
  - intros k. apply Hread, Hafter.
  - apply Hafter.
Qed.

Section LazyFailureExample.

(** Application code whose lazy message callbacks never make a record and
    whose sinks read the message. *)
#[local] Instance failingCallback : UserCode :=
  {| sinkBody _ _ _ := GetMessage (fun _ => Ret tt);
     propertiesCallback _ _ := inr ∅;
     logCallback _ _ := None;
     now _ := 0%Z |}.

Definition lazyWorld : World :=
  allocRecord
    {| head := {| rcategory := ["foo"]; rlevel := "info"; rtimestamp := 0 |};
       messageCell := MsgGetter 0;
       propertiesCell := PropsValue (Some ∅) |}
    emptyWorld.

Lemma lazy_callback_without_record_witness :
  logCallsOf 0
    (trace (Nat.iter 3 (fun w' => (readMessage 0 w').2) lazyWorld))
  = logCallsOf 0 (trace lazyWorld) + 3.
Proof.
  destruct (lazy_callback_without_record (H := failingCallback) 0 0 _
              lazyWorld 3 eq_refl eq_refl (fun _ => eq_refl))
    as (_ & _ & _ & Hcalls & _).
  exact Hcalls.
Defined.

End LazyFailureExample.

(** *** Records of plain data *)

Section PlainRecord.
Context `{UserCode}.
Variable g : Registry.
Variable metaLogger : NodeId.

(** The record under observation: its index, its head, its message, raw
    message and properties, all plain data, and the events before it was
    made. *)
Variable rid0 : RecId.
Variable hd0 : RecordHead.
Variable m0 : list Value.
Variable raw0 : RawMessage.
Variable p0 : Properties.
Variable t1 : list Event.

Definition plainRecord : LogRecord :=
  {| head := hd0;
     messageCell := MsgValue m0 raw0;
     propertiesCell := PropsValue p0 |}.

(** The record is as it was made, every read of it returned its data, no
    callback has been run since, and the records made after it hold no
    callback. *)
Definition plain (w : World) : Prop :=
  (forall r rec, rid0 < r -> records w !! r = Some rec ->
                 objectRecord rec /\ valueRecord rec) /\
  records w !! rid0 = Some plainRecord /\
  (exists kp km kr,
      readsOf rid0 (trace w) = readsOf rid0 t1 ++ replicate kp p0 /\
      messageReads rid0 (trace w) = messageReads rid0 t1 ++ replicate km m0 /\
      rawReads rid0 (trace w) = rawReads rid0 t1 ++ replicate kr raw0) /\
  (forall c, callsOf c (trace w) = callsOf c t1) /\
  (forall c, logCallsOf c (trace w) = logCallsOf c t1).

(** Events that keep [plain]. *)
Definition harmless (e : Event) : Prop :=
  match e with
  | EvFilter _ _ _ | EvSink _ _ => True
  | EvGetProperties r p => r <> rid0 \/ p = p0
  | EvGetMessage r m => r <> rid0 \/ m = m0
  | EvGetRawMessage r m => r <> rid0 \/ m = raw0
  | EvPropertiesCallback _ | EvLogCallback _ => False
  end.

Lemma plain_logEvent (e : Event) (w : World) :
  harmless e -> plain w -> plain (logEvent e w).
Proof.
  intros He (Hlater & Hrec & (kp & km & kr & Hp & Hm & Hr) & Hcalls & Hlogs).
  split; [done|]. split; [done|]. cbn [trace logEvent]. split; [|split].
  - destruct e as [node index r|s r|c|c|r p|r m|r m]; cbn [harmless] in He.
    + exists kp, km, kr.
      by rewrite readsOf_snoc, messageReads_snoc, rawReads_snoc, !app_nil_r.
    + exists kp, km, kr.
      by rewrite readsOf_snoc, messageReads_snoc, rawReads_snoc, !app_nil_r.
    + done.
    + done.
    + rewrite readsOf_snoc, messageReads_snoc, rawReads_snoc, !app_nil_r.
      destruct (Nat.eqb_spec r rid0) as [->|Hne].
      * destruct He as [He|He]; [done|]. subst p. exists (S kp), km, kr.
        by rewrite Hp, <- app_assoc, replicate_snoc.
      * exists kp, km, kr. by rewrite app_nil_r.
    + rewrite readsOf_snoc, messageReads_snoc, rawReads_snoc, !app_nil_r.
      destruct (Nat.eqb_spec r rid0) as [->|Hne].
      * destruct He as [He|He]; [done|]. subst m. exists kp, (S km), kr.
        by rewrite Hm, <- app_assoc, replicate_snoc.
      * exists kp, km, kr. by rewrite app_nil_r.
    + rewrite readsOf_snoc, messageReads_snoc, rawReads_snoc, !app_nil_r.
      destruct (Nat.eqb_spec r rid0) as [->|Hne].
      * destruct He as [He|He]; [done|]. subst m. exists kp, km, (S kr).
        by rewrite Hr, <- app_assoc, replicate_snoc.
      * exists kp, km, kr. by rewrite app_nil_r.
  - intros c. rewrite callsOf_snoc, Hcalls.
    destruct e; cbn [harmless isPropertiesCallback] in *; try done; lia.
  - intros c. rewrite logCallsOf_snoc, Hlogs.
    destruct e; cbn [harmless isLogCallback] in *; try done; lia.
Qed.

Lemma plain_defineProperties (rid : RecId) (v : Properties) (w : World) :
  rid0 < rid -> plain w -> plain (defineProperties rid v w).
Proof.
  intros Hlt (Hlater & Hrec & Hreads & Hcalls & Hlogs).
  split; [|split; [|done]].
  - intros r rec Hr. cbn [records defineProperties].
    rewrite list_lookup_alter. case_decide as Heq; [|by apply Hlater].
    subst r. destruct (records w !! rid) as [rec0|] eqn:Hrec0; [|done].
    intros [= <-]. split; [done|]. by apply (Hlater rid rec0).
  - cbn [records defineProperties]. rewrite list_lookup_alter_ne by lia. done.
Qed.

Lemma plain_allocRecord (rec : LogRecord) (w : World) :
  objectRecord rec -> valueRecord rec -> plain w ->
  plain (allocRecord rec w) /\ rid0 < length (records w).
Proof.
  intros Hobj Hval (Hlater & Hrec & Hreads & Hcalls & Hlogs).
  pose proof (lookup_lt_Some _ _ _ Hrec) as Hlt.
  split; [|done]. split; [|split; [|done]].
  - intros r rec' Hr. cbn [records allocRecord].
    intros [Hold|[_ Hnew]]%lookup_app_Some; [by eapply Hlater|].
    destruct (r - length (records w)); by simplify_eq/=.
  - cbn [records allocRecord]. by apply lookup_app_l_Some.
Qed.

Lemma plain_readProperties (rid : RecId) (w : World) :
  rid = rid0 \/ rid0 < rid -> plain w -> plain (readProperties g rid w).2.
Proof.
  intros Hrid Hplain. unfold readProperties.
  destruct (records w !! rid) as [rec|] eqn:Hrec; [|done].
  destruct Hrid as [->|Hlt].
  - destruct Hplain as (Hlater & Hrec0 & Hrest). simplify_eq.
    cbn [propertiesCell plainRecord snd].
    apply plain_logEvent; [by right|done].
  - destruct (proj1 Hplain rid rec Hlt Hrec) as [Hobj _].
    unfold objectRecord in Hobj.
    destruct (propertiesCell rec) as [p|logger m a].
    { cbn [snd]. apply plain_logEvent; [left; lia|done]. }
    destruct (heap g !! logger) as [nd'|]; [|done].
    destruct a as [p|c|]; [|done|]; unfold getProperties, evalPropsArg;
      match goal with
      | |- context [propTransform ?f g logger ?raw] =>
          destruct (propTransform f g logger raw)
      end; cbn [snd]; try done;
      (apply plain_logEvent; [left; lia|]);
      by apply plain_defineProperties.
Qed.

Lemma plain_readMessage (rid : RecId) (w : World) :
  rid = rid0 \/ rid0 < rid -> plain w -> plain (readMessage rid w).2.
Proof.
  intros Hrid Hplain. unfold readMessage.
  destruct (records w !! rid) as [rec|] eqn:Hrec; [|done].
  destruct Hrid as [->|Hlt].
  - destruct Hplain as (Hlater & Hrec0 & Hrest). simplify_eq.
    cbn [messageCell plainRecord snd].
    apply plain_logEvent; [by right|done].
  - destruct (proj1 Hplain rid rec Hlt Hrec) as [_ Hval].
    unfold valueRecord in Hval.
    destruct (messageCell rec) as [m raw|c]; [|done].
    cbn [snd]. apply plain_logEvent; [left; lia|done].
Qed.

Lemma plain_readRawMessage (rid : RecId) (w : World) :
  rid = rid0 \/ rid0 < rid -> plain w -> plain (readRawMessage rid w).2.
Proof.
  intros Hrid Hplain. unfold readRawMessage.
  destruct (records w !! rid) as [rec|] eqn:Hrec; [|done].
  destruct Hrid as [->|Hlt].
  - destruct Hplain as (Hlater & Hrec0 & Hrest). simplify_eq.
    cbn [messageCell plainRecord snd].
    apply plain_logEvent; [by right|done].
  - destruct (proj1 Hplain rid rec Hlt Hrec) as [_ Hval].
    unfold valueRecord in Hval.
    destruct (messageCell rec) as [m raw|c]; [|done].
    cbn [snd]. apply plain_logEvent; [left; lia|done].
Qed.

Lemma plain_emit (fuel : nat) (node : NodeId) (rid : RecId)
    (bypass : option (gset SinkId)) (w : World) :
  rid = rid0 \/ rid0 < rid -> plain w ->
  plain (emit g metaLogger fuel node rid bypass w).2.
Proof.
  intros Hok Hplain.
  apply (emit_inv g metaLogger plain (fun rid => rid = rid0 \/ rid0 < rid)
           (fun _ => True)); try done.
  - apply plain_readProperties.
  - apply plain_readMessage.
  - apply plain_readRawMessage.
  - intros node' index rid' w'. by apply plain_logEvent.
  - intros s rid' w' _ _. by apply plain_logEvent.
  - intros md sink error rid' w' Hmd Hw'.
    destruct (plain_allocRecord
                (eagerRecord md metaLogger "fatal" failureMessage
                   (PropsObject (failureProperties sink error rid')) w')
                w') as [Halloc Hlt]; [done|done|done|].
    split; [done|]. by right.
Qed.

End PlainRecord.

(** X15: a template log call makes a record of plain data: whatever the
    filters and sinks do with it, every read of [properties] returns the
    bound properties of the logger, an empty bag when there are none and
    never [undefined], every read of [message] returns the rendered
    template and every read of [rawMessage] the template; the properties
    transformers of the logger are not applied, no callback is run, and
    the record object is the same after the call. *)
Theorem template_call_is_plain_data `{UserCode} (g : Registry)
    (metaLogger this : NodeId) (nd : LoggerImpl) :
  heap g !! this = Some nd ->
  forall (level : string) (tpl : list string) (values : list Value)
         (fuel : nat) (w : World),
    let rid := length (records w) in
    let result :=
      log g metaLogger fuel this level (LogTemplate tpl values) w in
    (exists kp km kr,
        readsOf rid (trace result.2)
        = readsOf rid (trace w)
          ++ replicate kp (Some (default ∅ (properties nd))) /\
        messageReads rid (trace result.2)
        = messageReads rid (trace w)
          ++ replicate km (renderMessage tpl values) /\
        rawReads rid (trace result.2)
        = rawReads rid (trace w) ++ replicate kr (RawTemplate tpl)) /\
    (forall c, callsOf c (trace result.2) = callsOf c (trace w)) /\
    (forall c, logCallsOf c (trace result.2) = logCallsOf c (trace w)) /\
    records result.2 !! rid
    = Some {| head := {| rcategory := category nd; rlevel := level;
                         rtimestamp := now (length (records w)) |};
              messageCell := MsgValue (renderMessage tpl values)
                                      (RawTemplate tpl);
              propertiesCell :=
                PropsValue (Some (default ∅ (properties nd))) |}.
Proof.
  intros Hnd level tpl values fuel w rid result.
  assert (mergeProperties (properties nd) (Some (default ∅ None))
          = Some (default ∅ (properties nd))) as Hmerge.
  { destruct (properties nd) as [d|]; cbn [mergeProperties default];
      [|done]. by rewrite (left_id_L ∅ (∪)). }
  subst result. unfold log, logTemplate. rewrite Hnd, Hmerge.
  match goal with
  | |- context [emit g metaLogger fuel this ?r None (allocRecord ?rec w)] =>
      pose proof (plain_emit g metaLogger rid (head rec)
                    (renderMessage tpl values) (RawTemplate tpl)
                    (Some (default ∅ (properties nd))) (trace w)
                    fuel this rid None (allocRecord rec w)) as Hplain
  end.
  destruct Hplain as (_ & Hrec & Hreads & Hcalls & Hlogs).
  - by left.
  - split; [|split; [|split; [|done]]].
    + intros r rec Hr Hlook. apply lookup_lt_Some in Hlook.
      cbn [records allocRecord] in Hlook. rewrite length_app in Hlook.
      cbn [length] in Hlook. unfold rid in Hr. lia.
    + cbn [records allocRecord]. by apply list_lookup_middle.
    + exists 0, 0, 0. cbn [replicate trace allocRecord].
      by rewrite !app_nil_r.
  - split; [exact Hreads|]. split; [exact Hcalls|]. split; [exact Hlogs|].
    exact Hrec.
Qed.

Lemma template_call_is_plain_data_witness :
  exists kp km kr,
    readsOf 0
      (trace (log (H := Examples.exampleCode) Examples.transformingRegistry
                  Examples.metaLogger 4 Examples.foo "info"
                  (LogTemplate ["Hello, "; "!"] [VNumber 123])
                  emptyWorld).2)
    = readsOf 0 (trace emptyWorld) ++ replicate kp (Some (default ∅ None)) /\
    messageReads 0
      (trace (log (H := Examples.exampleCode) Examples.transformingRegistry
                  Examples.metaLogger 4 Examples.foo "info"
                  (LogTemplate ["Hello, "; "!"] [VNumber 123])
                  emptyWorld).2)
    = messageReads 0 (trace emptyWorld)
      ++ replicate km (renderMessage ["Hello, "; "!"] [VNumber 123]) /\
    rawReads 0
      (trace (log (H := Examples.exampleCode) Examples.transformingRegistry
                  Examples.metaLogger 4 Examples.foo "info"
                  (LogTemplate ["Hello, "; "!"] [VNumber 123])
                  emptyWorld).2)
    = rawReads 0 (trace emptyWorld)
      ++ replicate kr (RawTemplate ["Hello, "; "!"]).
Proof.
  assert (exists nd, heap Examples.transformingRegistry !! Examples.foo
                     = Some nd /\ properties nd = None)
    as (nd & Hnd & Hprops) by (by eexists).
  destruct (template_call_is_plain_data (H := Examples.exampleCode)
              Examples.transformingRegistry Examples.metaLogger Examples.foo
              nd Hnd "info" ["Hello, "; "!"] [VNumber 123] 4 emptyWorld)
    as (Hreads & _).
  rewrite Hprops in Hreads. exact Hreads.
Defined.

End EmissionProperties.

(** ** The formatters *)
Module FormatterProperties.
Import Logger Formatter.

Lemma append_nil (b : string) : "" +:+ b = b.
Proof. reflexivity. Qed.

Lemma append_cons (c : Ascii.ascii) (a b : string) :
  String c a +:+ b = String c (a +:+ b).
Proof. reflexivity. Qed.

Lemma append_assoc (a b c : string) : (a +:+ b) +:+ c = a +:+ (b +:+ c).
Proof.
  induction a as [|x a IH]; rewrite ?append_nil, ?append_cons; [done|].
  by rewrite IH.
Qed.

Lemma append_empty_r (a : string) : a +:+ "" = a.
Proof.
  induction a as [|x a IH]; rewrite ?append_nil, ?append_cons; [done|].
  by rewrite IH.
Qed.

Lemma length_append_string (a b : string) :
  String.length (a +:+ b) = String.length a + String.length b.
Proof.
  induction a as [|x a IH]; rewrite ?append_nil, ?append_cons; [done|].
  cbn [String.length]. by rewrite IH.
Qed.

Lemma sliceTo_append (a b : string) : sliceTo (String.length a) (a +:+ b) = a.
Proof.
  induction a as [|x a IH]; rewrite ?append_nil, ?append_cons;
    cbn [String.length sliceTo]; [by destruct b|].
  by rewrite IH.
Qed.

Lemma sliceFrom_append (a b : string) :
  sliceFrom (String.length a) (a +:+ b) = b.
Proof.
  induction a as [|x a IH]; rewrite ?append_nil, ?append_cons;
    cbn [String.length sliceFrom]; [by destruct b|done].
Qed.

Lemma sliceTo_sliceFrom (n : nat) (s : string) :
  sliceTo n s +:+ sliceFrom n s = s.
Proof.
  revert s.
  induction n as [|n IH]; intros [|c s]; cbn [sliceTo sliceFrom];
    rewrite ?append_nil, ?append_cons; try done.
  by rewrite IH.
Qed.

Lemma dropLast_snoc (a : string) (c : Ascii.ascii) :
  dropLast (a +:+ String c "") = a.
Proof.
  unfold dropLast. rewrite length_append_string. cbn [String.length].
  replace (String.length a + 1 - 1) with (String.length a) by lia.
  apply sliceTo_append.
Qed.

Lemma prefix_append (p s : string) : String.prefix p (p +:+ s) = true.
Proof.
  induction p as [|c p IH]; rewrite ?append_nil, ?append_cons;
    [by destruct s|].
  cbn [String.prefix]. destruct (Ascii.ascii_dec c c); [done|congruence].
Qed.

Lemma prefix_sliceTo (p : string) :
  forall n s, String.prefix p (sliceTo n s) = true -> String.prefix p s = true.
Proof.
  induction p as [|c p IH]; intros n s; [by destruct s|].
  destruct n as [|n], s as [|a s]; cbn [sliceTo String.prefix]; try done.
  destruct (Ascii.ascii_dec c a); [apply IH|done].
Qed.

Lemma indexOf_found (search : string) :
  forall s i,
    indexOf search s = Some i ->
    String.prefix search (sliceFrom i s) = true /\
    i <= String.length s /\
    (search <> "" -> indexOf search (sliceTo i s) = None).
Proof.
  intros s. induction s as [|a s IH]; intros i; cbn [indexOf].
  - destruct (String.prefix search "") eqn:Hp; [|done].
    intros [= <-]. split; [done|]. split; [done|]. intros Hne.
    by destruct search.
  - destruct (String.prefix search (String a s)) eqn:Hp.
    + intros [= <-]. split; [done|]. split; [cbn [String.length]; lia|].
      intros Hne. by destruct search.
    + destruct (indexOf search s) as [j|] eqn:Hj; [|done].
      intros [= <-]. destruct (IH j eq_refl) as (Hfound & Hle & Hnone).
      split; [done|]. split; [cbn [String.length]; lia|]. intros Hne.
      cbn [sliceTo indexOf]. rewrite (Hnone Hne).
      destruct (String.prefix search (String a (sliceTo j s))) eqn:Hp';
        [|done].
      apply (prefix_sliceTo search (S j) (String a s)) in Hp'. congruence.
Qed.

Lemma indexOf_cons (search : string) (x : Ascii.ascii) (s : string) :
  indexOf search (String x s)
  = if String.prefix search (String x s) then Some 0
    else S <$> indexOf search s.
Proof. reflexivity. Qed.

Lemma prefix_char (c x : Ascii.ascii) (s : string) :
  String.prefix (String c "") (String x s)
  = if Ascii.ascii_dec c x then true else false.
Proof.
  cbn [String.prefix]. destruct (Ascii.ascii_dec c x); [|done].
  by destruct s.
Qed.

Lemma indexOf_char_append (c : Ascii.ascii) (a b : string) :
  indexOf (String c "") a = None ->
  indexOf (String c "") (a +:+ String c b) = Some (String.length a).
Proof.
  induction a as [|x a IH]; rewrite ?append_nil, ?append_cons;
    rewrite ?indexOf_cons, ?prefix_char.
  - intros _. by destruct (Ascii.ascii_dec c c).
  - destruct (Ascii.ascii_dec c x) as [->|Hne]; [done|].
    destruct (indexOf (String c "") a) eqn:Ha; [done|].
    intros _. by rewrite IH.
Qed.

Lemma sliceTo_length (n : nat) (s : string) :
  n <= String.length s -> String.length (sliceTo n s) = n.
Proof.
  revert s. induction n as [|n IH]; intros [|c s];
    cbn [sliceTo String.length]; try done; try lia.
  intros Hn. rewrite IH; lia.
Qed.

Lemma sliceFrom_S (n : nat) (s : string) :
  sliceFrom (S n) s = sliceFrom 1 (sliceFrom n s).
Proof.
  revert s. induction n as [|n IH]; intros [|c s]; try done.
  cbn [sliceFrom] in *. destruct s as [|c' s]; [by destruct n|].
  apply (IH (String c' s)).
Qed.

(** X16: [splitStringGetLeft] and [splitStringGetRight] cut a string at
    the first occurrence of the search string: when there is none both
    return the whole string; when it occurs first at [index], the left
    part is the [index] characters before it and does not contain the
    search string, and the left part, the first character of the search
    string and the right part make up the string again. *)
Theorem split_at_first_occurrence (str : string) (c : Ascii.ascii)
    (rest : string) :
  (indexOf (String c rest) str = None ->
   splitStringGetLeft str (String c rest) = str /\
   splitStringGetRight str (String c rest) = str) /\
  (forall index,
      indexOf (String c rest) str = Some index ->
      splitStringGetLeft str (String c rest) +:+ String c ""
        +:+ splitStringGetRight str (String c rest) = str /\
      String.length (splitStringGetLeft str (String c rest)) = index /\
      indexOf (String c rest) (splitStringGetLeft str (String c rest))
      = None).
Proof.
  unfold splitStringGetLeft, splitStringGetRight. split.
  - intros ->. done.
  - intros index Hindex. rewrite Hindex.
    destruct (indexOf_found _ _ _ Hindex) as (Hprefix & Hle & Hnone).
    split; [|split; [by apply sliceTo_length|by apply Hnone]].
    rewrite Nat.add_1_r, sliceFrom_S.
    destruct (sliceFrom index str) as [|c' tail] eqn:Htail; [done|].
    cbn [String.prefix] in Hprefix.
    destruct (Ascii.ascii_dec c c') as [<-|]; [|done].
    cbn [sliceFrom]. rewrite append_cons, append_nil, <- Htail.
    apply sliceTo_sliceFrom.
Qed.

Lemma split_at_first_occurrence_witness :
  splitStringGetLeft "2023-11-14T22:13:20.000Z" "T" +:+ "T"
    +:+ splitStringGetRight "2023-11-14T22:13:20.000Z" "T"
  = "2023-11-14T22:13:20.000Z".
Proof.
  apply (proj2 (split_at_first_occurrence "2023-11-14T22:13:20.000Z"
                  (Ascii.ascii_of_nat 84) "") 10).
  reflexivity.
Defined.

Section Timestamps.
Variable toISOString : Z -> JsError + string.
Variable tzOffset : string.

(** What the renderer of a name returns for a time value. *)
Definition renderTimestamp (name : string) (ts : Z)
  : option (JsError + string) :=
  (fun f => f ts) <$> textFormatterTimestampsMap toISOString tzOffset !! name.

Lemma renderTimestamp_names (ts : Z) :
  renderTimestamp "date-time-timezone" ts
  = Some (onIsoString toISOString
            (fun iso => dropLast (replaceFirst "T" " " iso)
                        +:+ " " +:+ timezoneOffset tzOffset) ts) /\
  renderTimestamp "date-time-tz" ts
  = Some (onIsoString toISOString
            (fun iso => dropLast (replaceFirst "T" " " iso)
                        +:+ " " +:+ tzOffset) ts) /\
  renderTimestamp "date-time" ts
  = Some (onIsoString toISOString
            (fun iso => dropLast (replaceFirst "T" " " iso)) ts) /\
  renderTimestamp "time-timezone" ts
  = Some (onIsoString toISOString
            (fun iso => dropLast (getTimeFromDateString iso)
                        +:+ " " +:+ timezoneOffset tzOffset) ts) /\
  renderTimestamp "time-tz" ts
  = Some (onIsoString toISOString
            (fun iso => dropLast (getTimeFromDateString iso)
                        +:+ " " +:+ tzOffset) ts) /\
  renderTimestamp "time" ts
  = Some (onIsoString toISOString
            (fun iso => dropLast (getTimeFromDateString iso)) ts) /\
  renderTimestamp "date" ts
  = Some (onIsoString toISOString getDateFromDateString ts) /\
  renderTimestamp "rfc3339" ts
  = Some (onIsoString toISOString (fun iso => iso) ts).
Proof.
  unfold renderTimestamp, textFormatterTimestampsMap, tableOf.
  cbn [foldl fst snd].
  repeat split;
    (repeat (rewrite lookup_insert_ne by done)); by rewrite lookup_insert_eq.
Qed.

Lemma timestamps_unknown (name : string) :
  name ∉ ["date-time-timezone"; "date-time-tz"; "date-time";
          "time-timezone"; "time-tz"; "time"; "date"; "rfc3339"] ->
  textFormatterTimestampsMap toISOString tzOffset !! name = None.
Proof.
  intros Hname. unfold textFormatterTimestampsMap, tableOf.
  cbn [foldl fst snd].
  repeat (rewrite lookup_insert_ne;
          [|intros <-; apply Hname; repeat (first [by left|right])]).
  by rewrite lookup_empty.
Qed.

Lemma iso_parts (date time : string) :
  indexOf "T" date = None ->
  getDateFromDateString (date +:+ "T" +:+ time +:+ "Z") = date /\
  dropLast (getTimeFromDateString (date +:+ "T" +:+ time +:+ "Z")) = time /\
  dropLast (replaceFirst "T" " " (date +:+ "T" +:+ time +:+ "Z"))
  = date +:+ " " +:+ time.
Proof.
  intros Hdate.
  pose proof (indexOf_char_append (Ascii.ascii_of_nat 84) date
                (time +:+ "Z") Hdate) as Hindex.
  change (String (Ascii.ascii_of_nat 84) (time +:+ "Z"))
    with ("T" +:+ time +:+ "Z") in Hindex.
  change (String (Ascii.ascii_of_nat 84) "") with "T" in Hindex.
  unfold getDateFromDateString, getTimeFromDateString, splitStringGetLeft,
    splitStringGetRight, replaceFirst.
  rewrite Hindex. split; [apply sliceTo_append|]. split.
  - rewrite Nat.add_1_r, sliceFrom_S, sliceFrom_append.
    cbn [sliceFrom String.append]. apply dropLast_snoc.
  - rewrite sliceTo_append.
    change (String.length "T") with 1.
    rewrite Nat.add_1_r, sliceFrom_S, sliceFrom_append.
    change (sliceFrom 1 ("T" +:+ time +:+ "Z")) with (time +:+ "Z").
    rewrite <- !append_assoc. rewrite dropLast_snoc.
    by rewrite append_assoc.
Qed.

(** X17: the named timestamp renderings of an ISO string.  When
    [toISOString] returns [date], a [T], [time] and a final [Z], with no
    [T] in [date], then [date] renders [date], [time] renders [time],
    [date-time] renders the two separated by a space, the [-tz] forms add
    a space and [tzOffset], the [-timezone] forms add [:00] to that, and
    [rfc3339] renders the ISO string itself; when [toISOString] throws,
    every rendering throws the same; a name outside the table has no
    renderer. *)
Theorem iso_timestamp_renderings (ts : Z) :
  (forall date time : string,
      toISOString ts = inr (date +:+ "T" +:+ time +:+ "Z") ->
      indexOf "T" date = None ->
      renderTimestamp "date" ts = Some (inr date) /\
      renderTimestamp "time" ts = Some (inr time) /\
      renderTimestamp "date-time" ts = Some (inr (date +:+ " " +:+ time)) /\
      renderTimestamp "time-tz" ts
      = Some (inr (time +:+ " " +:+ tzOffset)) /\
      renderTimestamp "date-time-tz" ts
      = Some (inr ((date +:+ " " +:+ time) +:+ " " +:+ tzOffset)) /\
      renderTimestamp "time-timezone" ts
      = Some (inr (time +:+ " " +:+ tzOffset +:+ ":00")) /\
      renderTimestamp "date-time-timezone" ts
      = Some (inr ((date +:+ " " +:+ time) +:+ " " +:+ tzOffset +:+ ":00")) /\
      renderTimestamp "rfc3339" ts
      = Some (inr (date +:+ "T" +:+ time +:+ "Z"))) /\
  (forall (e : JsError) (name : string) (result : JsError + string),
      toISOString ts = inl e ->
      renderTimestamp name ts = Some result -> result = inl e) /\
  (forall name : string,
      name ∉ ["date-time-timezone"; "date-time-tz"; "date-time";
              "time-timezone"; "time-tz"; "time"; "date"; "rfc3339"] ->
      renderTimestamp name ts = None).
Proof.
  split; [|split].
  - intros date time Hiso Hdate.
    destruct (renderTimestamp_names ts)
      as (-> & -> & -> & -> & -> & -> & -> & ->).
    destruct (iso_parts date time Hdate) as (Hd & Ht & Hdt).
    unfold onIsoString, getDateIsoString, timezoneOffset.
    rewrite Hiso, Hd, Ht, Hdt. done.
  - intros e name result He. unfold renderTimestamp,
      textFormatterTimestampsMap, tableOf. cbn [foldl fst snd].
    repeat (rewrite lookup_insert;
            case_decide; [cbn [fmap option_fmap option_map];
                          unfold onIsoString, getDateIsoString;
                          rewrite He; by intros [= <-]|]).
    by rewrite lookup_empty.
  - intros name Hname. unfold renderTimestamp.
    by rewrite timestamps_unknown.
Qed.

End Timestamps.

Lemma iso_timestamp_renderings_witness :
  renderTimestamp (fun _ => inr "2023-11-14T22:13:20.000Z") "+00"
    "date-time-timezone" 1700000000000
  = Some (inr (("2023-11-14" +:+ " " +:+ "22:13:20.000")
               +:+ " " +:+ "+00" +:+ ":00")).
Proof.
  apply (proj1 (iso_timestamp_renderings
                  (fun _ => inr "2023-11-14T22:13:20.000Z") "+00"
                  1700000000000)
               "2023-11-14" "22:13:20.000"); reflexivity.
Defined.

(** The accessors of a record. *)
Inductive Accessor : Type := AccMessage | AccRawMessage | AccProperties.

(** What a computation on a record returns, and the accessors it reads in
    turn, when [message], [rawMessage] and [properties] hold the given
    data. *)
Fixpoint observe {A : Type} (message : list Value) (rawMessage : RawMessage)
    (properties : Properties) (p : Reader A) : (JsError + A) * list Accessor :=
  match p with
  | Ret a => (inr a, [])
  | Throw e => (inl e, [])
  | GetProperties k =>
      let r := observe message rawMessage properties (k properties) in
      (r.1, AccProperties :: r.2)
  | GetMessage k =>
      let r := observe message rawMessage properties (k message) in
      (r.1, AccMessage :: r.2)
  | GetRawMessage k =>
      let r := observe message rawMessage properties (k rawMessage) in
      (r.1, AccRawMessage :: r.2)
  end.

(** The text of a template with its values: the literals with the
    renderings of the values between them. *)
Fixpoint templateText (render : Value -> string) (template : list string)
    (values : list Value) : string :=
  match template with
  | [] => ""
  | t :: template' =>
      t +:+ match values with
            | [] => templateText render template' []
            | v :: values' => render v +:+ templateText render template' values'
            end
  end.

Lemma observe_mapReader {A B : Type} (f : A -> B) (m : list Value)
    (raw : RawMessage) (props : Properties) (p : Reader A) :
  observe m raw props (mapReader f p)
  = (match (observe m raw props p).1 with
     | inl e => inl e
     | inr a => inr (f a)
     end, (observe m raw props p).2).
Proof.
  induction p as [a|e|k IH|k IH|k IH]; cbn [mapReader observe fst snd];
    try done; by rewrite IH.
Qed.

Lemma observe_bindReader {A B : Type} (m : list Value) (raw : RawMessage)
    (props : Properties) (p : Reader A) (k : A -> Reader B) :
  observe m raw props (bindReader p k)
  = match (observe m raw props p).1 with
    | inl e => (inl e, (observe m raw props p).2)
    | inr a => ((observe m raw props (k a)).1,
                (observe m raw props p).2 ++ (observe m raw props (k a)).2)
    end.
Proof.
  induction p as [a|e|k' IH|k' IH|k' IH]; cbn [bindReader observe fst snd].
  - by destruct (observe m raw props (k a)).
  - done.
  - rewrite IH. by destruct (observe m raw props (k' props)).1.
  - rewrite IH. by destruct (observe m raw props (k' m)).1.
  - rewrite IH. by destruct (observe m raw props (k' raw)).1.
Qed.

Section Messages.
Variable stringOfValue : Value -> string.

(** The steps of [reduce] from index [start] on. *)
Definition reduceFrom (valueRenderer : Value -> JsError + string)
    (start : nat) (acc : JsError + string) (message : list Value)
  : JsError + string :=
  foldl (fun acc entry =>
           match acc with
           | inl e => inl e
           | inr msg =>
               if Nat.even entry.1
               then inr (appendPart stringOfValue msg entry.2)
               else match valueRenderer entry.2 with
                    | inl e => inl e
                    | inr rendered => inr (msg +:+ rendered)
                    end
           end)
        acc (imap (fun i part => (start + i, part)) message).

Lemma reduceFrom_cons (valueRenderer : Value -> JsError + string)
    (start : nat) (msg : string) (part : Value) (message : list Value) :
  reduceFrom valueRenderer start (inr msg) (part :: message)
  = reduceFrom valueRenderer (S start)
      (if Nat.even start then inr (appendPart stringOfValue msg part)
       else match valueRenderer part with
            | inl e => inl e
            | inr rendered => inr (msg +:+ rendered)
            end)
      message.
Proof.
  unfold reduceFrom. cbn [imap foldl fst snd]. rewrite Nat.add_0_r.
  f_equal. apply imap_ext. intros i x _. cbn. f_equal. lia.
Qed.

Lemma reduceFrom_failed (valueRenderer : Value -> JsError + string)
    (start : nat) (e : JsError) (message : list Value) :
  reduceFrom valueRenderer start (inl e) message = inl e.
Proof.
  unfold reduceFrom.
  generalize (imap (fun i part => (start + i, part)) message).
  intros l. by induction l as [|x l IH].
Qed.

Lemma reduceFrom_template (render : Value -> string)
    (template : list string) :
  forall values start msg,
    Nat.even start = true ->
    length template <= S (length values) ->
    reduceFrom (fun v => inr (render v)) start (inr msg)
               (renderMessage template values)
    = inr (msg +:+ templateText render template values).
Proof.
  induction template as [|t template IH]; intros values start msg Heven Hlen.
  - cbn [renderMessage templateText]. by rewrite append_empty_r.
  - cbn [renderMessage templateText].
    rewrite reduceFrom_cons, Heven. cbn [appendPart].
    destruct values as [|v values].
    + destruct template as [|t' template]; [|simpl in Hlen; lia].
      cbn [renderMessage templateText]. unfold reduceFrom.
      cbn [imap foldl]. by rewrite append_empty_r.
    + rewrite reduceFrom_cons.
      assert (Nat.even (S start) = false) as ->.
      { rewrite Nat.even_succ, <- Nat.negb_even, Heven. done. }
      rewrite IH.
      * by rewrite !append_assoc.
      * by rewrite Nat.even_succ_succ.
      * simpl in Hlen |- *. lia.
Qed.

Lemma reduceMessage_template (render : Value -> string)
    (template : list string) (values : list Value) :
  length template <= S (length values) ->
  reduceMessage stringOfValue (fun v => inr (render v))
                (renderMessage template values)
  = inr (templateText render template values).
Proof.
  intros Hlen.
  change (reduceMessage stringOfValue (fun v => inr (render v))
            (renderMessage template values))
    with (reduceFrom (fun v => inr (render v)) 0 (inr "")
            (renderMessage template values)).
  by rewrite reduceFrom_template.
Qed.

End Messages.

Section TextFormatter.
Variable toISOString : Z -> JsError + string.
Variable tzOffset : string.
Variable toUpperCase toLowerCase : string -> string.
Variable stringOfValue : Value -> string.
Variable stringOfMember : string -> string.
Variable InspectConfig : Type.
Variable inspect : Inspected -> option InspectConfig -> string.

Lemma timestamps_default :
  textFormatterTimestampsMap toISOString tzOffset !! "date-time-timezone"
  = Some (onIsoString toISOString
            (fun iso => dropLast (replaceFirst "T" " " iso)
                        +:+ " " +:+ timezoneOffset tzOffset)).
Proof.
  unfold textFormatterTimestampsMap, tableOf. cbn [foldl fst snd].
  repeat (rewrite lookup_insert_ne by done). by rewrite lookup_insert_eq.
Qed.

Lemma levels_default :
  textFormatterLevelsMap toUpperCase toLowerCase !! "ABBR"
  = Some (fun level => inr (objectGet levelAbbreviations level)).
Proof.
  unfold textFormatterLevelsMap, tableOf. cbn [foldl fst snd].
  repeat (rewrite lookup_insert_ne by done). by rewrite lookup_insert_eq.
Qed.

(** X18: the line of the default text formatter for the message of a
    template with its values, and for the message of a string call, which
    is the template of one literal without values: the timestamp, in
    brackets what the object [levelAbbreviations] holds under the level,
    the category joined by middle dots, a colon, and the literals with the
    inspected values between them, ended by a line terminator.  Between
    the brackets stands the abbreviation of one of the six levels, the
    text that the engine gives the member of [Object.prototype] when the
    level is the name of one, and [undefined] for any other level.  The
    formatter reads [message] twice; it reads [properties], and appends
    them inspected, exactly when the message has a single part. *)
Theorem text_formatter_on_template (record : RecordHead)
    (template : list string) (values : list Value) (rawMessage : RawMessage)
    (properties : Properties) (iso : string) :
  length template <= S (length values) ->
  toISOString (rtimestamp record) = inr iso ->
  let line :=
    (dropLast (replaceFirst "T" " " iso) +:+ " " +:+ tzOffset +:+ ":00")
    +:+ " ["
    +:+ match levelAbbreviations !! rlevel record with
        | Some abbreviation => abbreviation
        | None =>
            if bool_decide (rlevel record ∈ objectPrototypeNames)
            then stringOfMember (rlevel record)
            else "undefined"
        end
    +:+ "] "
    +:+ join middleDot (rcategory record) +:+ ": "
    +:+ templateText (fun v => inspect (InspectValue v) None)
                     template values in
  observe (renderMessage template values) rawMessage properties
          (defaultTextFormatter toISOString tzOffset toUpperCase toLowerCase
             stringOfValue stringOfMember InspectConfig inspect record)
  = match template, values with
    | [_], [] =>
        (inr ((line +:+ " "
               +:+ inspect (inspectedProperties properties) None)
              +:+ newline),
         [AccMessage; AccMessage; AccProperties])
    | _, _ => (inr (line +:+ newline), [AccMessage; AccMessage])
    end.
Proof.
  intros Hlen Hiso line.
  unfold defaultTextFormatter, getTextFormatter, noOptions.
  cbn [o_timestamp o_level o_category o_value o_format o_inspectConfig].
  rewrite timestamps_default, levels_default.
  unfold onIsoString, getDateIsoString. rewrite Hiso.
  cbn [andThen observe fst snd].
  rewrite (reduceMessage_template stringOfValue
             (fun v => inspect (InspectValue v) None) template values Hlen).
  cbn [andThen]. rewrite observe_mapReader.
  unfold defaultFormat.
  cbn [observe fst snd fv_timestamp fv_level fv_category fv_message].
  assert (interpolate stringOfMember
            (objectGet levelAbbreviations (rlevel record))
          = match levelAbbreviations !! rlevel record with
            | Some abbreviation => abbreviation
            | None =>
                if bool_decide (rlevel record ∈ objectPrototypeNames)
                then stringOfMember (rlevel record)
                else "undefined"
            end) as ->.
  { unfold interpolate, objectGet.
    destruct (levelAbbreviations !! rlevel record); [done|].
    by case_bool_decide. }
  fold (timezoneOffset tzOffset). unfold timezoneOffset. fold line.
  destruct template as [|t [|t' template]].
  - done.
  - destruct values as [|v values]; done.
  - destruct values as [|v values]; [simpl in Hlen; lia|].
    cbn [renderMessage length].
    by destruct values, template.
Qed.

End TextFormatter.

Lemma text_formatter_on_template_witness :
  observe (renderMessage ["Hello, "; " & "; "!"] [VNumber 123; VNumber 456])
          (RawString "Hello, {a} & {b}!") (Some ∅)
          (defaultTextFormatter
             (fun _ => inr "2023-11-14T22:13:20.000Z") "+00" id id
             (fun _ => "") (fun _ => "") unit
             (fun x _ => match x with
                         | InspectValue (VNumber z) => pretty z
                         | _ => "{}"
                         end)
             {| rcategory := ["my-app"; "junk"]; rlevel := "info";
                rtimestamp := 1700000000000 |})
  = (inr ("2023-11-14 22:13:20.000 +00:00 [INF] my-app"
          +:+ middleDot +:+ "junk: Hello, 123 & 456!" +:+ newline),
     [AccMessage; AccMessage]).
Proof.
  rewrite (text_formatter_on_template
             (fun _ => inr "2023-11-14T22:13:20.000Z") "+00" id id
             (fun _ => "") (fun _ => "") unit _ _ _ _ _ _
             "2023-11-14T22:13:20.000Z");
    [reflexivity|simpl; lia|reflexivity].
Defined.

Section ConsoleFormatter.
Variable toISOString : Z -> JsError + string.
Variable stringOfValue : Value -> string.
Variable stringOfMember : string -> string.

Lemma join_empty_cons (x : string) (l : list string) :
  join "" (x :: l) = x +:+ join "" l.
Proof.
  destruct l as [|y l]; cbn [join]; [by rewrite append_empty_r|done].
Qed.

(** The parts of [placeholders] and [oddParts] from index [start] on. *)
Definition placeholdersFrom (start : nat) (message : list Value) : string :=
  join "" (imap (fun i m => if Nat.even (start + i)
                            then joinPart stringOfValue m else "%o") message).

Definition oddPartsFrom (start : nat) (message : list Value) : list Value :=
  omap (fun entry => if Nat.even entry.1 then None else Some entry.2)
       (imap (fun i m => (start + i, m)) message).

Lemma placeholdersFrom_cons (start : nat) (m : Value) (message : list Value) :
  placeholdersFrom start (m :: message)
  = (if Nat.even start then joinPart stringOfValue m else "%o")
    +:+ placeholdersFrom (S start) message.
Proof.
  unfold placeholdersFrom. cbn [imap]. rewrite join_empty_cons, Nat.add_0_r.
  do 2 f_equal. apply imap_ext. intros i x _. cbn.
  by replace (start + S i) with (S (start + i)) by lia.
Qed.

Lemma oddPartsFrom_cons (start : nat) (m : Value) (message : list Value) :
  oddPartsFrom start (m :: message)
  = (if Nat.even start then [] else [m]) ++ oddPartsFrom (S start) message.
Proof.
  unfold oddPartsFrom. cbn [imap omap fst snd]. rewrite Nat.add_0_r.
  assert (imap ((fun i m0 => (start + i, m0)) ∘ S) message
          = imap (fun i m0 => (S start + i, m0)) message) as ->.
  { apply imap_ext. intros i x _. cbn. f_equal. lia. }
  cbn [omap list_omap fst snd]. by destruct (Nat.even start).
Qed.

Lemma console_template (template : list string) :
  forall values start,
    Nat.even start = true ->
    length template <= S (length values) ->
    placeholdersFrom start (renderMessage template values)
    = templateText (fun _ => "%o") template values /\
    oddPartsFrom start (renderMessage template values)
    = take (length template) values.
Proof.
  induction template as [|t template IH]; intros values start Heven Hlen.
  - done.
  - cbn [renderMessage templateText length].
    rewrite placeholdersFrom_cons, oddPartsFrom_cons, Heven.
    cbn [joinPart app].
    assert (Nat.even (S start) = false) as Hodd.
    { rewrite Nat.even_succ, <- Nat.negb_even, Heven. done. }
    destruct values as [|v values].
    + destruct template as [|t' template]; [|simpl in Hlen; lia]. done.
    + rewrite placeholdersFrom_cons, oddPartsFrom_cons, Hodd.
      destruct (IH values (S (S start))) as [Htext Hodds].
      * by rewrite Nat.even_succ_succ.
      * simpl in Hlen |- *. lia.
      * rewrite Htext, Hodds. done.
Qed.

(** X19: the array of the default console formatter for the message of a
    template with its values: the format string holds one [%o] for each
    value used, between the literals, and exactly these values follow the
    five style elements, in order; the last element is the properties when
    the message has a single part and the properties are defined, and the
    empty string otherwise.  The format string holds what the object
    [levelAbbreviations] holds under the level, and the style of the level
    is what the object [logLevelStyles] holds under it: the abbreviation
    and the style string of one of the six levels, the text of the member
    of [Object.prototype] and that member when the level is the name of
    one, and [undefined] twice for any other level.  The formatter reads
    [message], then [properties], whatever the message is, then [message]
    again. *)
Theorem console_formatter_on_template (record : RecordHead)
    (template : list string) (values : list Value) (rawMessage : RawMessage)
    (properties : Properties) (iso : string) :
  length template <= S (length values) ->
  toISOString (rtimestamp record) = inr iso ->
  observe (renderMessage template values) rawMessage properties
          (getDefaultConsoleFormatter toISOString stringOfValue stringOfMember
             None record)
  = (inr ([ConsoleString
             ("%c" +:+ substring 11 23 iso +:+ " %c"
              +:+ match levelAbbreviations !! rlevel record with
                  | Some abbreviation => abbreviation
                  | None =>
                      if bool_decide (rlevel record ∈ objectPrototypeNames)
                      then stringOfMember (rlevel record)
                      else "undefined"
                  end
              +:+ "%c %c" +:+ join middleDot (rcategory record) +:+ " %c"
              +:+ templateText (fun _ => "%o") template values);
           ConsoleString "color: gray;";
           match logLevelStyles !! rlevel record with
           | Some style => ConsoleString style
           | None =>
               if bool_decide (rlevel record ∈ objectPrototypeNames)
               then ConsoleMember (rlevel record)
               else ConsoleValue VUndefined
           end;
           ConsoleString "background-color: default;";
           ConsoleString "color: gray;"; ConsoleString "color: default;"]
          ++ (ConsoleValue <$> take (length template) values)
          ++ [match template, values, properties with
              | [_], [], Some p => ConsoleProperties p
              | _, _, _ => ConsoleString ""
              end]),
     [AccMessage; AccProperties; AccMessage]).
Proof.
  intros Hlen Hiso. unfold getDefaultConsoleFormatter.
  cbn [observe getFunction fst snd]. rewrite Hiso.
  cbn [andThen bindReader observe fst snd].
  destruct (console_template template values 0 eq_refl Hlen)
    as [Htext Hodds].
  change (placeholders stringOfValue (renderMessage template values))
    with (placeholdersFrom 0 (renderMessage template values)).
  change (oddParts (renderMessage template values))
    with (oddPartsFrom 0 (renderMessage template values)).
  rewrite Htext, Hodds.
  assert (interpolate stringOfMember
            (objectGet levelAbbreviations (rlevel record))
          = match levelAbbreviations !! rlevel record with
            | Some abbreviation => abbreviation
            | None =>
                if bool_decide (rlevel record ∈ objectPrototypeNames)
                then stringOfMember (rlevel record)
                else "undefined"
            end) as ->.
  { unfold interpolate, objectGet.
    destruct (levelAbbreviations !! rlevel record); [done|].
    by case_bool_decide. }
  assert (match objectGet logLevelStyles (rlevel record) with
          | Own s => ConsoleString s
          | Inherited name => ConsoleMember name
          | Undefined => ConsoleValue VUndefined
          end
          = match logLevelStyles !! rlevel record with
            | Some style => ConsoleString style
            | None =>
                if bool_decide (rlevel record ∈ objectPrototypeNames)
                then ConsoleMember (rlevel record)
                else ConsoleValue VUndefined
            end) as ->.
  { unfold objectGet.
    destruct (logLevelStyles !! rlevel record); [done|].
    by case_bool_decide. }
  do 4 f_equal.
  destruct template as [|t [|t' template]].
  - done.
  - destruct values as [|v values]; [done|]. by destruct properties.
  - destruct values as [|v values]; [simpl in Hlen; lia|].
    cbn [renderMessage length].
    by destruct values, template, properties.
Qed.

End ConsoleFormatter.

Lemma console_formatter_on_template_witness :
  observe (renderMessage ["Hello, "; " & "; "!"] [VNumber 123; VNumber 456])
          (RawString "Hello, {a} & {b}!") (Some ∅)
          (getDefaultConsoleFormatter
             (fun _ => inr "2023-11-14T22:13:20.000Z") (fun _ => "")
             (fun _ => "") None
             {| rcategory := ["my-app"; "junk"]; rlevel := "info";
                rtimestamp := 1700000000000 |})
  = (inr [ConsoleString ("%c22:13:20.000 %cINF%c %cmy-app" +:+ middleDot
                         +:+ "junk %cHello, %o & %o!");
          ConsoleString "color: gray;";
          ConsoleString "background-color: white; color: black;";
          ConsoleString "background-color: default;";
          ConsoleString "color: gray;"; ConsoleString "color: default;";
          ConsoleValue (VNumber 123); ConsoleValue (VNumber 456);
          ConsoleString ""],
     [AccMessage; AccProperties; AccMessage]).
Proof.
  rewrite (console_formatter_on_template
             (fun _ => inr "2023-11-14T22:13:20.000Z") (fun _ => "")
             (fun _ => "") _ _ _ _ _ "2023-11-14T22:13:20.000Z");
    [reflexivity|simpl; lia|reflexivity].
Defined.

Section TextFormatterFailures.
Variable toISOString : Z -> JsError + string.
Variable tzOffset : string.
Variable toUpperCase toLowerCase : string -> string.
Variable stringOfValue : Value -> string.
Variable stringOfMember : string -> string.
Variable InspectConfig : Type.
Variable inspect : Inspected -> option InspectConfig -> string.

Lemma levels_abbr :
  textFormatterLevelsMap toUpperCase toLowerCase !! "abbr"
  = Some (fun level =>
            match objectGet levelAbbreviations level with
            | Own abbreviation => inr (Own (toLowerCase abbreviation))
            | Inherited _ =>
                inl (TypeError
                       "levelAbbreviations[level].toLowerCase is not a function")
            | Undefined =>
                inl (TypeError "Cannot read properties of undefined")
            end).
Proof.
  unfold textFormatterLevelsMap, tableOf. cbn [foldl fst snd].
  repeat (rewrite lookup_insert_ne by done). by rewrite lookup_insert_eq.
Qed.

Lemma levels_unknown (name : string) :
  name ∉ ["ABBR"; "abbr"; "FULL"; "full"; "L"; "l"] ->
  textFormatterLevelsMap toUpperCase toLowerCase !! name = None.
Proof.
  intros Hname. unfold textFormatterLevelsMap, tableOf.
  cbn [foldl fst snd].
  repeat (rewrite lookup_insert_ne;
          [|intros <-; apply Hname; repeat (first [by left|right])]).
  by rewrite lookup_empty.
Qed.

(** X20: a text formatter is built from any options, and fails when it is
    applied: with a timestamp name outside the table every record makes it
    throw [TypeError], with a level name outside the table likewise, with
    the level name [abbr] a record whose level has no abbreviation does
    (the message of the error tells whether the level is the name of a
    member of [Object.prototype], which has no [toLowerCase], or not, so
    that [undefined] is read), and an exception of [toISOString] or of the
    value renderer of the caller comes out as it is.  In all of these
    cases but the last the formatter throws before it reads [message]; it
    never reads [properties] when it fails. *)
Theorem text_formatter_failures (options : TextFormatterOptions InspectConfig)
    (record : RecordHead) (message : list Value) (rawMessage : RawMessage)
    (properties : Properties) :
  let result :=
    observe message rawMessage properties
            (getTextFormatter toISOString tzOffset toUpperCase toLowerCase
               stringOfValue stringOfMember InspectConfig inspect options
               record) in
  (forall name,
      o_timestamp InspectConfig options = Some (TsNamed name) ->
      name ∉ ["date-time-timezone"; "date-time-tz"; "date-time";
              "time-timezone"; "time-tz"; "time"; "date"; "rfc3339"] ->
      result = (inl (TypeError "timestampRenderer is not a function"), [])) /\
  (forall e,
      o_timestamp InspectConfig options = None ->
      toISOString (rtimestamp record) = inl e ->
      result = (inl e, [])) /\
  (forall iso name,
      o_timestamp InspectConfig options = None ->
      toISOString (rtimestamp record) = inr iso ->
      o_level InspectConfig options = Some (LvNamed name) ->
      name ∉ ["ABBR"; "abbr"; "FULL"; "full"; "L"; "l"] ->
      result = (inl (TypeError "levelRenderer is not a function"), [])) /\
  (forall iso,
      o_timestamp InspectConfig options = None ->
      toISOString (rtimestamp record) = inr iso ->
      o_level InspectConfig options = Some (LvNamed "abbr") ->
      levelAbbreviations !! rlevel record = None ->
      result
      = (inl (TypeError
                (if bool_decide (rlevel record ∈ objectPrototypeNames)
                 then "levelAbbreviations[level].toLowerCase is not a function"
                 else "Cannot read properties of undefined")), [])) /\
  (forall iso f e v,
      o_timestamp InspectConfig options = None ->
      toISOString (rtimestamp record) = inr iso ->
      o_level InspectConfig options = None ->
      o_category InspectConfig options = None ->
      o_value InspectConfig options = Some f ->
      message !! 1 = Some v -> f v = inl e ->
      result = (inl e, [AccMessage])).
Proof.
  intros result. subst result. unfold getTextFormatter.
  split; [|split; [|split; [|split]]].
  - intros name -> Hname. by rewrite timestamps_unknown.
  - intros e -> He. rewrite timestamps_default.
    unfold onIsoString, getDateIsoString. by rewrite He.
  - intros iso name -> Hiso -> Hname.
    rewrite timestamps_default, levels_unknown by done.
    unfold onIsoString, getDateIsoString. by rewrite Hiso.
  - intros iso -> Hiso -> Hlevel.
    rewrite timestamps_default, levels_abbr.
    unfold onIsoString, getDateIsoString. rewrite Hiso.
    cbn [andThen]. unfold objectGet. rewrite Hlevel.
    by case_bool_decide.
  - intros iso f e v -> Hiso -> -> -> Hv He.
    rewrite timestamps_default, levels_default.
    unfold onIsoString, getDateIsoString. rewrite Hiso.
    cbn [andThen observe fst snd].
    destruct message as [|m0 [|m1 rest]]; [done|done|].
    injection Hv as ->.
    assert (reduceMessage stringOfValue f (m0 :: v :: rest) = inl e) as ->;
      [|done].
    change (reduceMessage stringOfValue f (m0 :: v :: rest))
      with (reduceFrom stringOfValue f 0 (inr "") (m0 :: v :: rest)).
    rewrite reduceFrom_cons. cbn [Nat.even].
    rewrite reduceFrom_cons. cbn [Nat.even]. rewrite He.
    apply reduceFrom_failed.
Qed.

End TextFormatterFailures.

Lemma text_formatter_failures_witness :
  observe [VString "a"] (RawString "a") None
          (getTextFormatter (fun _ => inr "2023-11-14T22:13:20.000Z") "+00"
             id id (fun _ => "") (fun _ => "") unit (fun _ _ => "")
             {| o_timestamp := Some (TsNamed "iso"); o_level := None;
                o_category := None; o_value := None; o_format := None;
                o_inspectConfig := None |}
             {| rcategory := []; rlevel := "info"; rtimestamp := 0 |})
  = (inl (TypeError "timestampRenderer is not a function"), []).
Proof.
  apply (proj1 (text_formatter_failures
                  (fun _ => inr "2023-11-14T22:13:20.000Z") "+00" id id
                  (fun _ => "") (fun _ => "") unit (fun _ _ => "")
                  _ _ _ _ _) "iso").
  - reflexivity.
  - intros Hin.
    repeat (apply elem_of_cons in Hin as [Hin|Hin]; [discriminate Hin|]).
    by apply elem_of_nil in Hin.
Defined.

End FormatterProperties.


(** ** Properties transformers: which ones apply *)
Module TransformProperties.
Import Category Filter Logger Emission CategoryFacts LoggerFacts EmissionFacts.

(** X21: the properties transformers that apply to a record are those of
    the nearest logger that has any, going from the logger of the call
    towards the root; the transformers of the loggers above it are not
    applied.  They run in the order of the list, each on the record with
    the properties left by the one before it, and when one of them throws
    the exception comes out of [propTransform].  When the result is
    [undefined], the logger that owns the transformers returns
    [undefined], and a logger below it returns the properties of the
    record instead; without any transformer on the way the properties of
    the record are returned. *)
Theorem propTransform_nearest (g : Registry) (raw : RawLogRecord) :
  wf g ->
  (forall this, is_Some (heap g !! this) ->
     exists a, nearest g this a /\ forall b, nearest g this b -> b = a) /\
  (forall this a fuel,
     nearest g this a ->
     this < fuel ->
     propTransform fuel g this raw
     = match a with
       | None => Normal (raw_properties raw)
       | Some a =>
           match chain (transformersOf g a) raw (raw_properties raw) with
           | inl e => Thrown e
           | inr result =>
               Normal (if decide (a = this) then result
                       else match result with
                            | Some p => Some p
                            | None => raw_properties raw
                            end)
           end
       end).
Proof.
  intros Hwf. split.
  - intros this Hthis.
    destruct (nearest_exists g Hwf this Hthis) as [a Ha].
    exists a. split; [done|]. intros b Hb.
    by apply (nearest_functional g this).
  - intros this a fuel Hn Hlt. by apply propTransform_resolved.
Qed.

Section TransformExample.

(** [fooRegistry] with a transformer on the root that returns
    [undefined], and one on [logtape] that adds [tr: true] followed by
    one that adds [n] with the number of keys it is given. *)
Definition droppingRegistry : Registry :=
  pushPropTransformer
    (fun raw =>
       inr (Some (<["n" := VNumber (Z.of_nat
                                      (size (default ∅ (raw_properties raw))))]>
                    (default ∅ (raw_properties raw)))))
    (pushPropTransformer
       (fun raw =>
          inr (Some (<["tr" := VBool true]> (default ∅ (raw_properties raw)))))
       (pushPropTransformer (fun _ => inr None) Examples.fooRegistry 0) 1) 1.

(** [fooRegistry] with a transformer on [foo] that throws after one that
    adds [tr: true]. *)
Definition throwingRegistry : Registry :=
  pushPropTransformer
    (fun _ => inl (OtherError 2))
    (pushPropTransformer
       (fun raw =>
          inr (Some (<["tr" := VBool true]> (default ∅ (raw_properties raw)))))
       Examples.fooRegistry Examples.foo) Examples.foo.

Definition sampleRaw : RawLogRecord :=
  {| raw_category := ["foo"];
     raw_level := "info";
     raw_rawMessage := RawString "hello";
     raw_timestamp := 0;
     raw_properties := Some {["a" := VNumber 1]} |}.

Lemma wf_droppingRegistry : wf droppingRegistry.
Proof. do 3 apply wf_pushPropTransformer. apply wf_fooRegistry. Qed.

Lemma wf_throwingRegistry : wf throwingRegistry.
Proof. do 2 apply wf_pushPropTransformer. apply wf_fooRegistry. Qed.

End TransformExample.

Lemma propTransform_nearest_witness :
  (* the root returns [undefined] *)
  propTransform 5 droppingRegistry 0 sampleRaw = Normal None /\
  (* [foo], below the root, returns the properties of the record *)
  propTransform 5 droppingRegistry Examples.foo sampleRaw
  = Normal (Some {["a" := VNumber 1]}) /\
  (* [logtape.meta] has the two transformers of [logtape], in order *)
  propTransform 5 droppingRegistry Examples.metaLogger sampleRaw
  = Normal (Some (<["n" := VNumber 2]>
                    (<["tr" := VBool true]> {["a" := VNumber 1]}))) /\
  (* the exception of a transformer comes out *)
  propTransform 5 throwingRegistry Examples.foo sampleRaw
  = Thrown (OtherError 2).
Proof.
  pose proof (proj2 (propTransform_nearest droppingRegistry sampleRaw
                       wf_droppingRegistry)) as Hres.
  pose proof (proj2 (propTransform_nearest throwingRegistry sampleRaw
                       wf_throwingRegistry)) as Hthrows.
  split; [|split; [|split]].
  - apply (Hres 0 (Some 0) 5); [|lia].
    eapply nearest_self; [reflexivity|done].
  - apply (Hres Examples.foo (Some 0) 5); [|unfold Examples.foo; lia].
    eapply nearest_parent; [reflexivity|reflexivity|reflexivity|].
    eapply nearest_self; [reflexivity|done].
  - apply (Hres Examples.metaLogger (Some 1) 5);
      [|unfold Examples.metaLogger; lia].
    eapply nearest_parent; [reflexivity|reflexivity|reflexivity|].
    eapply nearest_self; [reflexivity|done].
  - apply (Hthrows Examples.foo (Some Examples.foo) 5);
      [|unfold Examples.foo; lia].
    eapply nearest_self; [reflexivity|done].
Defined.

End TransformProperties.
